(** * pkg-config: the resolver core (pkg.c) and the descriptor parser (parse.c)

    A shallow embedding of the C sources.  C strings are [string]s (the
    terminating NUL is the end of the Rocq string), GLib hash tables keyed
    by strings are [gmap string _], [GSList]/[GList] are lists, [exit (1)]
    is the [Exited] outcome of a small diagnostics-and-exit monad, and the
    process-wide tables of pkg.c are fields of an explicit registry
    record. *)

From Stdlib Require Import ZArith String Ascii List Lia Bool FunInd Recdef.
From stdpp Require Import gmap strings list fin_maps.

Open Scope string_scope.
Open Scope list_scope.
Open Scope Z_scope.

(** ** <ctype.h> in the C locale, <string.h> *)

Definition code (c : ascii) : Z := Z.of_N (N_of_ascii c).

Definition isdigit (c : ascii) : bool := (48 <=? code c) && (code c <=? 57).
Definition isupper (c : ascii) : bool := (65 <=? code c) && (code c <=? 90).
Definition islower (c : ascii) : bool := (97 <=? code c) && (code c <=? 122).
Definition isalpha (c : ascii) : bool := isupper c || islower c.
Definition isalnum (c : ascii) : bool := isalpha c || isdigit c.
(* ' ', and \t \n \v \f \r *)
Definition isspace (c : ascii) : bool :=
  (code c =? 32) || ((9 <=? code c) && (code c <=? 13)).

(** The byte under a pointer [p], NUL at the end of the string. *)
Definition peek (s : string) : ascii :=
  match s with
  | EmptyString => zero
  | String c _ => c
  end.

Definition is_nil (s : string) : bool :=
  match s with
  | EmptyString => true
  | String _ _ => false
  end.

(** [while ( *p && f ( *p)) p++]: the pointer after the loop. *)
Fixpoint skip_while (f : ascii -> bool) (s : string) : string :=
  match s with
  | EmptyString => EmptyString
  | String c s' => if f c then skip_while f s' else s
  end.

(** The bytes the same loop walks over. *)
Fixpoint span_while (f : ascii -> bool) (s : string) : string :=
  match s with
  | EmptyString => EmptyString
  | String c s' => if f c then String c (span_while f s') else EmptyString
  end.

(** [strcmp]: the difference of the first pair of bytes that differ (as
    unsigned char), the terminator counting as 0.  C fixes only the sign. *)
Fixpoint strcmp (a b : string) : Z :=
  match a, b with
  | EmptyString, EmptyString => 0
  | EmptyString, String d _ => 0 - code d
  | String c _, EmptyString => code c - 0
  | String c a', String d b' =>
      if Ascii.eqb c d then strcmp a' b' else code c - code d
  end.

Definition strlen (s : string) : Z := Z.of_nat (String.length s).

Lemma skip_while_le f s :
  (String.length (skip_while f s) <= String.length s)%nat.
Proof.
  induction s as [|c s IH]; simpl; [lia|].
  destruct (f c); simpl; lia.
Qed.

Lemma skip_while_lt f s :
  is_nil (span_while f s) = false ->
  (String.length (skip_while f s) < String.length s)%nat.
Proof.
  destruct s as [|c s]; simpl; [discriminate|].
  destruct (f c); simpl; [intros _|discriminate].
  pose proof (skip_while_le f s). lia.
Qed.

(** ** pkg.c: the version comparator *)

Module Version.

Definition is_zero_digit (c : ascii) : bool := Ascii.eqb c "0"%char.

(** One pass through the body of the [while ( *one && *two)] loop of
    [rpmvercmp], the test of the loop and the code after the loop included:
    either the function returns, or the loop goes round with new [one] and
    [two]. *)
Inductive step := Return (rc : Z) | Again (one two : string).

Definition rpmvercmp_step (one two : string) : step :=
  if is_nil one || is_nil two then
    (* the loop is left *)
    if is_nil one && is_nil two then Return 0
    else if is_nil one then Return (-1) else Return 1
  else
    let one := skip_while (fun c => negb (isalnum c)) one in
    let two := skip_while (fun c => negb (isalnum c)) two in
    let isnum := isdigit (peek one) in
    let cls := if isnum then isdigit else isalpha in
    (* the segments from one to str1 and from two to str2 *)
    let seg1 := span_while cls one in
    let str1 := skip_while cls one in
    let seg2 := span_while cls two in
    let str2 := skip_while cls two in
    if is_nil seg1 then Return (-1)
    else if is_nil seg2 then Return (-1)
    else
      let seg1 := if isnum then skip_while is_zero_digit seg1 else seg1 in
      let seg2 := if isnum then skip_while is_zero_digit seg2 else seg2 in
      if isnum && (strlen seg2 <? strlen seg1) then Return 1
      else if isnum && (strlen seg1 <? strlen seg2) then Return (-1)
      else
        let rc := strcmp seg1 seg2 in
        if negb (rc =? 0) then Return rc
        else Again str1 str2.

Lemma rpmvercmp_step_Again one two str1 str2 :
  rpmvercmp_step one two = Again str1 str2 ->
  (String.length str1 < String.length one)%nat.
Proof.
  unfold rpmvercmp_step. intros H.
  repeat match type of H with
         | (if ?c then _ else _) = _ => destruct c eqn:?; try discriminate
         end.
  inversion H; subst.
  eapply Nat.lt_le_trans; [apply skip_while_lt; eassumption|].
  apply skip_while_le.
Qed.

Function rpmvercmp_loop (one two : string) {measure String.length one}
    : Z :=
  match rpmvercmp_step one two with
  | Return rc => rc
  | Again str1 str2 => rpmvercmp_loop str1 str2
  end.
Proof.
  intros one two str1 str2 H. exact (rpmvercmp_step_Again _ _ _ _ H).
Defined.

Definition rpmvercmp (a b : string) : Z :=
  if strcmp a b =? 0 then 0 else rpmvercmp_loop a b.

Definition compare_versions (a b : string) : Z := rpmvercmp a b.

Inductive ComparisonType :=
  | LESS_THAN | GREATER_THAN | LESS_THAN_EQUAL | GREATER_THAN_EQUAL
  | EQUAL | NOT_EQUAL | ALWAYS_MATCH.

Definition version_test (comparison : ComparisonType) (a b : string) : bool :=
  match comparison with
  | LESS_THAN => compare_versions a b <? 0
  | GREATER_THAN => compare_versions a b >? 0
  | LESS_THAN_EQUAL => compare_versions a b <=? 0
  | GREATER_THAN_EQUAL => compare_versions a b >=? 0
  | EQUAL => compare_versions a b =? 0
  | NOT_EQUAL => negb (compare_versions a b =? 0)
  | ALWAYS_MATCH => true
  end.

Definition comparison_to_str (comparison : ComparisonType) : string :=
  match comparison with
  | LESS_THAN => "<"
  | GREATER_THAN => ">"
  | LESS_THAN_EQUAL => "<="
  | GREATER_THAN_EQUAL => ">="
  | EQUAL => "="
  | NOT_EQUAL => "!="
  | ALWAYS_MATCH => "(any)"
  end.

End Version.


(** ** Diagnostics and process exit

    [verbose_error] appends to the error sink; [exit (1)] ends the run;
    a failed [g_assert] or a dereferenced NULL ends it with [Aborted]. *)

Inductive outcome (A : Type) : Type :=
  | Done (a : A)
  | Exited
  | Aborted.
Arguments Done {A} a.
Arguments Exited {A}.
Arguments Aborted {A}.

Definition Exec (D A : Type) : Type := (list D * outcome A)%type.

#[global] Instance exec_ret {D} : MRet (Exec D) := fun A a => ([], Done a).

#[global] Instance exec_bind {D} : MBind (Exec D) := fun A B f m =>
  match m with
  | (log, Done a) => let '(log', r) := f a in (log ++ log', r)
  | (log, Exited) => (log, Exited)
  | (log, Aborted) => (log, Aborted)
  end.

Definition verbose_error {D} (d : D) : Exec D unit := ([d], Done tt).
Definition exit1 {D A} : Exec D A := ([], Exited).
Definition abort {D A} : Exec D A := ([], Aborted).

(** ** Structures shared by pkg.c and parse.c *)

(** [owner] is a back pointer to the declaring package in the source, read
    only to print a diagnostic; here it is that package's key. *)
Record RequiredVersion := mkRequiredVersion {
  rv_name : string;
  comparison : Version.ComparisonType;
  rv_version : option string;
  owner : option string
}.

(** The lookup of [package_get_var], on the two tables and the directory
    it reads: the globals first, then the variables of the package, then
    the magic pcfiledir. *)
Definition lookup_var (globals vars : option (gmap string string))
    (pcfiledir : option string) (var : string) : option string :=
  let varval :=
    match globals with
    | Some g => g !! var
    | None => None
    end in
  let varval :=
    match varval, vars with
    | None, Some v => v !! var
    | _, _ => varval
    end in
  match varval, pcfiledir with
  | None, Some dir => if strcmp var "pcfiledir" =? 0 then Some dir else None
  | _, _ => varval
  end.

(** ** pkg.c *)

Module Pkg.
Import Version.

(** The fields of [Package] that pkg.c reads.  A [char *] or table that may
    be NULL is an [option].  [requires] holds pointers to packages that were
    loaded before: [internal_get_package] registers a package only after its
    descriptor is parsed and verified, so what is reachable through
    [requires] is a finite tree. *)
#[warnings="-register-all"] Inductive Package : Type := mkPackage {
  key : option string;
  name : option string;
  version : option string;
  description : option string;
  requires : list Package;
  required_versions : option (gmap string RequiredVersion);
  conflicts : list RequiredVersion;
  l_libs : list string;
  L_libs : list string;
  I_cflags : list string;
  other_libs : option string;
  other_cflags : option string;
  vars : option (gmap string string);
  pcfiledir : option string;
  uninstalled : bool;
  l_libs_merged : option string;
  L_libs_merged : option string;
  I_cflags_merged : option string
}.

Inductive Diag :=
  | NoKey
  | NoNameField (pkg : Package)
  | NoVersionField (pkg : Package)
  | NoDescriptionField (pkg : Package)
  | RequiresMismatch (pkg req : Package) (ver : RequiredVersion)
  | CreatesConflict (req : Package) (ver : RequiredVersion)
  | PackageNotFound (name : string)
  | FailedToOpen (path : string)
  | DefinedTwiceGlobally (varname : string).

Abbreviation M := (Exec Diag).

Definition ends_in_dotpc (str : string) : bool :=
  let len := String.length str in
  (3 <? Z.of_nat len) &&
  String.eqb (String.substring (len - 3) 3 str) ".pc".

Definition name_ends_in_uninstalled (str : string) : bool :=
  let len := String.length str in
  (11 <? Z.of_nat len) &&
  (strcmp (String.substring (len - 11) 11 str) "uninstalled" =? 0).

(** *** De-duplication and emission *)

(** The loop shared by the two strip functions: [table] is the hash table
    of the strings seen, [nodups] grows by prepending. *)
Fixpoint strip_loop (tmp : list string) (table : gmap string string)
    (nodups : list string) : list string :=
  match tmp with
  | [] => nodups
  | data :: tmp' =>
      match table !! data with
      | None => strip_loop tmp' (<[data := data]> table) (data :: nodups)
      | Some _ => strip_loop tmp' table nodups
      end
  end.

Definition string_list_strip_duplicates (l : list string) : list string :=
  rev (strip_loop l ∅ []).

Definition string_list_strip_duplicates_from_back (l : list string)
    : list string :=
  let reversed := rev l in
  strip_loop reversed ∅ [].

Definition string_list_to_string (l : list string) : string :=
  fold_left (fun str data => (str +:+ data) +:+ " ") l "".

Definition get_l_libs (pkg : Package) := l_libs pkg.
Definition get_L_libs (pkg : Package) := L_libs pkg.
Definition get_I_cflags (pkg : Package) := I_cflags pkg.
Definition get_conflicts (pkg : Package) := conflicts pkg.
Definition get_requires (pkg : Package) := requires pkg.

(** [recursive_fill_list pkg func listp], returning the new [*listp]. *)
Fixpoint recursive_fill_list {A} (pkg : Package) (func : Package -> list A)
    (listp : list A) : list A :=
  let copy := func pkg in
  let listp := listp ++ copy in
  fold_left (fun listp req => recursive_fill_list req func listp)
            (requires pkg) listp.

(** *** Verification *)

(** [version_test] as [verify_package] calls it, on pointers: the strings
    are read unless the comparison is [ALWAYS_MATCH]. *)
Definition version_test_ptr (c : ComparisonType) (a b : option string)
    : M bool :=
  match c, a, b with
  | ALWAYS_MATCH, _, _ => mret true
  | _, Some a, Some b => mret (version_test c a b)
  | _, _, _ => abort
  end.

Fixpoint verify_requires (pkg : Package) (iter : list Package) : M unit :=
  match iter with
  | [] => mret tt
  | req :: iter' =>
      ver ← match required_versions pkg, key req with
            | Some tbl, Some k => mret (tbl !! k)
            | Some _, None => abort
            | None, _ => mret None
            end;
      match ver with
      | Some ver =>
          ok ← version_test_ptr (comparison ver) (version req) (rv_version ver);
          if negb ok
          then verbose_error (RequiresMismatch pkg req ver) ;; exit1
          else verify_requires pkg iter'
      | None => verify_requires pkg iter'
      end
  end.

Fixpoint verify_conflicts_inner (req : Package)
    (conflicts_iter : list RequiredVersion) : M unit :=
  match conflicts_iter with
  | [] => mret tt
  | ver :: conflicts_iter' =>
      hit ← version_test_ptr (comparison ver) (version req) (rv_version ver);
      if (hit : bool)
      then verbose_error (CreatesConflict req ver) ;; exit1
      else verify_conflicts_inner req conflicts_iter'
  end.

Fixpoint verify_conflicts (requires_iter : list Package)
    (conflicts : list RequiredVersion) : M unit :=
  match requires_iter with
  | [] => mret tt
  | req :: requires_iter' =>
      verify_conflicts_inner req conflicts ;;
      verify_conflicts requires_iter' conflicts
  end.

Definition verify_package (pkg : Package) : M unit :=
  if negb (bool_decide (is_Some (key pkg))) then
    verbose_error NoKey ;; exit1
  else if negb (bool_decide (is_Some (name pkg))) then
    verbose_error (NoNameField pkg) ;; exit1
  else if negb (bool_decide (is_Some (version pkg))) then
    verbose_error (NoVersionField pkg) ;; exit1
  else if negb (bool_decide (is_Some (description pkg))) then
    verbose_error (NoDescriptionField pkg) ;; exit1
  else
    verify_requires pkg (requires pkg) ;;
    let requires := recursive_fill_list pkg get_requires [] in
    let conflicts := recursive_fill_list pkg get_conflicts [] in
    verify_conflicts requires conflicts.

(** *** Merged output *)

Definition get_merged (pkg : Package) (func : Package -> list string)
    : string :=
  let dups_list := recursive_fill_list pkg func [] in
  let list := string_list_strip_duplicates dups_list in
  string_list_to_string list.

Definition get_merged_from_back (pkg : Package)
    (func : Package -> list string) : string :=
  let dups_list := recursive_fill_list pkg func [] in
  let list := string_list_strip_duplicates_from_back dups_list in
  string_list_to_string list.

Definition get_multi_merged (pkgs : list Package)
    (func : Package -> list string) : string :=
  let dups_list :=
    fold_left (fun dups_list pkg => recursive_fill_list pkg func dups_list)
              pkgs [] in
  let list := string_list_strip_duplicates dups_list in
  string_list_to_string list.

Definition get_multi_merged_from_back (pkgs : list Package)
    (func : Package -> list string) : string :=
  let dups_list :=
    fold_left (fun dups_list pkg => recursive_fill_list pkg func dups_list)
              pkgs [] in
  let list := string_list_strip_duplicates_from_back dups_list in
  string_list_to_string list.

Definition set_l_libs_merged (pkg : Package) (s : string) : Package :=
  mkPackage (key pkg) (name pkg) (version pkg) (description pkg)
    (requires pkg) (required_versions pkg) (conflicts pkg) (l_libs pkg)
    (L_libs pkg) (I_cflags pkg) (other_libs pkg) (other_cflags pkg)
    (vars pkg) (pcfiledir pkg) (uninstalled pkg)
    (Some s) (L_libs_merged pkg) (I_cflags_merged pkg).

Definition set_L_libs_merged (pkg : Package) (s : string) : Package :=
  mkPackage (key pkg) (name pkg) (version pkg) (description pkg)
    (requires pkg) (required_versions pkg) (conflicts pkg) (l_libs pkg)
    (L_libs pkg) (I_cflags pkg) (other_libs pkg) (other_cflags pkg)
    (vars pkg) (pcfiledir pkg) (uninstalled pkg)
    (l_libs_merged pkg) (Some s) (I_cflags_merged pkg).

Definition set_I_cflags_merged (pkg : Package) (s : string) : Package :=
  mkPackage (key pkg) (name pkg) (version pkg) (description pkg)
    (requires pkg) (required_versions pkg) (conflicts pkg) (l_libs pkg)
    (L_libs pkg) (I_cflags pkg) (other_libs pkg) (other_cflags pkg)
    (vars pkg) (pcfiledir pkg) (uninstalled pkg)
    (l_libs_merged pkg) (L_libs_merged pkg) (Some s).

(** The single-package accessors fill the cache of the package on the
    first call; they return the string and the package as it is after. *)
Definition package_get_l_libs (pkg : Package) : string * Package :=
  match l_libs_merged pkg with
  | None =>
      let s := get_merged_from_back pkg get_l_libs in
      (s, set_l_libs_merged pkg s)
  | Some s => (s, pkg)
  end.

Definition packages_get_l_libs (pkgs : list Package) : string :=
  get_multi_merged_from_back pkgs get_l_libs.

Definition package_get_L_libs (pkg : Package) : string * Package :=
  match L_libs_merged pkg with
  | None =>
      let s := get_merged pkg get_L_libs in
      (s, set_L_libs_merged pkg s)
  | Some s => (s, pkg)
  end.

Definition packages_get_L_libs (pkgs : list Package) : string :=
  get_multi_merged pkgs get_L_libs.

Definition packages_get_other_libs (pkgs : list Package) : string :=
  fold_left (fun str pkg =>
               match other_libs pkg with
               | Some o => (str +:+ o) +:+ " "
               | None => str
               end) pkgs "".

Definition packages_get_all_libs (pkgs : list Package) : string :=
  let other_libs := packages_get_other_libs pkgs in
  let L_libs := packages_get_L_libs pkgs in
  let l_libs := packages_get_l_libs pkgs in
  (("" +:+ other_libs) +:+ L_libs) +:+ l_libs.

Definition package_get_I_cflags (pkg : Package) : string * Package :=
  match I_cflags_merged pkg with
  | None =>
      let s := get_merged pkg get_I_cflags in
      (s, set_I_cflags_merged pkg s)
  | Some s => (s, pkg)
  end.

Definition packages_get_I_cflags (pkgs : list Package) : string :=
  get_multi_merged pkgs get_I_cflags.

Definition packages_get_other_cflags (pkgs : list Package) : string :=
  fold_left (fun str pkg =>
               match other_cflags pkg with
               | Some o => (str +:+ o) +:+ " "
               | None => str
               end) pkgs "".

Definition packages_get_all_cflags (pkgs : list Package) : string :=
  let other_cflags := packages_get_other_cflags pkgs in
  let I_cflags := packages_get_I_cflags pkgs in
  ("" +:+ other_cflags) +:+ I_cflags.

(** *** Variables *)

Definition package_get_var (globals : option (gmap string string))
    (pkg : Package) (var : string) : option string :=
  lookup_var globals (vars pkg) (pcfiledir pkg) var.

(** The buffer of [packages_get_var] when the loop over [pkgs] is done. *)
Definition packages_get_var_buffer (globals : option (gmap string string))
    (pkgs : list Package) (varname : string) : string :=
  fold_left (fun str pkg =>
               match package_get_var globals pkg varname with
               | Some var => (str +:+ var) +:+ " "
               | None => str
               end) pkgs "".

(** The index of the byte that [packages_get_var] overwrites with NUL,
    [str->len - 1], as an offset from [str->str].  [str->len] is an
    unsigned [gsize]: for a length of 0 the subtraction wraps to the largest
    [gsize], and the address computed from it is the byte before the
    buffer, offset -1. *)
Definition chop_index (str : string) : Z := strlen str - 1.

(** A [GString] of length [len] owns the bytes at offsets 0 to [len], the
    last one being the terminator. *)
Definition in_bounds (str : string) (i : Z) : bool :=
  (0 <=? i) && (i <=? strlen str).

(** [packages_get_var]: the string returned, or [Aborted] for a write
    outside the buffer. *)
Definition packages_get_var (globals : option (gmap string string))
    (pkgs : list Package) (varname : string) : M string :=
  let str := packages_get_var_buffer globals pkgs varname in
  let i := chop_index str in
  if in_bounds str i
  then mret (String.substring 0 (Z.to_nat i) str)
  else abort.

(** *** The registry: search path, locations, loaded packages *)

Record Registry := mkRegistry {
  packages : gmap string Package;
  locations : gmap string string;
  globals : option (gmap string string);
  search_dirs : list string;
  initted : bool
}.

Definition empty_registry : Registry := mkRegistry ∅ ∅ None [] false.

Definition add_search_dir (st : Registry) (path : string) : Registry :=
  mkRegistry (packages st) (locations st) (globals st)
    (path :: search_dirs st) (initted st).

Definition define_global_variable (st : Registry) (varname varval : string)
    : M Registry :=
  let g := default ∅ (globals st) in
  match g !! varname with
  | Some _ => verbose_error (DefinedTwiceGlobally varname) ;; exit1
  | None =>
      mret (mkRegistry (packages st) (locations st)
              (Some (<[varname := varval]> g)) (search_dirs st) (initted st))
  end.

Section Environment.

(** The file system as [opendir]/[readdir] show it: the entry names of a
    directory in the order [readdir] yields them, [None] for a directory
    that cannot be opened. *)
Variable readdir : string -> option (list string).
(** The compiled-in default directory. *)
Variable PKGLIBDIR : string.
Variable disable_uninstalled : bool.
(** The parser of the descriptor at a path, NULL for a file that cannot be
    read; it may load other packages into the registry. *)
Variable parse_package_file :
  Registry -> string -> M (option Package * Registry).
(** The fallback to legacy -config scripts. *)
Variable get_compat_package : string -> option Package.

Definition scan_entry (dirname : string) (dirnamelen : nat)
    (locations : gmap string string) (d_name : string)
    : gmap string string :=
  let len := String.length d_name in
  if ends_in_dotpc d_name then
    let pkgname := String.substring 0 (len - 3) d_name in
    match locations !! pkgname with
    | Some _ => locations
    | None =>
        let filename :=
          (String.substring 0 dirnamelen dirname +:+ "/") +:+ d_name in
        <[pkgname := filename]> locations
    end
  else locations.

Definition scan_dir (dirname : string) (locations : gmap string string)
    : gmap string string :=
  let dirnamelen := String.length dirname in
  let dirnamelen :=
    if (0 <? dirnamelen)%nat &&
       bool_decide (String.get (dirnamelen - 1) dirname = Some "/"%char)
    then (dirnamelen - 1)%nat else dirnamelen in
  match readdir dirname with
  | None => locations
  | Some entries => fold_left (scan_entry dirname dirnamelen) entries locations
  end.

Definition package_init (st : Registry) : Registry :=
  if initted st then st
  else
    let locations := fold_left (fun locs d => scan_dir d locs)
                               (search_dirs st) ∅ in
    let locations := scan_dir PKGLIBDIR locations in
    mkRegistry ∅ locations (globals st) (search_dirs st) true.

(** [while (start != name && *start != '/') --start], on indices. *)
Fixpoint key_start (name : string) (start : nat) : nat :=
  match start with
  | O => O
  | S start' =>
      if bool_decide (String.get start name = Some "/"%char) then start
      else key_start name start'
  end.

Definition set_key_uninstalled (pkg : Package) (k : string) (u : bool)
    : Package :=
  mkPackage (Some k) (name pkg) (version pkg) (description pkg)
    (requires pkg) (required_versions pkg) (conflicts pkg) (l_libs pkg)
    (L_libs pkg) (I_cflags pkg) (other_libs pkg) (other_cflags pkg)
    (vars pkg) (pcfiledir pkg) u
    (l_libs_merged pkg) (L_libs_merged pkg) (I_cflags_merged pkg).

Definition insert_package (st : Registry) (k : string) (pkg : Package)
    : Registry :=
  mkRegistry (<[k := pkg]> (packages st)) (locations st) (globals st)
    (search_dirs st) (initted st).

(** What [internal_get_package] does once [location] is known. *)
Definition load_package (st : Registry) (name : string)
    (location : option string) (direct warn check_compat : bool)
    : M (option Package * Registry) :=
  match (if check_compat then
           match location with
           | None => get_compat_package name
           | Some _ => None
           end
         else None) with
  | Some pkg => mret (Some pkg, st)
  | None =>
      match location with
      | None =>
          (if warn then verbose_error (PackageNotFound name) else mret tt) ;;
          mret (None, st)
      | Some location =>
          '(parsed, st) ← parse_package_file st location;
          match parsed with
          | None => mret (None, st)
          | Some pkg =>
              let u :=
                if bool_decide (is_Some (String.index 0 "uninstalled.pc" location))
                then true else uninstalled pkg in
              let k :=
                if negb direct then name
                else
                  let len := String.length name in
                  let e := (len - 3)%nat in
                  let start := key_start name e in
                  String.substring start (e - start) name in
              let pkg := set_key_uninstalled pkg k u in
              verify_package pkg ;;
              mret (Some pkg, insert_package st k pkg)
          end
      end
  end.

(** [depth] bounds the nesting of the calls; the call for the uninstalled
    variant does not call again, so 2 is enough
    ([internal_get_package_depth]). *)
Fixpoint internal_get_package (depth : nat) (st : Registry) (name : string)
    (warn check_compat : bool) : M (option Package * Registry) :=
  match depth with
  | O => abort
  | S depth' =>
      match packages st !! name with
      | Some pkg => mret (Some pkg, st)
      | None =>
          if ends_in_dotpc name then
            load_package st name (Some name) true warn check_compat
          else
            '(pkg, st) ←
              (if negb disable_uninstalled &&
                  negb (name_ends_in_uninstalled name)
               then internal_get_package depth' st (name +:+ "-uninstalled")
                      false false
               else mret (None, st));
            match pkg with
            | Some pkg => mret (Some pkg, st)
            | None =>
                load_package st name (locations st !! name) false
                  warn check_compat
            end
      end
  end.

Definition get_package (st : Registry) (name : string)
    : M (option Package * Registry) :=
  internal_get_package 2 st name true true.

End Environment.

End Pkg.

(** ** parse.c *)

Module Parse.
Import Version.

Definition CR : ascii := "013"%char.
Definition LF : ascii := "010"%char.

Definition append_c (str : string) (c : ascii) : string :=
  str +:+ String c "".

(** *** The line reader *)

(** [stream] is what is left to read; [getc] takes its first byte, and the
    one-byte lookahead either takes the next one too or puts it back. *)
Definition after_lookahead (c : ascii) (stream : string) : string :=
  match stream with
  | EmptyString => stream
  | String next_c stream' =>
      if (Ascii.eqb c CR && Ascii.eqb next_c LF) ||
         (Ascii.eqb c LF && Ascii.eqb next_c CR)
      then stream' else stream
  end.

(** The loop of [read_one_line]: the value returned, the line in the
    buffer, the stream left. *)
Fixpoint read_loop (stream : string) (quoted comment : bool) (n_read : Z)
    (str : string) : bool * string * string :=
  match stream with
  | EmptyString =>
      (0 <? n_read, if quoted then append_c str "\"%char else str, stream)
  | String c stream' =>
      let n_read := n_read + 1 in
      if quoted then
        if Ascii.eqb c "#"%char then
          read_loop stream' false comment n_read (append_c str "#"%char)
        else if Ascii.eqb c CR || Ascii.eqb c LF then
          match stream' with
          | EmptyString => read_loop stream' false comment n_read str
          | String next_c stream'' =>
              if (Ascii.eqb c CR && Ascii.eqb next_c LF) ||
                 (Ascii.eqb c LF && Ascii.eqb next_c CR)
              then read_loop stream'' false comment n_read str
              else read_loop stream' false comment n_read str
          end
        else
          read_loop stream' false comment n_read
            (append_c (append_c str "\"%char) c)
      else
        if Ascii.eqb c "#"%char then
          read_loop stream' false true n_read str
        else if Ascii.eqb c "\"%char then
          read_loop stream' (if comment then false else true) comment
            n_read str
        else if Ascii.eqb c LF then
          (0 <? n_read, str, after_lookahead c stream')
        else
          read_loop stream' false comment n_read
            (if comment then str else append_c str c)
  end.

Definition read_one_line (stream : string) : bool * string * string :=
  read_loop stream false false 0 "".

Lemma after_lookahead_le c stream :
  (String.length (after_lookahead c stream) <= String.length stream)%nat.
Proof.
  destruct stream as [|d stream]; simpl; [lia|].
  destruct (_ || _); simpl; lia.
Qed.

Lemma read_loop_rest stream quoted comment n_read str b line rest :
  read_loop stream quoted comment n_read str = (b, line, rest) ->
  (String.length rest <= String.length stream)%nat.
Proof.
  remember (String.length stream) as k eqn:Hk.
  revert stream Hk quoted comment n_read str.
  induction k as [k IH] using lt_wf_ind.
  intros [|c stream] Hk quoted comment n_read str; simpl.
  - intros H. inversion H. simpl. lia.
  - simpl in Hk.
    assert (R : forall s q c' n' t,
               (String.length s < k)%nat ->
               read_loop s q c' n' t = (b, line, rest) ->
               (String.length rest <= String.length s)%nat).
    { intros s q c' n' t Hs H. eapply (IH _ Hs s eq_refl). exact H. }
    destruct quoted.
    + destruct (Ascii.eqb c "#"%char).
      { intros H. apply R in H; lia. }
      destruct (Ascii.eqb c CR || Ascii.eqb c LF).
      * destruct stream as [|d stream].
        { intros H. apply R in H; simpl in *; lia. }
        destruct (_ || _); intros H; apply R in H; simpl in *; lia.
      * intros H. apply R in H; lia.
    + destruct (Ascii.eqb c "#"%char).
      { intros H. apply R in H; lia. }
      destruct (Ascii.eqb c "\"%char).
      { intros H. apply R in H; lia. }
      destruct (Ascii.eqb c LF).
      * intros H. inversion H.
        pose proof (after_lookahead_le c stream). lia.
      * intros H. apply R in H; lia.
Qed.

Lemma read_one_line_consumes stream line rest :
  read_one_line stream = (true, line, rest) ->
  (String.length rest < String.length stream)%nat.
Proof.
  unfold read_one_line. destruct stream as [|c stream]; simpl.
  - intros H. inversion H.
  - destruct (Ascii.eqb c "#"%char).
    { intros H. apply read_loop_rest in H. lia. }
    destruct (Ascii.eqb c "\"%char).
    { intros H. apply read_loop_rest in H. lia. }
    destruct (Ascii.eqb c LF).
    + intros H. inversion H.
      pose proof (after_lookahead_le c stream). lia.
    + intros H. apply read_loop_rest in H. lia.
Qed.

(** *** Trimming and substitution *)

Definition char_at (str : string) (i : nat) : ascii :=
  default zero (String.get i str).

(** [while (len > 0 && isspace (str[len-1])) len--]. *)
Fixpoint trimmed_len (str : string) (len : nat) : nat :=
  match len with
  | O => O
  | S len' => if isspace (char_at str len') then trimmed_len str len' else len
  end.

Definition trim_string (str : string) : string :=
  let str := skip_while isspace str in
  let len := trimmed_len str (String.length str) in
  String.substring 0 len str.

Inductive Flag_type := CFLAGS_I | CFLAGS_OTHER | LIBS_l | LIBS_L | LIBS_OTHER.

Record Flag := mkFlag { type : Flag_type; arg : string }.

(** The fields of [Package] that parse.c reads and writes.  The lists grow
    by prepending while the lines are parsed. *)
Record Package := mkPackage {
  key : option string;
  pcfiledir : string;
  vars : gmap string string;
  name : option string;
  version : option string;
  description : option string;
  url : option string;
  requires_entries : list RequiredVersion;
  requires_private_entries : list RequiredVersion;
  conflicts : list RequiredVersion;
  cflags : list Flag;
  libs : list Flag;
  libs_private : list Flag;
  orig_prefix : option string
}.

Inductive Diag :=
  | VariableNotDefined (varname path : string)
  | FieldOccursTwice (field path : string)
  | UnknownOperator (op name path : string)
  | NoVersionAfterOperator (name path : string)
  | CannotParseArgv (field : string)
  | DuplicateVariable (tag path : string)
  | FailedToOpen (path : string)
  | EmptyFile (path : string).

Abbreviation M := (Exec Diag).

Record Config := mkConfig {
  parse_strict : bool;
  define_prefix : bool;
  prefix_variable : string;
  (** G_OS_WIN32 and [msvc_syntax] *)
  msvc_syntax : bool
}.

Section Parser.

Variable cfg : Config.
(** The table of [define_global_variable], which [package_get_var] reads. *)
Variable globals : option (gmap string string).
(** GLib: the shell-style splitter (NULL for a string it cannot split) and
    the path functions. *)
Variable g_shell_parse_argv : string -> option (list string).
Variable g_path_get_basename : string -> string.
Variable g_path_get_dirname : string -> string.
(** [fopen] and the bytes of the file, [None] for a file that cannot be
    opened. *)
Variable read_file : string -> option string.

Definition package_get_var (pkg : Package) (var : string) : option string :=
  lookup_var globals (Some (vars pkg)) (Some (pcfiledir pkg)) var.

(** The loop of [trim_and_sub] over the trimmed string.  [var] is [None]
    between variables; inside [${...}] it holds the bytes of the name read
    so far, the inner loop of the source looking for the closing brace
    being merged into the outer one.  A name that is not closed makes the
    source step over the terminator of the string. *)
Fixpoint trim_and_sub_loop (pkg : Package) (path : string) (p : string)
    (var : option string) (subst : string) : M string :=
  match p with
  | EmptyString =>
      match var with
      | None => mret subst
      | Some varname =>
          match package_get_var pkg varname with
          | Some _ => abort
          | None =>
              verbose_error (VariableNotDefined varname path) ;;
              if parse_strict cfg then exit1 else abort
          end
      end
  | String c p' =>
      match var with
      | Some varname =>
          if Ascii.eqb c "}"%char then
            match package_get_var pkg varname with
            | Some varval =>
                trim_and_sub_loop pkg path p' None (subst +:+ varval)
            | None =>
                verbose_error (VariableNotDefined varname path) ;;
                if parse_strict cfg then exit1
                else trim_and_sub_loop pkg path p' None subst
            end
          else trim_and_sub_loop pkg path p' (Some (append_c varname c)) subst
      | None =>
          if Ascii.eqb c "$"%char && Ascii.eqb (peek p') "$"%char then
            match p' with
            | EmptyString => mret subst
            | String _ p'' =>
                trim_and_sub_loop pkg path p'' None (append_c subst "$"%char)
            end
          else if Ascii.eqb c "$"%char && Ascii.eqb (peek p') "{"%char then
            match p' with
            | EmptyString => mret subst
            | String _ p'' => trim_and_sub_loop pkg path p'' (Some "") subst
            end
          else trim_and_sub_loop pkg path p' None (append_c subst c)
      end
  end.

Definition trim_and_sub (pkg : Package) (str path : string) : M string :=
  let trimmed := trim_string str in
  trim_and_sub_loop pkg path trimmed None "".

(** *** Module lists *)

Definition MODULE_SEPARATOR (c : ascii) : bool :=
  Ascii.eqb c ","%char || isspace c.

Definition OPERATOR_CHAR (c : ascii) : bool :=
  Ascii.eqb c "<"%char || Ascii.eqb c ">"%char ||
  Ascii.eqb c "!"%char || Ascii.eqb c "="%char.

Inductive ModuleSplitState :=
  | OUTSIDE_MODULE | IN_MODULE_NAME | BEFORE_OPERATOR | IN_OPERATOR
  | AFTER_OPERATOR | IN_MODULE_VERSION.

Definition is_outside (s : ModuleSplitState) : bool :=
  match s with
  | OUTSIDE_MODULE => true
  | _ => false
  end.

(** The [switch] of [split_module_list] on the byte [c] under [p]: the new
    [state] and [start]; [rest] is the string from [p] on, for the
    lookahead.  [None] is the assertion that fails. *)
Definition split_switch (state : ModuleSplitState) (c : ascii)
    (rest : string) (p start : nat) : option (ModuleSplitState * nat) :=
  match state with
  | OUTSIDE_MODULE =>
      if negb (MODULE_SEPARATOR c) then Some (IN_MODULE_NAME, p)
      else Some (state, start)
  | IN_MODULE_NAME =>
      if isspace c then
        let s := skip_while isspace rest in
        if OPERATOR_CHAR (peek s) then Some (BEFORE_OPERATOR, start)
        else Some (OUTSIDE_MODULE, start)
      else if MODULE_SEPARATOR c then Some (OUTSIDE_MODULE, start)
      else Some (state, start)
  | BEFORE_OPERATOR =>
      if isspace c then Some (state, start)
      else if OPERATOR_CHAR c then Some (IN_OPERATOR, start)
      else None
  | IN_OPERATOR =>
      if negb (OPERATOR_CHAR c) then Some (AFTER_OPERATOR, start)
      else Some (state, start)
  | AFTER_OPERATOR =>
      if negb (isspace c) then Some (IN_MODULE_VERSION, start)
      else Some (state, start)
  | IN_MODULE_VERSION =>
      if MODULE_SEPARATOR c then Some (OUTSIDE_MODULE, start)
      else Some (state, start)
  end.

(** The loop of [split_module_list]; [p] and [start] are offsets into
    [str], [rest] is [str] from [p] on, [retval] grows by prepending. *)
Fixpoint split_loop (str rest : string) (p start : nat)
    (state last_state : ModuleSplitState) (retval : list string)
    : M (list string) :=
  match rest with
  | EmptyString =>
      let retval :=
        if negb (is_outside state)
        then String.substring start (p - start) str :: retval
        else retval in
      mret (rev retval)
  | String c rest' =>
      match split_switch state c rest p start with
      | None => abort
      | Some (state, start) =>
          if is_outside state && negb (is_outside last_state) then
            (* we left a module *)
            let module := String.substring start (p - start) str in
            split_loop str rest' (S p) p state state (module :: retval)
          else
            split_loop str rest' (S p) start state state retval
      end
  end.

Definition split_module_list (str path : string) : M (list string) :=
  split_loop str str 0 0 OUTSIDE_MODULE OUTSIDE_MODULE [].

Definition is_always_match (c : ComparisonType) : bool :=
  match c with
  | ALWAYS_MATCH => true
  | _ => false
  end.

Definition not_space (c : ascii) : bool := negb (isspace c).
Definition not_separator (c : ascii) : bool := negb (MODULE_SEPARATOR c).

Definition comparison_of_operator (op : string) : option ComparisonType :=
  if strcmp op "=" =? 0 then Some EQUAL
  else if strcmp op ">=" =? 0 then Some GREATER_THAN_EQUAL
  else if strcmp op "<=" =? 0 then Some LESS_THAN_EQUAL
  else if strcmp op ">" =? 0 then Some GREATER_THAN
  else if strcmp op "<" =? 0 then Some LESS_THAN
  else if strcmp op "!=" =? 0 then Some NOT_EQUAL
  else None.

(** The first two tokens of an entry of the split list, as the loop of
    [do_parse_module_list] cuts them at white space. *)
Definition module_name (item : string) : string :=
  span_while not_space item.

Definition operator_token (item : string) : string :=
  span_while not_space (skip_while isspace (skip_while not_space item)).

(** The third token, cut at a separator. *)
Definition version_token (item : string) : string :=
  span_while not_separator
    (skip_while isspace
       (skip_while not_space
          (skip_while isspace (skip_while not_space item)))).

(** One pass through the body of the [for] loop of [do_parse_module_list]
    for the string [item] of the split list: the [RequiredVersion] that the
    pass allocates and prepends to the list before it parses anything, as
    it is when the pass ends ([continue] included).  The source ends each
    token by writing NUL over the white space (or the separators) that
    follow it, and then tests the first byte of the token: the test finds
    NUL exactly when the token is empty. *)
Definition parse_module_entry (pkg : Package) (path item : string)
    : M RequiredVersion :=
  let ver := mkRequiredVersion "" ALWAYS_MATCH None (key pkg) in
  let name := module_name item in
  if is_nil name then abort
  else
    let ver :=
      mkRequiredVersion name (comparison ver) (rv_version ver) (owner ver) in
    let op := operator_token item in
    let known :=
      if negb (is_nil op) then comparison_of_operator op
      else Some (comparison ver) in
    match known with
    | None =>
        verbose_error (UnknownOperator op (rv_name ver) path) ;;
        if parse_strict cfg then exit1 else mret ver
    | Some c =>
        let ver :=
          mkRequiredVersion (rv_name ver) c (rv_version ver) (owner ver) in
        let version := version_token item in
        if negb (is_always_match (comparison ver)) && is_nil version
        then
          verbose_error (NoVersionAfterOperator (rv_name ver) path) ;;
          if parse_strict cfg then exit1
          else mret (mkRequiredVersion (rv_name ver) (comparison ver)
                       (Some "0") (owner ver))
        else if negb (is_nil version) then
          mret (mkRequiredVersion (rv_name ver) (comparison ver)
                  (Some version) (owner ver))
        else mret ver
    end.

Fixpoint parse_module_entries (pkg : Package) (path : string)
    (iter : list string) (listp : list RequiredVersion)
    : M (list RequiredVersion) :=
  match iter with
  | [] => mret listp
  | item :: iter' =>
      ver ← parse_module_entry pkg path item;
      parse_module_entries pkg path iter' (ver :: listp)
  end.

Definition do_parse_module_list (pkg : Package)
    (listp : list RequiredVersion) (str path : string)
    : M (list RequiredVersion) :=
  split ← split_module_list str path;
  parse_module_entries pkg path split listp.

Definition parse_module_list (pkg : Package) (str path : string)
    : M (list RequiredVersion) :=
  list ← do_parse_module_list pkg [] str path;
  mret (rev list).

Definition parse_deps (pkg : Package) (listp : list RequiredVersion)
    (str path : string) : M (list RequiredVersion) :=
  trimmed ← trim_and_sub pkg str path;
  do_parse_module_list pkg listp trimmed path.

(** *** Flags *)

Definition needs_escape (c : ascii) : bool :=
  let s0 := code c in
  (s0 <? 36) ||
  ((36 <? s0) && (s0 <? 40)) ||
  ((41 <? s0) && (s0 <? 43)) ||
  ((58 <? s0) && (s0 <? 61)) ||
  ((61 <? s0) && (s0 <? 64)) ||
  ((90 <? s0) && (s0 <? 94)) ||
  (s0 =? 96) ||
  ((122 <? s0) && (s0 <? 126)) ||
  (126 <? s0).

Fixpoint strdup_escape_shell (s : string) : string :=
  match s with
  | EmptyString => EmptyString
  | String c s' =>
      if needs_escape c
      then String "\"%char (String c (strdup_escape_shell s'))
      else String c (strdup_escape_shell s')
  end.

(** [p += n] *)
Fixpoint advance (n : nat) (p : string) : string :=
  match n, p with
  | O, _ => p
  | S n', String _ p' => advance n' p'
  | S _, EmptyString => EmptyString
  end.

Definition L_flag : string := if msvc_syntax cfg then "/libpath:" else "-L".
Definition l_flag : string := if msvc_syntax cfg then "" else "-l".
Definition lib_suffix : string := if msvc_syntax cfg then ".lib" else "".

Fixpoint do_parse_libs (listp : list Flag) (argv : list string)
    : list Flag :=
  match argv with
  | [] => listp
  | argv_i :: argv' =>
      let tmp := trim_string argv_i in
      let arg := strdup_escape_shell tmp in
      let p := arg in
      if Ascii.eqb (char_at p 0) "-"%char &&
         Ascii.eqb (char_at p 1) "l"%char &&
         negb (String.prefix "-lib:" p)
      then
        let p := skip_while isspace (advance 2 p) in
        do_parse_libs (mkFlag LIBS_l ((l_flag +:+ p) +:+ lib_suffix) :: listp)
          argv'
      else if Ascii.eqb (char_at p 0) "-"%char &&
              Ascii.eqb (char_at p 1) "L"%char
      then
        let p := skip_while isspace (advance 2 p) in
        do_parse_libs (mkFlag LIBS_L (L_flag +:+ p) :: listp) argv'
      else
        match argv' with
        | argv_i1 :: argv'' =>
            if (strcmp "-framework" p =? 0) ||
               (strcmp "-Wl,-framework" p =? 0)
            then
              let framework := strdup_escape_shell (trim_string argv_i1) in
              do_parse_libs
                (mkFlag LIBS_OTHER ((arg +:+ " ") +:+ framework) :: listp)
                argv''
            else if negb (is_nil arg)
            then do_parse_libs (mkFlag LIBS_OTHER arg :: listp) argv'
            else do_parse_libs listp argv'
        | [] =>
            if negb (is_nil arg)
            then do_parse_libs (mkFlag LIBS_OTHER arg :: listp) argv'
            else do_parse_libs listp argv'
        end
  end.

Definition parse_libs (pkg : Package) (listp : list Flag)
    (field str path : string) : M (list Flag) :=
  trimmed ← trim_and_sub pkg str path;
  if negb (is_nil trimmed) then
    match g_shell_parse_argv trimmed with
    | None =>
        verbose_error (CannotParseArgv field) ;;
        if parse_strict cfg then exit1 else mret listp
    | Some argv => mret (do_parse_libs listp argv)
    end
  else mret (do_parse_libs listp []).

Fixpoint do_parse_cflags (listp : list Flag) (argv : list string)
    : list Flag :=
  match argv with
  | [] => listp
  | argv_i :: argv' =>
      let tmp := trim_string argv_i in
      let arg := strdup_escape_shell tmp in
      let p := arg in
      if Ascii.eqb (char_at p 0) "-"%char &&
         Ascii.eqb (char_at p 1) "I"%char
      then
        let p := skip_while isspace (advance 2 p) in
        do_parse_cflags (mkFlag CFLAGS_I ("-I" +:+ p) :: listp) argv'
      else
        match argv' with
        | argv_i1 :: argv'' =>
            if (strcmp "-idirafter" arg =? 0) ||
               (strcmp "-isystem" arg =? 0)
            then
              let option := strdup_escape_shell (trim_string argv_i1) in
              do_parse_cflags
                (mkFlag CFLAGS_I ((arg +:+ " ") +:+ option) :: listp) argv''
            else if negb (is_nil arg)
            then do_parse_cflags (mkFlag CFLAGS_OTHER arg :: listp) argv'
            else do_parse_cflags listp argv'
        | [] =>
            if negb (is_nil arg)
            then do_parse_cflags (mkFlag CFLAGS_OTHER arg :: listp) argv'
            else do_parse_cflags listp argv'
        end
  end.

(** *** Fields *)

Definition set_name (pkg : Package) (v : string) : Package :=
  mkPackage (key pkg) (pcfiledir pkg) (vars pkg) (Some v) (version pkg)
    (description pkg) (url pkg) (requires_entries pkg)
    (requires_private_entries pkg) (conflicts pkg) (cflags pkg) (libs pkg)
    (libs_private pkg) (orig_prefix pkg).

Definition set_version (pkg : Package) (v : string) : Package :=
  mkPackage (key pkg) (pcfiledir pkg) (vars pkg) (name pkg) (Some v)
    (description pkg) (url pkg) (requires_entries pkg)
    (requires_private_entries pkg) (conflicts pkg) (cflags pkg) (libs pkg)
    (libs_private pkg) (orig_prefix pkg).

Definition set_description (pkg : Package) (v : string) : Package :=
  mkPackage (key pkg) (pcfiledir pkg) (vars pkg) (name pkg) (version pkg)
    (Some v) (url pkg) (requires_entries pkg)
    (requires_private_entries pkg) (conflicts pkg) (cflags pkg) (libs pkg)
    (libs_private pkg) (orig_prefix pkg).

Definition set_url (pkg : Package) (v : string) : Package :=
  mkPackage (key pkg) (pcfiledir pkg) (vars pkg) (name pkg) (version pkg)
    (description pkg) (Some v) (requires_entries pkg)
    (requires_private_entries pkg) (conflicts pkg) (cflags pkg) (libs pkg)
    (libs_private pkg) (orig_prefix pkg).

Definition set_requires_entries (pkg : Package) (l : list RequiredVersion)
    : Package :=
  mkPackage (key pkg) (pcfiledir pkg) (vars pkg) (name pkg) (version pkg)
    (description pkg) (url pkg) l
    (requires_private_entries pkg) (conflicts pkg) (cflags pkg) (libs pkg)
    (libs_private pkg) (orig_prefix pkg).

Definition set_requires_private_entries (pkg : Package)
    (l : list RequiredVersion) : Package :=
  mkPackage (key pkg) (pcfiledir pkg) (vars pkg) (name pkg) (version pkg)
    (description pkg) (url pkg) (requires_entries pkg)
    l (conflicts pkg) (cflags pkg) (libs pkg)
    (libs_private pkg) (orig_prefix pkg).

Definition set_conflicts (pkg : Package) (l : list RequiredVersion)
    : Package :=
  mkPackage (key pkg) (pcfiledir pkg) (vars pkg) (name pkg) (version pkg)
    (description pkg) (url pkg) (requires_entries pkg)
    (requires_private_entries pkg) l (cflags pkg) (libs pkg)
    (libs_private pkg) (orig_prefix pkg).

Definition set_cflags (pkg : Package) (l : list Flag) : Package :=
  mkPackage (key pkg) (pcfiledir pkg) (vars pkg) (name pkg) (version pkg)
    (description pkg) (url pkg) (requires_entries pkg)
    (requires_private_entries pkg) (conflicts pkg) l (libs pkg)
    (libs_private pkg) (orig_prefix pkg).

Definition set_libs (pkg : Package) (l : list Flag) : Package :=
  mkPackage (key pkg) (pcfiledir pkg) (vars pkg) (name pkg) (version pkg)
    (description pkg) (url pkg) (requires_entries pkg)
    (requires_private_entries pkg) (conflicts pkg) (cflags pkg) l
    (libs_private pkg) (orig_prefix pkg).

Definition set_libs_private (pkg : Package) (l : list Flag) : Package :=
  mkPackage (key pkg) (pcfiledir pkg) (vars pkg) (name pkg) (version pkg)
    (description pkg) (url pkg) (requires_entries pkg)
    (requires_private_entries pkg) (conflicts pkg) (cflags pkg) (libs pkg)
    l (orig_prefix pkg).

Definition set_vars (pkg : Package) (v : gmap string string) : Package :=
  mkPackage (key pkg) (pcfiledir pkg) v (name pkg) (version pkg)
    (description pkg) (url pkg) (requires_entries pkg)
    (requires_private_entries pkg) (conflicts pkg) (cflags pkg) (libs pkg)
    (libs_private pkg) (orig_prefix pkg).

Definition set_orig_prefix (pkg : Package) (v : string) : Package :=
  mkPackage (key pkg) (pcfiledir pkg) (vars pkg) (name pkg) (version pkg)
    (description pkg) (url pkg) (requires_entries pkg)
    (requires_private_entries pkg) (conflicts pkg) (cflags pkg) (libs pkg)
    (libs_private pkg) (Some v).

(** The report of a field that occurs twice, with the exit under
    [parse_strict] and the plain return otherwise. *)
Definition occurs_twice (pkg : Package) (field path : string) : M Package :=
  verbose_error (FieldOccursTwice field path) ;;
  if parse_strict cfg then exit1 else mret pkg.

Definition parse_name (pkg : Package) (str path : string) : M Package :=
  match name pkg with
  | Some _ => occurs_twice pkg "Name" path
  | None => v ← trim_and_sub pkg str path; mret (set_name pkg v)
  end.

Definition parse_version (pkg : Package) (str path : string) : M Package :=
  match version pkg with
  | Some _ => occurs_twice pkg "Version" path
  | None => v ← trim_and_sub pkg str path; mret (set_version pkg v)
  end.

Definition parse_description (pkg : Package) (str path : string)
    : M Package :=
  match description pkg with
  | Some _ => occurs_twice pkg "Description" path
  | None => v ← trim_and_sub pkg str path; mret (set_description pkg v)
  end.

Definition parse_cflags (pkg : Package) (str path : string) : M Package :=
  match cflags pkg with
  | _ :: _ => occurs_twice pkg "Cflags" path
  | [] =>
      trimmed ← trim_and_sub pkg str path;
      if negb (is_nil trimmed) then
        match g_shell_parse_argv trimmed with
        | None =>
            verbose_error (CannotParseArgv "Cflags") ;;
            if parse_strict cfg then exit1 else mret pkg
        | Some argv => mret (set_cflags pkg (do_parse_cflags (cflags pkg) argv))
        end
      else mret (set_cflags pkg (do_parse_cflags (cflags pkg) []))
  end.

Definition parse_url (pkg : Package) (str path : string) : M Package :=
  match url pkg with
  | Some _ => occurs_twice pkg "URL" path
  | None => v ← trim_and_sub pkg str path; mret (set_url pkg v)
  end.

(** *** Lines *)

Definition is_tag_char (c : ascii) : bool :=
  isupper c || islower c || isdigit c ||
  Ascii.eqb c "_"%char || Ascii.eqb c "."%char.

Definition ascii_tolower (c : ascii) : ascii :=
  if isupper c then ascii_of_N (N_of_ascii c + 32) else c.

Fixpoint str_tolower (s : string) : string :=
  match s with
  | EmptyString => EmptyString
  | String c s' => String (ascii_tolower c) (str_tolower s')
  end.

Definition g_ascii_strcasecmp (a b : string) : Z :=
  strcmp (str_tolower a) (str_tolower b).

Fixpoint backslashes_to_slashes (s : string) : string :=
  match s with
  | EmptyString => EmptyString
  | String c s' =>
      String (if Ascii.eqb c "\"%char then "/"%char else c)
        (backslashes_to_slashes s')
  end.

(** The end of the variable branch of [parse_line]: the test for a
    duplicate, then the definition.  [p] is NULL when [g_strconcat] was
    given a NULL first argument. *)
Definition define_variable (pkg : Package) (tag : string)
    (p : option string) (path : string) : M Package :=
  match vars pkg !! tag with
  | Some _ =>
      verbose_error (DuplicateVariable tag path) ;;
      if parse_strict cfg then exit1 else mret pkg
  | None =>
      match p with
      | None => abort
      | Some p =>
          varval ← trim_and_sub pkg p path;
          mret (set_vars pkg (<[tag := varval]> (vars pkg)))
      end
  end.

Definition parse_variable (pkg : Package) (tag p path : string)
    : M Package :=
  if define_prefix cfg && (strcmp tag (prefix_variable cfg) =? 0) then
    let base := g_path_get_basename (pcfiledir pkg) in
    if g_ascii_strcasecmp base "pkgconfig" =? 0 then
      let pkg := set_orig_prefix pkg p in
      let q := g_path_get_dirname (pcfiledir pkg) in
      let prefix := g_path_get_dirname q in
      let prefix := backslashes_to_slashes prefix in
      let prefix := strdup_escape_shell prefix in
      mret (set_vars pkg (<[tag := prefix]> (vars pkg)))
    else define_variable pkg tag (Some p) path
  else
    match orig_prefix pkg with
    | Some orig =>
        if define_prefix cfg && negb (is_nil orig) &&
           String.prefix orig p &&
           Ascii.eqb (char_at p (String.length orig)) "/"%char
        then
          define_variable pkg tag
            (v ← vars pkg !! prefix_variable cfg;
             Some (v +:+ advance (String.length orig) p))
            path
        else define_variable pkg tag (Some p) path
    | None => define_variable pkg tag (Some p) path
    end.

Definition parse_line (pkg : Package) (untrimmed path : string)
    : M Package :=
  let str := trim_string untrimmed in
  if is_nil str then mret pkg
  else
    let tag := span_while is_tag_char str in
    let p := skip_while isspace (skip_while is_tag_char str) in
    if Ascii.eqb (peek p) ":"%char then
      (* keyword *)
      let p := skip_while isspace (advance 1 p) in
      if strcmp tag "Name" =? 0 then parse_name pkg p path
      else if strcmp tag "Description" =? 0 then parse_description pkg p path
      else if strcmp tag "Version" =? 0 then parse_version pkg p path
      else if strcmp tag "Requires.private" =? 0 then
        l ← parse_deps pkg (requires_private_entries pkg) p path;
        mret (set_requires_private_entries pkg l)
      else if strcmp tag "Requires" =? 0 then
        l ← parse_deps pkg (requires_entries pkg) p path;
        mret (set_requires_entries pkg l)
      else if strcmp tag "Libs.private" =? 0 then
        l ← parse_libs pkg (libs_private pkg) "Libs.private" p path;
        mret (set_libs_private pkg l)
      else if strcmp tag "Libs" =? 0 then
        l ← parse_libs pkg (libs pkg) "Libs" p path;
        mret (set_libs pkg l)
      else if (strcmp tag "Cflags" =? 0) || (strcmp tag "CFlags" =? 0) then
        parse_cflags pkg p path
      else if strcmp tag "Conflicts" =? 0 then
        l ← parse_deps pkg (conflicts pkg) p path;
        mret (set_conflicts pkg l)
      else if strcmp tag "URL" =? 0 then parse_url pkg p path
      else mret pkg
    else if Ascii.eqb (peek p) "="%char then
      (* variable *)
      let p := skip_while isspace (advance 1 p) in
      parse_variable pkg tag p path
    else mret pkg.

(** The lines of a descriptor given one after the other to [parse_line],
    as the loop of [parse_package_file] does with what [read_one_line]
    returns. *)
Fixpoint parse_lines (pkg : Package) (lines : list string) (path : string)
    : M Package :=
  match lines with
  | [] => mret pkg
  | line :: lines' =>
      pkg ← parse_line pkg line path;
      parse_lines pkg lines' path
  end.

(** The [while (read_one_line (f, str))] loop of [parse_package_file]:
    the package and [one_line] when the stream is at its end.  The bind of
    the monad is written out around the recursive call. *)
Function parse_stream (pkg : Package) (path stream : string)
    (one_line : bool) {measure String.length stream} : M (Package * bool) :=
  match read_one_line stream with
  | (true, line, rest) =>
      match parse_line pkg line path with
      | (log, Done pkg) =>
          let '(log', r) := parse_stream pkg path rest true in
          (log ++ log', r)
      | (log, Exited) => (log, Exited)
      | (log, Aborted) => (log, Aborted)
      end
  | (false, _, _) => mret (pkg, one_line)
  end.
Proof.
  intros. eapply read_one_line_consumes; eassumption.
Defined.

Definition reverse_lists (pkg : Package) : Package :=
  mkPackage (key pkg) (pcfiledir pkg) (vars pkg) (name pkg) (version pkg)
    (description pkg) (url pkg) (rev (requires_entries pkg))
    (rev (requires_private_entries pkg)) (rev (conflicts pkg))
    (rev (cflags pkg)) (rev (libs pkg)) (rev (libs_private pkg))
    (orig_prefix pkg).

Definition parse_package_file (key path : string) : M (option Package) :=
  match read_file path with
  | None => verbose_error (FailedToOpen path) ;; mret None
  | Some stream =>
      let dir := g_path_get_dirname path in
      let pkg :=
        mkPackage (Some key) dir {[ "pcfiledir" := dir ]} None None None None
          [] [] [] [] [] [] None in
      '(pkg, one_line) ← parse_stream pkg path stream false;
      (if negb one_line then verbose_error (EmptyFile path) else mret tt) ;;
      mret (Some (reverse_lists pkg))
  end.

End Parser.

End Parse.
(** ** The merger as the specification words it

    These are the reference points for the refinement statements; they are
    not taken from the source. *)

Module MergerSpec.

(** Forward de-duplication: the strings at the positions whose string does
    not occur at an earlier position, in position order. *)
Definition keep_first_occurrences (l : list string) : list string :=
  omap (fun i => x ← l !! i;
                 if decide (x ∈ take i l) then None else Some x)
       (seq 0 (length l)).

(** Backward de-duplication: the strings at the positions whose string does
    not occur at a later position, in position order. *)
Definition keep_last_occurrences (l : list string) : list string :=
  omap (fun i => x ← l !! i;
                 if decide (x ∈ drop (S i) l) then None else Some x)
       (seq 0 (length l)).

(** Emission as the specification has it: the args joined by a single
    space, nothing after the last. *)
Definition joined_by_single_space (l : list string) : string :=
  String.concat " " l.

(** Emission with every arg followed by one space. *)
Definition each_followed_by_space (l : list string) : string :=
  fold_right (fun arg rest => arg +:+ " " +:+ rest) "" l.

End MergerSpec.

(** ** Concrete packages and environments used in the statements below *)

Module Fixtures.
Import Version Pkg.

Definition leaf (k v : string) : Package :=
  mkPackage (Some k) (Some k) (Some v) (Some "d") [] None [] [] [] []
    None None None None false None None None.

(** b.pc: Version 1.0. *)
Definition pkg_b : Package := leaf "b" "1.0".

Definition conflict_c : RequiredVersion :=
  mkRequiredVersion "c" LESS_THAN (Some "2.0") (Some "a").

(** a.pc: Version 1.0, Requires: b, Conflicts: c < 2.0. *)
Definition pkg_a : Package :=
  mkPackage (Some "a") (Some "a") (Some "1.0") (Some "d") [pkg_b] None
    [conflict_c] [] [] [] None None None None false None None None.

Definition with_flags (l I : list string) : Package :=
  mkPackage (Some "f") (Some "f") (Some "1") (Some "d") [] None [] l [] I
    None None None None false None None None.

(** Two directories of the search path, each with a file K.pc. *)
Definition two_dirs (dirname : string) : option (list string) :=
  if String.eqb dirname "/first" then Some ["K.pc"]
  else if String.eqb dirname "/second" then Some ["K.pc"; "README"]
  else None.

(** A parser over a file system with the single descriptor /d/x.pc.pc; as
    in parse.c, a file that cannot be opened is reported and NULL is
    returned. *)
Definition parse_only_x (st : Registry) (path : string)
    : Exec Diag (option Package * Registry) :=
  if String.eqb path "/d/x.pc.pc"
  then mret (Some (leaf "" "1.0"), st)
  else verbose_error (FailedToOpen path) ;; mret (None, st).

Definition registry_with_x : Registry :=
  mkRegistry ∅ {[ "x.pc" := "/d/x.pc.pc" ]} None [] true.

(** The descriptor of package a while it is parsed: nothing read so far. *)
Definition descriptor : Parse.Package :=
  Parse.mkPackage (Some "a") "/d" {[ "pcfiledir" := "/d" ]} None None None
    None [] [] [] [] [] [] None.

Definition strict : Parse.Config := Parse.mkConfig true false "prefix" false.

Definition newline : string := String Parse.LF "".

(** a.pc with two Requires lines. *)
Definition two_requires : string :=
  "Requires: b" +:+ newline +:+ "Requires: c >= 2" +:+ newline.

(** A splitter that is right on a single word without quotes. *)
Definition one_word (s : string) : option (list string) := Some [s].

End Fixtures.

(** ** Reference notions for the further properties

    Not taken from the source: what a digit string denotes, what a string
    is made of, and the reading of a shell-escaped string. *)

Module Notions.

Fixpoint all_chars (f : ascii -> bool) (s : string) : bool :=
  match s with
  | EmptyString => true
  | String c s' => f c && all_chars f s'
  end.

(** The number a string of decimal digits denotes. *)
Fixpoint digits_value (s : string) : Z :=
  match s with
  | EmptyString => 0
  | String c s' =>
      (code c - 48) * 10 ^ Z.of_nat (String.length s') + digits_value s'
  end.

Definition not_slash (c : ascii) : bool := negb (Ascii.eqb c "/"%char).

(** The name of a descriptor given by its path, with or without a
    directory, and the key that [load_package] cuts out of it. *)
Definition path_of (dir : option string) (stem : string) : string :=
  match dir with
  | Some d => d +:+ "/" +:+ stem +:+ ".pc"
  | None => stem +:+ ".pc"
  end.

Definition key_of (dir : option string) (stem : string) : string :=
  match dir with
  | Some _ => "/" +:+ stem
  | None => stem
  end.

(** A byte that means nothing to the line reader: not the comment sign,
    not the backslash, not the line feed. *)
Definition plain_byte (c : ascii) : bool :=
  negb (Ascii.eqb c "#"%char) && negb (Ascii.eqb c "\"%char) &&
  negb (Ascii.eqb c Parse.LF).

Definition not_line_feed (c : ascii) : bool := negb (Ascii.eqb c Parse.LF).

Definition not_dollar (c : ascii) : bool := negb (Ascii.eqb c "$"%char).

Definition not_closing_brace (c : ascii) : bool :=
  negb (Ascii.eqb c "}"%char).

(** The text of one entry of a module list with a version constraint. *)
Definition entry_text (name : string) (c : Version.ComparisonType)
    (version : string) : string :=
  name +:+ " " +:+ Version.comparison_to_str c +:+ " " +:+ version.

(** The reading of a string in which a backslash quotes the byte after
    it. *)
Fixpoint unescape (s : string) : string :=
  match s with
  | EmptyString => EmptyString
  | String c s' =>
      if Ascii.eqb c "\"%char then
        match s' with
        | EmptyString => EmptyString
        | String c' s'' => String c' (unescape s'')
        end
      else String c (unescape s')
  end.

Definition safe_byte (c : ascii) : bool := negb (Parse.needs_escape c).

Definition is_libs_flag (f : Parse.Flag) : bool :=
  match Parse.type f with
  | Parse.LIBS_l | Parse.LIBS_L | Parse.LIBS_OTHER => true
  | _ => false
  end.

Definition is_cflags_flag (f : Parse.Flag) : bool :=
  match Parse.type f with
  | Parse.CFLAGS_I | Parse.CFLAGS_OTHER => true
  | _ => false
  end.

(** The text of a line that defines a variable, with white space [ws1]
    and [ws2] around the equals sign. *)
Definition definition_text (tag ws1 ws2 value : string) : string :=
  tag +:+ ws1 +:+ String "="%char (ws2 +:+ value).

(** A run that is over without a word, or that exits on one diagnostic. *)
Definition terse {A} (m : Exec Pkg.Diag A) : Prop :=
  match m with
  | (log, Done _) => log = []
  | (log, Exited) => exists d, log = [d]
  | (log, Aborted) => log = []
  end.

(** A location that names a file K.pc found in one of the directories
    [dirs], as [readdir] lists them. *)
Definition found_in (readdir : string -> option (list string))
    (dirs : list string) (k v : string) : Prop :=
  exists d entries n,
    d ∈ dirs /\ readdir d = Some entries /\ (k +:+ ".pc") ∈ entries /\
    v = (String.substring 0 n d +:+ "/") +:+ (k +:+ ".pc").

(** What holds while [split_module_list] waits for an operator: past the
    white space there is one. *)
Definition operator_ahead (state : Parse.ModuleSplitState) (rest : string)
    : Prop :=
  state = Parse.BEFORE_OPERATOR ->
  Parse.OPERATOR_CHAR (peek (skip_while isspace rest)) = true.

Definition libs_flag_ok (f : Parse.Flag) : Prop :=
  is_libs_flag f = true /\ Parse.arg f <> "".

Definition cflags_flag_ok (f : Parse.Flag) : Prop :=
  is_cflags_flag f = true /\ Parse.arg f <> "".

End Notions.

Module MoreFixtures.
Import Version Pkg.

(** c.pc: Version 2.1, Requires: b >= 1.0, Conflicts: b > 5. *)
Definition pkg_c : Package :=
  mkPackage (Some "c") (Some "c") (Some "2.1") (Some "d")
    [Fixtures.pkg_b]
    (Some {[ "b" := mkRequiredVersion "b" GREATER_THAN_EQUAL (Some "1.0")
                      (Some "c") ]})
    [mkRequiredVersion "b" GREATER_THAN (Some "5") (Some "c")]
    ["-lc"] [] [] None None None None false None None None.

(** A descriptor whose variable libdir holds, verbatim, a reference to
    another variable. *)
Definition with_nested : Parse.Package :=
  Parse.mkPackage (Some "a") "/d"
    (<[ "libdir" := "${prefix}/lib" ]> {[ "pcfiledir" := "/d" ]})
    None None None None [] [] [] [] [] [] None.

End MoreFixtures.
(** * Properties *)

(** ** The version comparator *)

Section VersionFacts.
Import Version.

Lemma strcmp_refl a : strcmp a a = 0.
Proof.
  induction a as [|c a IH]; simpl; [reflexivity|].
  now rewrite Ascii.eqb_refl.
Qed.

Lemma strcmp_swap a b : strcmp b a = - strcmp a b.
Proof.
  revert b. induction a as [|c a IH]; intros [|d b]; simpl; try lia.
  rewrite (Ascii.eqb_sym d c). destruct (Ascii.eqb c d); [apply IH|lia].
Qed.

Lemma is_nil_span f s :
  f zero = false -> is_nil (span_while f s) = negb (f (peek s)).
Proof.
  intros Hz. destruct s as [|c s]; simpl; [now rewrite Hz|].
  now destruct (f c).
Qed.

Lemma isdigit_not_isalpha c : isdigit c = true -> isalpha c = false.
Proof.
  unfold isdigit, isalpha, isupper, islower. intros H.
  apply andb_true_iff in H as [H1 H2].
  apply Z.leb_le in H1, H2.
  apply orb_false_iff; split; apply andb_false_iff.
  - left. apply Z.leb_gt. lia.
  - left. apply Z.leb_gt. lia.
Qed.

(** What a result and the result of the swapped call have to do with each
    other: opposite signs, or the arbitrary -1 on both sides. *)
Definition mirrored (x y : Z) : Prop :=
  Z.sgn y = - Z.sgn x \/ (x = -1 /\ y = -1).

Lemma rpmvercmp_step_swap one two :
  match rpmvercmp_step one two with
  | Return rc => exists rc', rpmvercmp_step two one = Return rc' /\ mirrored rc rc'
  | Again str1 str2 => rpmvercmp_step two one = Again str2 str1
  end.
Proof.
  unfold rpmvercmp_step.
  rewrite (orb_comm (is_nil two)), (andb_comm (is_nil two)).
  destruct (is_nil one) eqn:N1, (is_nil two) eqn:N2; simpl;
    try (eexists; split; [reflexivity|]; unfold mirrored; simpl; lia).
  set (one' := skip_while (fun c => negb (isalnum c)) one).
  set (two' := skip_while (fun c => negb (isalnum c)) two).
  rewrite !is_nil_span by (destruct (isdigit (peek _)); reflexivity).
  destruct (isdigit (peek one')) eqn:D1, (isdigit (peek two')) eqn:D2; simpl;
    rewrite ?D1, ?D2; simpl.
  - (* both numeric *)
    set (s1 := skip_while is_zero_digit (span_while isdigit one')).
    set (s2 := skip_while is_zero_digit (span_while isdigit two')).
    rewrite (strcmp_swap s1 s2).
    destruct (Z.ltb_spec (strlen s2) (strlen s1));
      destruct (Z.ltb_spec (strlen s1) (strlen s2)); try lia;
      try (eexists; split; [reflexivity|]; unfold mirrored; simpl; lia).
    destruct (Z.eqb_spec (strcmp s1 s2) 0) as [E|E]; simpl.
    + rewrite E. reflexivity.
    + destruct (Z.eqb_spec (- strcmp s1 s2) 0); [lia|]. simpl.
      eexists; split; [reflexivity|]. unfold mirrored. left.
      rewrite Z.sgn_opp. reflexivity.
  - (* numeric against alphabetic *)
    rewrite (isdigit_not_isalpha _ D1).
    destruct (isalpha (peek two')); simpl;
      eexists; (split; [reflexivity|]); unfold mirrored; lia.
  - rewrite (isdigit_not_isalpha _ D2).
    destruct (isalpha (peek one')); simpl;
      eexists; (split; [reflexivity|]); unfold mirrored; lia.
  - (* both alphabetic, or no segment at all *)
    destruct (isalpha (peek one')) eqn:A1, (isalpha (peek two')) eqn:A2; simpl;
      try (eexists; split; [reflexivity|]; unfold mirrored; simpl; lia).
    set (s1 := span_while isalpha one').
    set (s2 := span_while isalpha two').
    rewrite (strcmp_swap s1 s2).
    destruct (Z.eqb_spec (strcmp s1 s2) 0) as [E|E]; simpl.
    + rewrite E. reflexivity.
    + destruct (Z.eqb_spec (- strcmp s1 s2) 0); [lia|]. simpl.
      eexists; split; [reflexivity|]. unfold mirrored. left.
      rewrite Z.sgn_opp. reflexivity.
Qed.

Lemma rpmvercmp_loop_swap one two :
  mirrored (rpmvercmp_loop one two) (rpmvercmp_loop two one).
Proof.
  remember (String.length one) as n eqn:Hn.
  revert one two Hn.
  induction n as [n IH] using lt_wf_ind. intros one two ->.
  rewrite (rpmvercmp_loop_equation one two), (rpmvercmp_loop_equation two one).
  pose proof (rpmvercmp_step_swap one two) as S.
  destruct (rpmvercmp_step one two) as [rc|str1 str2] eqn:E.
  - destruct S as (rc' & -> & M). exact M.
  - rewrite S. eapply IH; [|reflexivity].
    eapply rpmvercmp_step_Again; eassumption.
Qed.

End VersionFacts.

(** C2 (refuted as stated): a numeric segment against an alphabetic one is
    answered -1 whichever side it is on; for 1 and a both calls return -1,
    and the signs are not opposite. *)
Lemma compare_versions_not_antisymmetric :
  Version.compare_versions "1" "a" = -1 /\
  Version.compare_versions "a" "1" = -1 /\
  Z.sgn (Version.compare_versions "1" "a") <>
  - Z.sgn (Version.compare_versions "a" "1").
Proof. repeat split. vm_compute. discriminate. Qed.

(** C2 (amended): [compare_versions a a] is 0 for every string, and for all
    strings [a] and [b] the two results [compare_versions a b] and
    [compare_versions b a] have opposite signs unless both are -1 (the
    arbitrary answer of the comparator when segment types disagree). *)
Theorem compare_versions_mirrored (a b : string) :
  Version.compare_versions a a = 0 /\
  (Z.sgn (Version.compare_versions a b) =
   - Z.sgn (Version.compare_versions b a)
   \/ (Version.compare_versions a b = -1 /\
       Version.compare_versions b a = -1)).
Proof.
  unfold Version.compare_versions, Version.rpmvercmp. split.
  - now rewrite strcmp_refl.
  - rewrite (strcmp_swap a b).
    destruct (Z.eqb_spec (strcmp a b) 0) as [E|E].
    + rewrite E. simpl. left. reflexivity.
    + destruct (Z.eqb_spec (- strcmp a b) 0); [lia|].
      destruct (rpmvercmp_loop_swap a b) as [M|M]; [left; lia|right; exact M].
Qed.

(** ** De-duplication *)

Section DedupFacts.
Import Pkg MergerSpec.

Lemma keep_first_snoc (l : list string) (x : string) :
  keep_first_occurrences (l ++ [x]) =
  keep_first_occurrences l ++ (if decide (x ∈ l) then [] else [x]).
Proof.
  unfold keep_first_occurrences.
  rewrite length_app, Nat.add_1_r, seq_S, omap_app. simpl. f_equal.
  - apply list_omap_ext, Forall_Forall2_diag, Forall_forall.
    intros i Hi. apply elem_of_seq in Hi.
    rewrite lookup_app_l by lia. rewrite take_app_le by lia. reflexivity.
  - rewrite list_lookup_middle by reflexivity. simpl.
    rewrite take_app_length. destruct (decide (x ∈ l)); reflexivity.
Qed.

Lemma keep_last_cons (l : list string) (x : string) :
  keep_last_occurrences (x :: l) =
  (if decide (x ∈ l) then [] else [x]) ++ keep_last_occurrences l.
Proof.
  unfold keep_last_occurrences. simpl length.
  rewrite <- cons_seq, <- fmap_S_seq.
  assert (T : forall s : list nat,
    omap (fun i => y ← (x :: l) !! i;
            if decide (y ∈ drop (S i) (x :: l)) then None else Some y)
         (S <$> s) =
    omap (fun i => y ← l !! i;
            if decide (y ∈ drop (S i) l) then None else Some y) s).
  { intros s. apply list_omap_ext.
    induction s as [|i s IH]; simpl; constructor; auto. }
  change (omap ?f (0%nat :: ?s)) with
    (match f 0%nat with Some y => y :: omap f s | None => omap f s end).
  rewrite T. cbn [lookup list_lookup mbind option_bind drop].
  rewrite drop_0. destruct (decide (x ∈ l)); reflexivity.
Qed.

Lemma keep_first_elem (l : list string) (x : string) :
  x ∈ keep_first_occurrences l <-> x ∈ l.
Proof.
  induction l as [|y l IH] using rev_ind; [reflexivity|].
  rewrite keep_first_snoc, !elem_of_app, IH.
  destruct (decide (y ∈ l)) as [Hy|Hy].
  - rewrite elem_of_nil, list_elem_of_singleton. split; [tauto|].
    intros [H| ->]; auto.
  - tauto.
Qed.

(** The two faces of one list: the last occurrences are the first
    occurrences of the reversed list, reversed. *)
Lemma keep_last_rev (l : list string) :
  keep_last_occurrences l = rev (keep_first_occurrences (rev l)).
Proof.
  induction l as [|x l IH]; [reflexivity|].
  rewrite keep_last_cons. simpl rev. rewrite keep_first_snoc.
  rewrite rev_app_distr, <- IH. f_equal.
  destruct (decide (x ∈ l)) as [H|H];
    destruct (decide (x ∈ rev l)) as [H'|H']; try reflexivity; exfalso.
  - apply H'. apply list_elem_of_In, in_rev. rewrite rev_involutive.
    now apply list_elem_of_In.
  - apply H. apply list_elem_of_In, in_rev. now apply list_elem_of_In.
Qed.

(** The loop, started on the state reached after a prefix [pre]. *)
Lemma strip_loop_spec (l pre : list string) (table : gmap string string) :
  (forall x, is_Some (table !! x) <-> x ∈ pre) ->
  strip_loop l table (rev (keep_first_occurrences pre)) =
  rev (keep_first_occurrences (pre ++ l)).
Proof.
  revert pre table. induction l as [|x l IH]; intros pre table Ht; simpl.
  - now rewrite app_nil_r.
  - replace (pre ++ x :: l) with ((pre ++ [x]) ++ l)
      by (rewrite <- app_assoc; reflexivity).
    destruct (table !! x) as [v|] eqn:E.
    + rewrite <- (IH (pre ++ [x]) table).
      * rewrite keep_first_snoc.
        destruct (decide (x ∈ pre)) as [H|H]; [now rewrite app_nil_r|].
        exfalso. apply H, Ht. eauto.
      * intros y. rewrite Ht, elem_of_app, list_elem_of_singleton.
        split; [tauto|]. intros [H| ->]; [exact H|]. apply Ht. eauto.
    + rewrite <- (IH (pre ++ [x]) (<[x := x]> table)).
      * rewrite keep_first_snoc.
        destruct (decide (x ∈ pre)) as [H|H].
        -- apply Ht in H. rewrite E in H. destruct H; discriminate.
        -- rewrite rev_app_distr. reflexivity.
      * intros y. rewrite elem_of_app, list_elem_of_singleton, <- Ht.
        destruct (decide (x = y)) as [->|Hne].
        -- rewrite lookup_insert_eq. split; eauto.
        -- rewrite lookup_insert_ne by exact Hne. split; [tauto|].
           intros [H|H]; [exact H|congruence].
Qed.

Lemma string_list_strip_duplicates_spec (l : list string) :
  string_list_strip_duplicates l = keep_first_occurrences l.
Proof.
  unfold string_list_strip_duplicates.
  change (strip_loop l ∅ []) with
    (strip_loop l ∅ (rev (keep_first_occurrences []))).
  rewrite (strip_loop_spec l [] ∅).
  - now rewrite rev_involutive.
  - intros x. rewrite lookup_empty, elem_of_nil. split; [|tauto].
    intros [? H]; discriminate.
Qed.

Lemma string_list_strip_duplicates_from_back_spec (l : list string) :
  string_list_strip_duplicates_from_back l = keep_last_occurrences l.
Proof.
  unfold string_list_strip_duplicates_from_back.
  change (strip_loop (rev l) ∅ []) with
    (strip_loop (rev l) ∅ (rev (keep_first_occurrences []))).
  rewrite (strip_loop_spec (rev l) [] ∅).
  - symmetry. apply keep_last_rev.
  - intros x. rewrite lookup_empty, elem_of_nil. split; [|tauto].
    intros [? H]; discriminate.
Qed.

End DedupFacts.

(** C4: the merges of the [-l] flags ([package_get_l_libs],
    [packages_get_l_libs]) keep of the flag list of the transitive walk
    exactly the last occurrence of every string, in order, and the merges of
    the [-I] and [-L] flags keep exactly the first occurrence; on
    [-lA, -lB, -lA] the survivors of the [-l] merge are [-lB, -lA], on
    [-IA, -IB, -IA] those of the [-I] merge are [-IA, -IB], and the
    accessors emit them in that order. *)
Theorem merges_keep_last_or_first :
  (forall l, Pkg.string_list_strip_duplicates_from_back l =
             MergerSpec.keep_last_occurrences l) /\
  (forall l, Pkg.string_list_strip_duplicates l =
             MergerSpec.keep_first_occurrences l) /\
  (forall pkgs,
     let walk func :=
       fold_left (fun acc pkg => Pkg.recursive_fill_list pkg func acc)
                 pkgs [] in
     Pkg.packages_get_l_libs pkgs =
       Pkg.string_list_to_string
         (MergerSpec.keep_last_occurrences (walk Pkg.get_l_libs)) /\
     Pkg.packages_get_L_libs pkgs =
       Pkg.string_list_to_string
         (MergerSpec.keep_first_occurrences (walk Pkg.get_L_libs)) /\
     Pkg.packages_get_I_cflags pkgs =
       Pkg.string_list_to_string
         (MergerSpec.keep_first_occurrences (walk Pkg.get_I_cflags))) /\
  (forall pkg,
     let walk func := Pkg.recursive_fill_list pkg func [] in
     Pkg.get_merged_from_back pkg Pkg.get_l_libs =
       Pkg.string_list_to_string
         (MergerSpec.keep_last_occurrences (walk Pkg.get_l_libs)) /\
     Pkg.get_merged pkg Pkg.get_L_libs =
       Pkg.string_list_to_string
         (MergerSpec.keep_first_occurrences (walk Pkg.get_L_libs)) /\
     Pkg.get_merged pkg Pkg.get_I_cflags =
       Pkg.string_list_to_string
         (MergerSpec.keep_first_occurrences (walk Pkg.get_I_cflags))) /\
  Pkg.string_list_strip_duplicates_from_back ["-lA"; "-lB"; "-lA"] =
    ["-lB"; "-lA"] /\
  Pkg.string_list_strip_duplicates ["-IA"; "-IB"; "-IA"] = ["-IA"; "-IB"] /\
  fst (Pkg.package_get_l_libs
         (Fixtures.with_flags ["-lA"; "-lB"; "-lA"] [])) = "-lB -lA " /\
  fst (Pkg.package_get_I_cflags
         (Fixtures.with_flags [] ["-IA"; "-IB"; "-IA"])) = "-IA -IB ".
Proof.
  repeat split; intros;
    unfold Pkg.packages_get_l_libs, Pkg.packages_get_L_libs,
      Pkg.packages_get_I_cflags, Pkg.get_multi_merged_from_back,
      Pkg.get_multi_merged, Pkg.get_merged_from_back, Pkg.get_merged;
    rewrite ?string_list_strip_duplicates_from_back_spec,
      ?string_list_strip_duplicates_spec; reflexivity.
Qed.

(** ** Emission *)

Section EmissionFacts.
Import Pkg MergerSpec.

Lemma str_app_cons (x : ascii) (a b : string) :
  String x a +:+ b = String x (a +:+ b).
Proof. reflexivity. Qed.

Lemma str_app_assoc (a b c : string) : (a +:+ b) +:+ c = a +:+ (b +:+ c).
Proof.
  induction a as [|x a IH]; [reflexivity|].
  rewrite !str_app_cons. f_equal. exact IH.
Qed.

Lemma str_app_nil_r (a : string) : a +:+ "" = a.
Proof.
  induction a as [|x a IH]; [reflexivity|].
  rewrite str_app_cons. f_equal. exact IH.
Qed.

Lemma string_list_to_string_from (l : list string) (str : string) :
  fold_left (fun str data => (str +:+ data) +:+ " ") l str =
  str +:+ each_followed_by_space l.
Proof.
  revert str. induction l as [|x l IH]; intros str; simpl.
  - now rewrite str_app_nil_r.
  - rewrite IH, !str_app_assoc. reflexivity.
Qed.

Lemma string_list_to_string_spec (l : list string) :
  string_list_to_string l = each_followed_by_space l.
Proof. apply (string_list_to_string_from l ""). Qed.

Lemma each_followed_by_space_joined (l : list string) :
  each_followed_by_space l =
  match l with
  | [] => ""
  | _ :: _ => joined_by_single_space l +:+ " "
  end.
Proof.
  unfold joined_by_single_space.
  induction l as [|x l IH]; [reflexivity|].
  simpl each_followed_by_space. rewrite IH.
  destruct l as [|y l]; [reflexivity|].
  change (String.concat " " (x :: y :: l))
    with (x +:+ " " +:+ String.concat " " (y :: l)).
  rewrite !str_app_assoc. reflexivity.
Qed.

End EmissionFacts.

(** C9 (refuted as stated): the merge of the single flag [-IA] is the
    string [-IA] followed by a space, not the flags joined by single spaces
    with nothing after the last. *)
Lemma merged_output_trailing_space :
  Pkg.get_merged (Fixtures.with_flags [] ["-IA"]) Pkg.get_I_cflags = "-IA " /\
  Pkg.get_merged (Fixtures.with_flags [] ["-IA"]) Pkg.get_I_cflags <>
  MergerSpec.joined_by_single_space
    (Pkg.string_list_strip_duplicates
       (Pkg.recursive_fill_list (Fixtures.with_flags [] ["-IA"])
          Pkg.get_I_cflags [])).
Proof. split; [reflexivity|]. vm_compute. discriminate. Qed.

(** C9 (amended): every merged output string ([get_merged],
    [get_multi_merged] and their from_back variants) consists of the
    surviving flags' arg strings, each followed by exactly one space: the
    args are separated by single spaces, and an output with at least one
    flag ends with one trailing space (the output for no flag is empty). *)
Theorem merged_output_each_followed_by_space :
  (forall pkg func,
     Pkg.get_merged pkg func =
     MergerSpec.each_followed_by_space
       (Pkg.string_list_strip_duplicates
          (Pkg.recursive_fill_list pkg func []))) /\
  (forall pkg func,
     Pkg.get_merged_from_back pkg func =
     MergerSpec.each_followed_by_space
       (Pkg.string_list_strip_duplicates_from_back
          (Pkg.recursive_fill_list pkg func []))) /\
  (forall pkgs func,
     Pkg.get_multi_merged pkgs func =
     MergerSpec.each_followed_by_space
       (Pkg.string_list_strip_duplicates
          (fold_left (fun acc pkg => Pkg.recursive_fill_list pkg func acc)
                     pkgs []))) /\
  (forall pkgs func,
     Pkg.get_multi_merged_from_back pkgs func =
     MergerSpec.each_followed_by_space
       (Pkg.string_list_strip_duplicates_from_back
          (fold_left (fun acc pkg => Pkg.recursive_fill_list pkg func acc)
                     pkgs []))) /\
  (forall l,
     MergerSpec.each_followed_by_space l =
     match l with
     | [] => ""
     | _ :: _ => MergerSpec.joined_by_single_space l +:+ " "
     end).
Proof.
  repeat split; intros;
    try (unfold Pkg.get_merged, Pkg.get_merged_from_back,
           Pkg.get_multi_merged, Pkg.get_multi_merged_from_back;
         apply string_list_to_string_spec).
  apply each_followed_by_space_joined.
Qed.

(** ** Verification of conflicts *)

Section VerifyFacts.
Import Version Pkg.

Lemma version_test_ptr_cases c a b :
  version_test_ptr c a b = mret true \/
  version_test_ptr c a b = mret false \/
  version_test_ptr c a b = abort.
Proof.
  unfold version_test_ptr.
  destruct c, a as [a|], b as [b|]; auto;
    match goal with
    | |- context [version_test ?c ?a ?b] => destruct (version_test c a b); auto
    end.
Qed.

Lemma verify_conflicts_inner_done req conflicts log :
  verify_conflicts_inner req conflicts = (log, Done tt) ->
  forall ver, ver ∈ conflicts ->
    version_test_ptr (comparison ver) (version req) (rv_version ver) =
    mret false.
Proof.
  induction conflicts as [|v conflicts IH] in log |- *; simpl; intros H ver Hin.
  - inversion Hin.
  - destruct (version_test_ptr_cases (comparison v) (version req)
                (rv_version v)) as [E|[E|E]]; rewrite E in H.
    + discriminate H.
    + apply elem_of_cons in Hin as [->|Hin]; [exact E|].
      cbn in H. destruct (verify_conflicts_inner req conflicts) as [l' o] eqn:E'.
      inversion H; subst. eapply IH; eauto.
    + discriminate H.
Qed.

Lemma exec_bind_done {D A B} (m : Exec D A) (f : A -> Exec D B) log b :
  m ≫= f = (log, Done b) ->
  exists l1 a l2, m = (l1, Done a) /\ f a = (l2, Done b) /\ log = l1 ++ l2.
Proof.
  destruct m as [l1 [a| |]]; unfold mbind, exec_bind; intros H;
    try discriminate H.
  destruct (f a) as [l2 r] eqn:E. inversion H; subst.
  exists l1, a, l2. auto.
Qed.

Lemma verify_conflicts_done requires conflicts log :
  verify_conflicts requires conflicts = (log, Done tt) ->
  forall req ver, req ∈ requires -> ver ∈ conflicts ->
    version_test_ptr (comparison ver) (version req) (rv_version ver) =
    mret false.
Proof.
  induction requires as [|r requires IH] in log |- *; simpl;
    intros H req ver Hr Hv.
  - inversion Hr.
  - apply exec_bind_done in H as (l1 & [] & l2 & H1 & H2 & _).
    apply elem_of_cons in Hr as [->|Hr].
    + eapply verify_conflicts_inner_done; eauto.
    + eapply IH; eauto.
Qed.

(** The half of C1 that the code keeps: after a successful
    [verify_package] the version predicate of no transitive conflict accepts
    the version of any transitive requirement. *)
Lemma verify_package_done_no_conflict pkg log :
  verify_package pkg = (log, Done tt) ->
  forall req ver,
    req ∈ recursive_fill_list pkg get_requires [] ->
    ver ∈ recursive_fill_list pkg get_conflicts [] ->
    version_test_ptr (comparison ver) (version req) (rv_version ver) =
    mret false.
Proof.
  unfold verify_package. intros H.
  repeat match type of H with
         | (if ?c then _ else _) = _ => destruct c; [discriminate H|]
         end.
  apply exec_bind_done in H as (l1 & [] & l2 & _ & H & _).
  intros req ver. eapply verify_conflicts_done; eauto.
Qed.

End VerifyFacts.

(** C1 (the code departs from it): package a requires b (version 1.0) and
    declares [Conflicts: c < 2.0]; [verify_package] fails with the conflict
    diagnostic for the pair (b, c < 2.0), whose names differ. *)
Theorem verify_package_conflict_ignores_name :
  Pkg.verify_package Fixtures.pkg_a =
    ([Pkg.CreatesConflict Fixtures.pkg_b Fixtures.conflict_c], Exited) /\
  Some (rv_name Fixtures.conflict_c) <> Pkg.key Fixtures.pkg_b.
Proof. split; [vm_compute; reflexivity|discriminate]. Qed.

(** ** The directory scanner *)

Section ScanFacts.
Import Pkg.
Variable readdir : string -> option (list string).




Lemma substring_full e : String.substring 0 (String.length e) e = e.
Proof. induction e as [|c e IH]; simpl; [reflexivity|]. now rewrite IH. Qed.

Lemma substring_split e n :
  (n <= String.length e)%nat ->
  String.substring 0 n e +:+ String.substring n (String.length e - n) e = e.
Proof.
  revert n. induction e as [|c e IH]; intros [|n] H; simpl in *;
    try reflexivity; try lia.
  - now rewrite substring_full.
  - rewrite str_app_cons. f_equal. apply IH. lia.
Qed.

Lemma ends_in_dotpc_split e :
  ends_in_dotpc e = true ->
  e = String.substring 0 (String.length e - 3) e +:+ ".pc".
Proof.
  unfold ends_in_dotpc. intros [H1 H2]%andb_true_iff.
  apply Z.ltb_lt in H1. apply String.eqb_eq in H2.
  pose proof (substring_split e (String.length e - 3)) as S.
  replace (String.length e - (String.length e - 3))%nat with 3%nat in S
    by lia.
  rewrite H2 in S. symmetry. apply S. lia.
Qed.

Lemma substring_app_l (a b : string) :
  String.substring 0 (String.length a) (a +:+ b) = a.
Proof.
  induction a as [|c a IH]; simpl.
  - now destruct b.
  - now rewrite IH.
Qed.






End ScanFacts.

(** C3 (the code departs from it): the search path is /first, then
    /second, and each directory has a file K.pc; after [package_init] the
    location of K is the file of /second, the directory added last. *)
Theorem package_init_last_added_wins :
  let st :=
    Pkg.add_search_dir (Pkg.add_search_dir Pkg.empty_registry "/first")
      "/second" in
  Pkg.search_dirs st = ["/second"; "/first"] /\
  Pkg.locations (Pkg.package_init Fixtures.two_dirs "/usr/lib/pkgconfig" st)
    !! "K" = Some "/second/K.pc".
Proof. split; vm_compute; reflexivity. Qed.

(** ** Key resolution *)

Section ResolveFacts.
Import Pkg.
Variable disable_uninstalled : bool.
Variable parse_package_file :
  Registry -> string -> Exec Diag (option Package * Registry).
Variable get_compat_package : string -> option Package.

Lemma str_length_app (a b : string) :
  String.length (a +:+ b) = (String.length a + String.length b)%nat.
Proof.
  induction a as [|x a IH]; [reflexivity|].
  rewrite str_app_cons. simpl. now rewrite IH.
Qed.

Lemma substring_app_skip (a b : string) (k m : nat) :
  String.substring (String.length a + k) m (a +:+ b) = String.substring k m b.
Proof. induction a as [|x a IH]; [reflexivity|]. exact IH. Qed.

Lemma name_ends_in_uninstalled_variant name :
  name_ends_in_uninstalled (name +:+ "-uninstalled") = true.
Proof.
  unfold name_ends_in_uninstalled.
  rewrite str_length_app. simpl String.length.
  replace (String.length name + 12 - 11)%nat
    with (String.length name + 1)%nat by lia.
  rewrite substring_app_skip. apply andb_true_iff. split.
  - apply Z.ltb_lt. lia.
  - reflexivity.
Qed.

Lemma ends_in_dotpc_variant name :
  ends_in_dotpc (name +:+ "-uninstalled") = false.
Proof.
  unfold ends_in_dotpc.
  rewrite str_length_app. simpl String.length.
  replace (String.length name + 12 - 3)%nat
    with (String.length name + 9)%nat by lia.
  rewrite substring_app_skip. apply andb_false_iff. right. reflexivity.
Qed.

(** The call for the uninstalled variant does not call again. *)
Lemma internal_get_package_variant depth st name warn check_compat :
  internal_get_package disable_uninstalled parse_package_file
    get_compat_package (S depth) st (name +:+ "-uninstalled") warn
    check_compat =
  internal_get_package disable_uninstalled parse_package_file
    get_compat_package 1 st (name +:+ "-uninstalled") warn check_compat.
Proof.
  simpl. rewrite ends_in_dotpc_variant, name_ends_in_uninstalled_variant.
  rewrite andb_false_r. reflexivity.
Qed.

(** A depth of 2 is all that [get_package] needs. *)
Lemma internal_get_package_depth depth st name warn check_compat :
  internal_get_package disable_uninstalled parse_package_file
    get_compat_package (S (S depth)) st name warn check_compat =
  internal_get_package disable_uninstalled parse_package_file
    get_compat_package 2 st name warn check_compat.
Proof.
  change (internal_get_package _ _ _ (S (S depth)) st name warn check_compat)
    with
    (match packages st !! name with
     | Some pkg => mret (Some pkg, st)
     | None =>
         if ends_in_dotpc name then
           load_package parse_package_file get_compat_package st name
             (Some name) true warn check_compat
         else
           '(pkg, st) ←
             (if negb disable_uninstalled &&
                 negb (name_ends_in_uninstalled name)
              then internal_get_package disable_uninstalled
                     parse_package_file get_compat_package (S depth) st
                     (name +:+ "-uninstalled") false false
              else mret (None, st));
           match pkg with
           | Some pkg => mret (Some pkg, st)
           | None =>
               load_package parse_package_file get_compat_package st name
                 (locations st !! name) false warn check_compat
           end
     end).
  rewrite internal_get_package_variant. reflexivity.
Qed.

(** A name that ends in .pc is taken for the path of the descriptor
    whether or not the file exists: neither the uninstalled variant nor
    [locations] is consulted. *)
Lemma get_package_dotpc_is_path st name :
  ends_in_dotpc name = true ->
  packages st !! name = None ->
  get_package disable_uninstalled parse_package_file get_compat_package
    st name =
  load_package parse_package_file get_compat_package st name (Some name)
    true true true.
Proof.
  intros H1 H2. unfold get_package. simpl. now rewrite H2, H1.
Qed.

End ResolveFacts.

(** C5 (the code departs from it): no file x.pc exists, and [locations]
    maps the key x.pc to a descriptor that can be read.  [get_package]
    takes the name for a path all the same: it returns absent after the
    parser's report, without the uninstalled variant, without the lookup in
    [locations] (which finds the package) and without the "not found"
    diagnostic. *)
Theorem get_package_dotpc_missing_file :
  let run := Pkg.get_package false Fixtures.parse_only_x (fun _ => None) in
  run Fixtures.registry_with_x "x.pc" =
    ([Pkg.FailedToOpen "x.pc"], Done (None, Fixtures.registry_with_x)) /\
  Pkg.locations Fixtures.registry_with_x !! "x.pc" = Some "/d/x.pc.pc" /\
  (exists pkg st,
     Pkg.load_package Fixtures.parse_only_x (fun _ => None)
       Fixtures.registry_with_x "x.pc"
       (Pkg.locations Fixtures.registry_with_x !! "x.pc") false true true
     = ([], Done (Some pkg, st))) /\
  run Pkg.empty_registry "missing.pc" =
    ([Pkg.FailedToOpen "missing.pc"], Done (None, Pkg.empty_registry)).
Proof.
  repeat split; try (vm_compute; reflexivity).
  eexists _, _. vm_compute. reflexivity.
Qed.

(** ** Variables of several packages *)

Section VarFacts.
Import Pkg.

Lemma packages_get_var_buffer_empty globals pkgs varname :
  (forall pkg, pkg ∈ pkgs -> package_get_var globals pkg varname = None) ->
  packages_get_var_buffer globals pkgs varname = "".
Proof.
  unfold packages_get_var_buffer. generalize "" as str.
  induction pkgs as [|p pkgs IH]; intros str H; simpl; [reflexivity|].
  rewrite (H p) by (left). apply IH. intros pkg Hin. apply H. now right.
Qed.

(** Nothing appended: the chop writes at offset -1 and leaves the
    buffer. *)
Lemma packages_get_var_nothing_appended globals pkgs varname :
  (forall pkg, pkg ∈ pkgs -> package_get_var globals pkg varname = None) ->
  chop_index (packages_get_var_buffer globals pkgs varname) = -1 /\
  packages_get_var globals pkgs varname = abort.
Proof.
  intros H. unfold packages_get_var.
  rewrite (packages_get_var_buffer_empty _ _ _ H). split; reflexivity.
Qed.

End VarFacts.

(** C10 (the code departs from it): for the empty package list, and for a
    package that does not define the variable, nothing is appended to the
    buffer, [str->len - 1] is -1 and the chop writes before the buffer. *)
Theorem packages_get_var_chop_out_of_bounds :
  Pkg.chop_index (Pkg.packages_get_var_buffer None [] "prefix") = -1 /\
  Pkg.in_bounds (Pkg.packages_get_var_buffer None [] "prefix") (-1) = false /\
  Pkg.packages_get_var None [] "prefix" = ([], Aborted) /\
  Pkg.packages_get_var None [Fixtures.pkg_b] "prefix" = ([], Aborted).
Proof. repeat split; vm_compute; reflexivity. Qed.

(** ** The line reader *)

(** C8 (the code departs from it): outside a backslash escape a carriage
    return is an ordinary byte.  In a\rb\nc the line is a\rb; in a\r\nc the
    line is a\r, ended by the line feed alone; only \n and \n\r end a
    line. *)
Theorem read_one_line_carriage_return :
  let CR := String Parse.CR "" in
  let LF := String Parse.LF "" in
  (forall stream n_read str,
     Parse.read_loop (String Parse.CR stream) false false n_read str =
     Parse.read_loop stream false false (n_read + 1)
       (Parse.append_c str Parse.CR)) /\
  Parse.read_one_line ("a" +:+ CR +:+ "b" +:+ LF +:+ "c") =
    (true, "a" +:+ CR +:+ "b", "c") /\
  Parse.read_one_line ("a" +:+ CR +:+ LF +:+ "c") =
    (true, "a" +:+ CR, "c") /\
  Parse.read_one_line ("a" +:+ LF +:+ CR +:+ "c") = (true, "a", "c").
Proof. repeat split. Qed.

(** ** Module lists *)

Section ModuleListFacts.
Import Version Parse.
Variable cfg : Config.

Lemma is_nil_false_iff s : is_nil s = false <-> s <> "".
Proof. destruct s; simpl; split; congruence. Qed.

Lemma parse_module_entry_unknown pkg path item :
  is_nil (module_name item) = false ->
  is_nil (operator_token item) = false ->
  comparison_of_operator (operator_token item) = None ->
  parse_module_entry cfg pkg path item =
  ([UnknownOperator (operator_token item) (module_name item) path],
   if parse_strict cfg then Exited
   else Done (mkRequiredVersion (module_name item) ALWAYS_MATCH None
                (key pkg))).
Proof.
  intros Hn Ho Hc. unfold parse_module_entry. rewrite Hn, Ho. simpl negb.
  cbv iota. rewrite Hc. simpl.
  destruct (parse_strict cfg); reflexivity.
Qed.

(** An entry with a name is parsed to a [RequiredVersion], or the run
    exits with a diagnostic, which takes [parse_strict]. *)
Lemma parse_module_entry_cases pkg path item :
  is_nil (module_name item) = false ->
  (exists log ver, parse_module_entry cfg pkg path item = (log, Done ver)) \/
  (parse_strict cfg = true /\
   exists d, parse_module_entry cfg pkg path item = ([d], Exited)).
Proof.
  intros Hn. unfold parse_module_entry. rewrite Hn.
  match goal with
  | |- context [match ?k with Some _ => _ | None => _ end] => destruct k
  end.
  - match goal with
    | |- context [if ?c then _ else _] => destruct c
    end.
    + destruct (parse_strict cfg); simpl; eauto.
    + match goal with
      | |- context [if ?c then _ else _] => destruct c
      end; eauto.
  - destruct (parse_strict cfg); simpl; eauto.
Qed.

Lemma parse_module_entries_lax pkg path items listp :
  parse_strict cfg = false ->
  Forall (fun item => is_nil (module_name item) = false) items ->
  exists log l,
    parse_module_entries cfg pkg path items listp = (log, Done l) /\
    (forall ver, ver ∈ listp -> ver ∈ l) /\
    (forall item, item ∈ items ->
       is_nil (operator_token item) = false ->
       comparison_of_operator (operator_token item) = None ->
       UnknownOperator (operator_token item) (module_name item) path ∈ log /\
       mkRequiredVersion (module_name item) ALWAYS_MATCH None (key pkg) ∈ l).
Proof.
  intros Hlax Hne. revert listp.
  induction Hne as [|item items Hi Hne IH]; intros listp.
  - exists [], listp. split; [reflexivity|]. split; [auto|].
    intros item Hin. inversion Hin.
  - simpl.
    destruct (parse_module_entry_cases pkg path item Hi)
      as [(log1 & ver & E)|(Hs & _)]; [|congruence].
    destruct (IH (ver :: listp)) as (log2 & l & E2 & Hl & Hu).
    exists (log1 ++ log2), l. rewrite E. unfold mbind, exec_bind.
    rewrite E2. split; [reflexivity|]. split.
    + intros v Hv. apply Hl. now right.
    + intros it Hin Ho Hc. apply elem_of_cons in Hin as [->|Hin].
      * rewrite (parse_module_entry_unknown pkg path item Hi Ho Hc), Hlax in E.
        inversion E; subst. split.
        -- apply elem_of_app. left. left.
        -- apply Hl. left.
      * destruct (Hu it Hin Ho Hc) as [H1 H2]. split; [|exact H2].
        apply elem_of_app. now right.
Qed.

Lemma parse_module_entries_strict pkg path items listp item :
  parse_strict cfg = true ->
  Forall (fun item => is_nil (module_name item) = false) items ->
  item ∈ items ->
  is_nil (operator_token item) = false ->
  comparison_of_operator (operator_token item) = None ->
  exists log d,
    parse_module_entries cfg pkg path items listp = (log ++ [d], Exited).
Proof.
  intros Hs Hne Hin Ho Hc. revert listp.
  induction Hne as [|it items Hi Hne IH]; intros listp; [inversion Hin|].
  simpl.
  destruct (parse_module_entry_cases pkg path it Hi)
    as [(log1 & ver & E)|(_ & d & E)].
  - apply elem_of_cons in Hin as [->|Hin].
    + rewrite (parse_module_entry_unknown pkg path it Hi Ho Hc), Hs in E.
      discriminate E.
    + destruct (IH Hin (ver :: listp)) as (log2 & d & E2).
      exists (log1 ++ log2), d. rewrite E. unfold mbind, exec_bind.
      rewrite E2. now rewrite app_assoc.
  - exists [], d. rewrite E. reflexivity.
Qed.

(** The strings of the split list start with a byte that is not a
    separator: each has a name. *)
Lemma substring_not_nil str start len :
  (0 < len)%nat -> (start + len <= String.length str)%nat ->
  is_nil (String.substring start len str) = false /\
  peek (String.substring start len str) = char_at str start.
Proof.
  revert start len. induction str as [|c str IH]; intros start len H1 H2;
    simpl in H2; [lia|].
  destruct start as [|start]; simpl.
  - destruct len; [lia|]. split; reflexivity.
  - apply IH; lia.
Qed.

Lemma advance_step p str c rest :
  advance p str = String c rest ->
  advance (S p) str = rest /\ char_at str p = c.
Proof.
  revert str. induction p as [|p IH]; intros [|d str]; simpl;
    try discriminate.
  - intros H. inversion H. split; [now destruct rest|reflexivity].
  - intros H. apply IH in H. exact H.
Qed.

Lemma module_name_not_nil s :
  is_nil s = false -> isspace (peek s) = false ->
  is_nil (module_name s) = false.
Proof.
  destruct s as [|c s]; simpl; [discriminate|]. intros _ H.
  unfold module_name, not_space. simpl. now rewrite H.
Qed.

Lemma not_separator_not_space c :
  MODULE_SEPARATOR c = false -> isspace c = false.
Proof. unfold MODULE_SEPARATOR. now intros [_ H]%orb_false_iff. Qed.

Definition named (item : string) : Prop :=
  is_nil (module_name item) = false.

Definition module_open (str : string) (state : ModuleSplitState)
    (p start : nat) : Prop :=
  is_outside state = false ->
  (start < p)%nat /\ isspace (char_at str start) = false.

Lemma split_switch_start str state c rest p start state' start' :
  split_switch state c rest p start = Some (state', start') ->
  char_at str p = c ->
  module_open str state p start ->
  module_open str state' (S p) start' /\
  (is_outside state = false -> start' = start).
Proof.
  unfold module_open. intros H Hc Hs.
  destruct state; simpl in H;
    repeat match type of H with
           | (if ?c then _ else _) = _ => destruct c eqn:?
           end;
    inversion H; subst; simpl in *; split; intros;
      try discriminate; try reflexivity;
      try (destruct (Hs eq_refl); split; [lia|assumption]).
  split; [lia|]. apply not_separator_not_space.
  now apply negb_true_iff.
Qed.

Lemma split_loop_named str rest p start state retval log items :
  advance p str = rest ->
  (p + String.length rest = String.length str)%nat ->
  module_open str state p start ->
  Forall named retval ->
  split_loop str rest p start state state retval = (log, Done items) ->
  Forall named items.
Proof.
  revert p start state retval.
  induction rest as [|c rest IH]; intros p start state retval Ha Hp Hs Hr;
    simpl.
  - intros H. inversion H; subst. simpl in Hp.
    apply Forall_forall. intros x Hx.
    apply list_elem_of_In, in_rev, list_elem_of_In in Hx.
    destruct (is_outside state) eqn:E; simpl in Hx.
    + eapply Forall_forall in Hr; eauto.
    + apply elem_of_cons in Hx as [->|Hx].
      * destruct (Hs E) as [H1 H2].
        destruct (substring_not_nil str start (p - start)) as [N P];
          [lia|lia|].
        apply module_name_not_nil; [exact N|]. now rewrite P.
      * eapply Forall_forall in Hr; eauto.
  - simpl in Hp. apply advance_step in Ha as [Ha Hc].
    destruct (split_switch state c (String c rest) p start)
      as [[state' start']|] eqn:E; [|discriminate].
    destruct (split_switch_start str _ _ _ _ _ _ _ E Hc Hs) as [H1 H2].
    destruct (is_outside state' && negb (is_outside state)) eqn:B.
    + apply andb_true_iff in B as [B1 B2]. apply negb_true_iff in B2.
      apply IH; [exact Ha|lia|intros Ho; congruence|].
      constructor; [|exact Hr].
      rewrite (H2 B2). destruct (Hs B2) as [H3 H4].
      destruct (substring_not_nil str start (p - start)) as [N P];
        [lia|lia|].
      apply module_name_not_nil; [exact N|]. now rewrite P.
    + apply IH; [exact Ha|lia|exact H1|exact Hr].
Qed.

Lemma split_module_list_named str path log items :
  split_module_list str path = (log, Done items) ->
  Forall named items.
Proof.
  unfold split_module_list. apply split_loop_named.
  - reflexivity.
  - reflexivity.
  - intros H. discriminate H.
  - constructor.
Qed.

Lemma split_loop_log str rest p start state last retval log r :
  split_loop str rest p start state last retval = (log, r) -> log = [].
Proof.
  revert p start state last retval.
  induction rest as [|c rest IH]; intros p start state last retval; simpl.
  - intros H. now inversion H.
  - destruct (split_switch state c (String c rest) p start)
      as [[state' start']|]; [|intros H; now inversion H].
    destruct (_ && _); apply IH.
Qed.

End ModuleListFacts.

(** C7 (refuted as stated): in lax mode the entry foo == 1.0 stays in the
    list, as a requirement on foo that any version meets. *)
Lemma unknown_operator_entry_not_skipped :
  exists ver,
    Parse.parse_module_list (Parse.mkConfig false false "prefix" false)
      Fixtures.descriptor "foo == 1.0" "/d/a.pc" =
    ([Parse.UnknownOperator "==" "foo" "/d/a.pc"], Done [ver]) /\
    rv_name ver = "foo".
Proof. eexists. split; vm_compute; reflexivity. Qed.

(** C7 (amended): when an entry of a module list carries an operator token
    other than =, !=, <, <=, > and >=, parsing reports an error; under
    [parse_strict] the process exits; in lax mode the operator and the
    version of the entry are dropped and the module stays in the resulting
    list, as a [RequiredVersion] with comparison [ALWAYS_MATCH] and no
    version. *)
Theorem unknown_operator_keeps_module
    (cfg : Parse.Config) (pkg : Parse.Package)
    (listp : list RequiredVersion) (str path : string)
    (slog : list Parse.Diag) (items : list string) (item : string) :
  Parse.split_module_list str path = (slog, Done items) ->
  item ∈ items ->
  Parse.operator_token item <> "" ->
  Parse.comparison_of_operator (Parse.operator_token item) = None ->
  if Parse.parse_strict cfg
  then exists log d,
         Parse.do_parse_module_list cfg pkg listp str path =
         (log ++ [d], Exited)
  else exists log l,
         Parse.do_parse_module_list cfg pkg listp str path = (log, Done l) /\
         Parse.UnknownOperator (Parse.operator_token item)
           (Parse.module_name item) path ∈ log /\
         mkRequiredVersion (Parse.module_name item) Version.ALWAYS_MATCH
           None (Parse.key pkg) ∈ l.
Proof.
  intros Hsplit Hin Ho Hc.
  pose proof (split_module_list_named _ _ _ _ Hsplit) as Hne.
  assert (slog = []) as -> by (eapply split_loop_log; exact Hsplit).
  apply is_nil_false_iff in Ho.
  unfold Parse.do_parse_module_list. rewrite Hsplit.
  destruct (Parse.parse_strict cfg) eqn:Hs.
  - destruct (parse_module_entries_strict cfg pkg path items listp item
                Hs Hne Hin Ho Hc) as (log & d & E).
    exists log, d. unfold mbind, exec_bind. rewrite E. reflexivity.
  - destruct (parse_module_entries_lax cfg pkg path items listp Hs Hne)
      as (log & l & E & _ & Hu).
    exists log, l. unfold mbind, exec_bind. rewrite E.
    split; [reflexivity|]. apply Hu; assumption.
Qed.

(** The amended C7 at the list [bar, foo == 1.0] in lax mode. *)
Lemma unknown_operator_keeps_module_witness :
  exists log l,
    Parse.do_parse_module_list (Parse.mkConfig false false "prefix" false)
      Fixtures.descriptor [] "bar, foo == 1.0" "/d/a.pc" = (log, Done l) /\
    Parse.UnknownOperator "==" "foo" "/d/a.pc" ∈ log /\
    mkRequiredVersion "foo" Version.ALWAYS_MATCH None (Some "a") ∈ l.
Proof.
  apply (unknown_operator_keeps_module
           (Parse.mkConfig false false "prefix" false) Fixtures.descriptor []
           "bar, foo == 1.0" "/d/a.pc" [] ["bar"; "foo == 1.0"]
           "foo == 1.0").
  - vm_compute. reflexivity.
  - right. left.
  - vm_compute. discriminate.
  - vm_compute. reflexivity.
Defined.

(** ** Fields that occur twice *)

Section FieldFacts.
Import Parse.
Variable cfg : Config.
Variable globals : option (gmap string string).
Variable g_shell_parse_argv : string -> option (list string).

(** Name, Version, Description and URL: the second occurrence is reported,
    fatal under [parse_strict], dropped otherwise. *)
Lemma scalar_field_twice pkg str path :
  (is_Some (name pkg) ->
   parse_name cfg globals pkg str path =
   ([FieldOccursTwice "Name" path],
    if parse_strict cfg then Exited else Done pkg)) /\
  (is_Some (version pkg) ->
   parse_version cfg globals pkg str path =
   ([FieldOccursTwice "Version" path],
    if parse_strict cfg then Exited else Done pkg)) /\
  (is_Some (description pkg) ->
   parse_description cfg globals pkg str path =
   ([FieldOccursTwice "Description" path],
    if parse_strict cfg then Exited else Done pkg)) /\
  (is_Some (url pkg) ->
   parse_url cfg globals pkg str path =
   ([FieldOccursTwice "URL" path],
    if parse_strict cfg then Exited else Done pkg)) /\
  (cflags pkg <> [] ->
   parse_cflags cfg globals g_shell_parse_argv pkg str path =
   ([FieldOccursTwice "Cflags" path],
    if parse_strict cfg then Exited else Done pkg)).
Proof.
  unfold parse_name, parse_version, parse_description, parse_url,
    parse_cflags, occurs_twice.
  repeat split.
  1-4: intros [v ->]; destruct (parse_strict cfg); reflexivity.
  intros H. destruct (cflags pkg); [congruence|].
  destruct (parse_strict cfg); reflexivity.
Qed.

(** The entries of a module list are put in front of whatever the list
    holds: [parse_deps] does not look at it. *)
Lemma parse_module_entries_prepends pkg path items listp :
  parse_module_entries cfg pkg path items listp =
  match parse_module_entries cfg pkg path items [] with
  | (log, Done l) => (log, Done (l ++ listp))
  | (log, Exited) => (log, Exited)
  | (log, Aborted) => (log, Aborted)
  end.
Proof.
  revert listp. induction items as [|item items IH]; intros listp; simpl.
  - reflexivity.
  - destruct (parse_module_entry cfg pkg path item) as [log1 [ver| |]];
      unfold mbind, exec_bind; try reflexivity.
    rewrite (IH (ver :: listp)), (IH [ver]).
    destruct (parse_module_entries cfg pkg path items []) as [log2 [l| |]];
      try reflexivity.
    now rewrite <- app_assoc.
Qed.

End FieldFacts.

(** C6 (the code departs from it): under [parse_strict] a descriptor with
    two Requires lines is parsed without any diagnostic and the entries of
    both lines are kept; Requires.private, Conflicts, Libs and Libs.private
    behave alike. *)
Theorem second_requires_not_diagnosed :
  (forall g_shell_parse_argv g_path_get_basename g_path_get_dirname,
   exists pkg,
     Parse.parse_package_file Fixtures.strict None g_shell_parse_argv
       g_path_get_basename g_path_get_dirname
       (fun _ => Some Fixtures.two_requires) "a" "/d/a.pc" =
     ([], Done (Some pkg)) /\
     Parse.requires_entries pkg =
     [mkRequiredVersion "b" Version.ALWAYS_MATCH None (Some "a");
      mkRequiredVersion "c" Version.GREATER_THAN_EQUAL (Some "2")
        (Some "a")]) /\
  (forall g_shell_parse_argv g_path_get_basename g_path_get_dirname,
   exists pkg,
     Parse.parse_lines Fixtures.strict None g_shell_parse_argv
       g_path_get_basename g_path_get_dirname Fixtures.descriptor
       ["Requires.private: b"; "Requires.private: c";
        "Conflicts: d"; "Conflicts: e < 1"] "/d/a.pc" =
     ([], Done pkg) /\
     map rv_name (Parse.requires_private_entries pkg) = ["c"; "b"] /\
     map rv_name (Parse.conflicts pkg) = ["e"; "d"]) /\
  (forall g_path_get_basename g_path_get_dirname,
   exists pkg,
     Parse.parse_lines Fixtures.strict None Fixtures.one_word
       g_path_get_basename g_path_get_dirname Fixtures.descriptor
       ["Libs: -la"; "Libs: -lb";
        "Libs.private: -lc"; "Libs.private: -ld"] "/d/a.pc" =
     ([], Done pkg) /\
     map Parse.arg (Parse.libs pkg) = ["-lb"; "-la"] /\
     map Parse.arg (Parse.libs_private pkg) = ["-ld"; "-lc"]).
Proof.
  repeat split; intros; eexists; repeat split; vm_compute; reflexivity.
Qed.

(** * Further properties *)

(** ** Numbers in versions *)

Section NumericFacts.
Import Version Notions.

Lemma code_inj c d : code c = code d -> c = d.
Proof.
  unfold code. intros H. apply N2Z.inj in H.
  rewrite <- (ascii_N_embedding c), <- (ascii_N_embedding d). now rewrite H.
Qed.

Lemma ascii_eqb_code c d : Ascii.eqb c d = false -> code c <> code d.
Proof.
  intros H E. apply code_inj in E. subst. now rewrite Ascii.eqb_refl in H.
Qed.

Lemma all_chars_span f s :
  all_chars f s = true -> span_while f s = s /\ skip_while f s = "".
Proof.
  induction s as [|c s IH]; simpl; [auto|].
  intros [Hc Hs]%andb_true_iff. rewrite Hc. destruct (IH Hs) as [-> ->].
  auto.
Qed.

Lemma all_chars_skip f g s :
  all_chars f s = true -> all_chars f (skip_while g s) = true.
Proof.
  induction s as [|c s IH]; simpl; [auto|].
  intros H. destruct (g c); [|exact H].
  apply andb_true_iff in H as [_ H]. auto.
Qed.

Lemma digit_range c : isdigit c = true -> 0 <= code c - 48 <= 9.
Proof.
  unfold isdigit. intros [H1 H2]%andb_true_iff.
  apply Z.leb_le in H1, H2. lia.
Qed.

Lemma digits_value_bound s :
  all_chars isdigit s = true ->
  0 <= digits_value s < 10 ^ Z.of_nat (String.length s).
Proof.
  induction s as [|c s IH]; simpl String.length; simpl digits_value.
  - intros _. simpl. lia.
  - simpl all_chars. intros [Hc Hs]%andb_true_iff.
    specialize (IH Hs). apply digit_range in Hc.
    rewrite Nat2Z.inj_succ, Z.pow_succ_r by lia. nia.
Qed.

Lemma digits_value_strip s :
  digits_value (skip_while is_zero_digit s) = digits_value s.
Proof.
  induction s as [|c s IH]; [reflexivity|]. simpl skip_while.
  unfold is_zero_digit at 1. destruct (Ascii.eqb_spec c "0"%char) as [->|H].
  - rewrite IH. simpl digits_value. change (code "0" - 48) with 0. lia.
  - reflexivity.
Qed.

(** A digit string without leading zeros is at least the power of ten of
    its length less one. *)
Lemma digits_value_lower s :
  all_chars isdigit s = true ->
  is_nil (skip_while is_zero_digit s) = false ->
  10 ^ (Z.of_nat (String.length (skip_while is_zero_digit s)) - 1) <=
  digits_value s.
Proof.
  rewrite <- (digits_value_strip s).
  intros Hd%(all_chars_skip _ is_zero_digit).
  pose proof (@eq_refl _ (skip_while is_zero_digit s)) as E.
  revert E Hd. generalize (skip_while is_zero_digit s) at 1 3 4 5 6 as t.
  intros [|c t] E Hd Hn; [discriminate|].
  simpl all_chars in Hd. apply andb_true_iff in Hd as [Hc Ht].
  assert (c <> "0"%char) as Hz.
  { intros ->. clear -E.
    induction s as [|d s IH]; simpl in E; [discriminate|].
    unfold is_zero_digit in E at 1.
    destruct (Ascii.eqb_spec d "0"%char); [auto|]. congruence. }
  simpl String.length. simpl digits_value.
  rewrite Nat2Z.inj_succ.
  replace (Z.succ (Z.of_nat (String.length t)) - 1)
    with (Z.of_nat (String.length t)) by lia.
  pose proof (digits_value_bound t Ht) as B.
  pose proof (digit_range c Hc) as R.
  assert (code c <> 48).
  { intros Hc48. apply Hz. apply code_inj. exact Hc48. }
  nia.
Qed.

Lemma strcmp_digits_value a b :
  all_chars isdigit a = true -> all_chars isdigit b = true ->
  String.length a = String.length b ->
  Z.sgn (strcmp a b) = Z.sgn (digits_value a - digits_value b).
Proof.
  revert b. induction a as [|c a IH]; intros [|d b]; simpl String.length;
    try discriminate; [reflexivity|].
  simpl all_chars. intros [Hc Ha]%andb_true_iff [Hd Hb]%andb_true_iff L.
  injection L as L. simpl strcmp. simpl digits_value. rewrite <- L.
  pose proof (digits_value_bound a Ha) as Ba.
  pose proof (digits_value_bound b Hb) as Bb. rewrite <- L in Bb.
  destruct (Ascii.eqb_spec c d) as [->|Hne].
  - rewrite (IH b Ha Hb L). f_equal. lia.
  - assert (code c <> code d) by (intros E; apply Hne, code_inj, E).
    apply digit_range in Hc, Hd.
    set (p := 10 ^ Z.of_nat (String.length a)) in *.
    destruct (Z.lt_total (code c) (code d)) as [Hlt|[Heq|Hgt]]; [|lia|].
    + rewrite !Z.sgn_neg; [reflexivity| nia | lia].
    + rewrite !Z.sgn_pos; [reflexivity| nia | lia].
Qed.

Lemma strcmp_zero_digits a b :
  all_chars isdigit a = true -> all_chars isdigit b = true ->
  strcmp a b = 0 -> a = b.
Proof.
  revert b. induction a as [|c a IH]; intros [|d b]; simpl;
    try reflexivity.
  - intros _ [Hd _]%andb_true_iff H. apply digit_range in Hd. lia.
  - intros [Hc _]%andb_true_iff _ H. apply digit_range in Hc. lia.
  - intros [Hc Ha]%andb_true_iff [Hd Hb]%andb_true_iff.
    destruct (Ascii.eqb_spec c d) as [->|Hne].
    + intros H. f_equal. now apply IH.
    + intros H. exfalso. apply Hne, code_inj. lia.
Qed.

Lemma rpmvercmp_loop_digits a b :
  is_nil a = false -> is_nil b = false ->
  all_chars isdigit a = true -> all_chars isdigit b = true ->
  Z.sgn (rpmvercmp_loop a b) = Z.sgn (digits_value a - digits_value b).
Proof.
  intros Na Nb Da Db.
  rewrite rpmvercmp_loop_equation. unfold rpmvercmp_step.
  rewrite Na, Nb. simpl orb. cbv iota.
  assert (Sa : skip_while (fun c => negb (isalnum c)) a = a).
  { destruct a as [|c a]; [discriminate|]. simpl in *.
    apply andb_true_iff in Da as [Hc _]. unfold isalnum. rewrite Hc.
    now rewrite orb_true_r. }
  assert (Sb : skip_while (fun c => negb (isalnum c)) b = b).
  { destruct b as [|c b]; [discriminate|]. simpl in *.
    apply andb_true_iff in Db as [Hc _]. unfold isalnum. rewrite Hc.
    now rewrite orb_true_r. }
  rewrite Sa, Sb.
  assert (Pa : isdigit (peek a) = true).
  { destruct a; [discriminate|]. simpl in *.
    now apply andb_true_iff in Da as [Hc _]. }
  rewrite Pa.
  destruct (all_chars_span _ _ Da) as [-> ->].
  destruct (all_chars_span _ _ Db) as [-> ->].
  rewrite Na, Nb. simpl andb.
  set (s1 := skip_while is_zero_digit a).
  set (s2 := skip_while is_zero_digit b).
  pose proof (all_chars_skip isdigit is_zero_digit a Da) as D1.
  pose proof (all_chars_skip isdigit is_zero_digit b Db) as D2.
  fold s1 in D1. fold s2 in D2.
  pose proof (digits_value_bound s1 D1) as B1.
  pose proof (digits_value_bound s2 D2) as B2.
  pose proof (digits_value_strip a) as V1. fold s1 in V1.
  pose proof (digits_value_strip b) as V2. fold s2 in V2.
  unfold strlen.
  destruct (Z.ltb_spec (Z.of_nat (String.length s2))
              (Z.of_nat (String.length s1))) as [L|L].
  - (* more digits on the left *)
    assert (N1 : is_nil s1 = false) by (destruct s1; [simpl in L; lia|auto]).
    pose proof (digits_value_lower a Da N1) as Lo. fold s1 in Lo.
    assert (10 ^ Z.of_nat (String.length s2) <=
            10 ^ (Z.of_nat (String.length s1) - 1))
      by (apply Z.pow_le_mono_r; lia).
    simpl Z.sgn. symmetry. apply Z.sgn_pos. lia.
  - destruct (Z.ltb_spec (Z.of_nat (String.length s1))
                (Z.of_nat (String.length s2))) as [L'|L'].
    + assert (N2 : is_nil s2 = false)
        by (destruct s2; [simpl in L'; lia|auto]).
      pose proof (digits_value_lower b Db N2) as Lo. fold s2 in Lo.
      assert (10 ^ Z.of_nat (String.length s1) <=
              10 ^ (Z.of_nat (String.length s2) - 1))
        by (apply Z.pow_le_mono_r; lia).
      simpl Z.sgn. symmetry. apply Z.sgn_neg. lia.
    + assert (E : String.length s1 = String.length s2) by lia.
      pose proof (strcmp_digits_value s1 s2 D1 D2 E) as C.
      destruct (Z.eqb_spec (strcmp s1 s2) 0) as [Z0|Z0]; simpl negb;
        cbv iota.
      * rewrite rpmvercmp_loop_equation. simpl.
        rewrite (strcmp_zero_digits s1 s2 D1 D2 Z0) in V1. f_equal. lia.
      * rewrite C. f_equal. lia.
Qed.

End NumericFacts.

(** X1: two versions that are plain numbers compare by the numbers they
    denote, whatever their length and their leading zeros. *)
Theorem compare_versions_numbers (a b : string) :
  a <> "" -> b <> "" ->
  Notions.all_chars isdigit a = true ->
  Notions.all_chars isdigit b = true ->
  Z.sgn (Version.compare_versions a b) =
  Z.sgn (Notions.digits_value a - Notions.digits_value b).
Proof.
  intros Na Nb Da Db.
  unfold Version.compare_versions, Version.rpmvercmp.
  destruct (Z.eqb_spec (strcmp a b) 0) as [E|E].
  - rewrite (strcmp_zero_digits a b Da Db E). now rewrite Z.sub_diag.
  - apply rpmvercmp_loop_digits; try assumption;
      apply is_nil_false_iff; assumption.
Qed.

Lemma compare_versions_numbers_witness :
  Z.sgn (Version.compare_versions "0100000000000000000000" "99") =
  Z.sgn (Notions.digits_value "0100000000000000000000" -
         Notions.digits_value "99").
Proof.
  apply (compare_versions_numbers "0100000000000000000000" "99");
    [discriminate|discriminate|reflexivity|reflexivity].
Defined.

(** ** The version predicate with the sides swapped *)

Lemma compare_versions_swap (a b : string) :
  mirrored (Version.compare_versions a b) (Version.compare_versions b a).
Proof.
  unfold Version.compare_versions, Version.rpmvercmp.
  rewrite (strcmp_swap a b).
  destruct (Z.eqb_spec (strcmp a b) 0) as [E|E].
  - rewrite E. simpl. left. reflexivity.
  - destruct (Z.eqb_spec (- strcmp a b) 0); [lia|].
    apply rpmvercmp_loop_swap.
Qed.

(** X2: a version that tests greater than another has the other test less
    than it, one that tests at least the other has the other test at most
    it, and equality and inequality do not depend on the side. *)
Theorem version_test_swap (a b : string) :
  (Version.version_test Version.GREATER_THAN a b = true ->
   Version.version_test Version.LESS_THAN b a = true) /\
  (Version.version_test Version.GREATER_THAN_EQUAL a b = true ->
   Version.version_test Version.LESS_THAN_EQUAL b a = true) /\
  Version.version_test Version.EQUAL a b =
  Version.version_test Version.EQUAL b a /\
  Version.version_test Version.NOT_EQUAL a b =
  Version.version_test Version.NOT_EQUAL b a.
Proof.
  unfold Version.version_test.
  pose proof (compare_versions_swap a b) as M. unfold mirrored in M.
  generalize dependent (Version.compare_versions b a).
  generalize (Version.compare_versions a b).
  intros x y M.
  repeat split.
  - intros H. apply Z.gtb_lt in H. apply Z.ltb_lt.
    destruct M as [M|[M1 M2]]; lia.
  - intros H. apply Z.geb_le in H. apply Z.leb_le.
    destruct M as [M|[M1 M2]]; lia.
  - destruct M as [M|[-> ->]]; [|reflexivity].
    destruct (Z.eqb_spec x 0), (Z.eqb_spec y 0); try reflexivity; lia.
  - destruct M as [M|[-> ->]]; [|reflexivity].
    destruct (Z.eqb_spec x 0), (Z.eqb_spec y 0); try reflexivity; lia.
Qed.

(** ** What de-duplication keeps *)

Section DedupMore.
Import Pkg MergerSpec.

Lemma keep_first_NoDup (l : list string) : NoDup (keep_first_occurrences l).
Proof.
  induction l as [|x l IH] using rev_ind; [constructor|].
  rewrite keep_first_snoc. destruct (decide (x ∈ l)) as [H|H].
  - now rewrite app_nil_r.
  - apply NoDup_app. split; [exact IH|]. split; [|apply NoDup_singleton].
    intros y Hy Hx. apply list_elem_of_singleton in Hx as ->.
    apply H. now apply keep_first_elem.
Qed.

Lemma keep_first_id (l : list string) :
  NoDup l -> keep_first_occurrences l = l.
Proof.
  induction l as [|x l IH] using rev_ind; [reflexivity|].
  intros [Hl [Hx _]]%NoDup_app. rewrite keep_first_snoc, (IH Hl).
  destruct (decide (x ∈ l)) as [H|H]; [|reflexivity].
  exfalso. apply (Hx x H). left.
Qed.

Lemma elem_of_rev (l : list string) x : x ∈ rev l <-> x ∈ l.
Proof. rewrite !list_elem_of_In. symmetry. apply in_rev. Qed.

Lemma keep_last_elem (l : list string) x :
  x ∈ keep_last_occurrences l <-> x ∈ l.
Proof.
  now rewrite keep_last_rev, elem_of_rev, keep_first_elem, elem_of_rev.
Qed.

Lemma NoDup_rev_iff (l : list string) : NoDup (rev l) <-> NoDup l.
Proof.
  rewrite !NoDup_ListNoDup. split; intros H.
  - rewrite <- (rev_involutive l). now apply List.NoDup_rev.
  - now apply List.NoDup_rev.
Qed.

Lemma keep_last_NoDup (l : list string) : NoDup (keep_last_occurrences l).
Proof. rewrite keep_last_rev. apply NoDup_rev_iff, keep_first_NoDup. Qed.

Lemma keep_last_id (l : list string) :
  NoDup l -> keep_last_occurrences l = l.
Proof.
  intros H. rewrite keep_last_rev, keep_first_id, rev_involutive;
    [reflexivity|]. now apply NoDup_rev_iff.
Qed.

End DedupMore.

(** X3: both strip functions return a list without repetition that holds
    exactly the strings of the input; a list without repetition comes back
    unchanged, so stripping twice is stripping once. *)
Theorem strip_duplicates_sound (l : list string) :
  (NoDup (Pkg.string_list_strip_duplicates l) /\
   NoDup (Pkg.string_list_strip_duplicates_from_back l)) /\
  (forall x, x ∈ Pkg.string_list_strip_duplicates l <-> x ∈ l) /\
  (forall x, x ∈ Pkg.string_list_strip_duplicates_from_back l <-> x ∈ l) /\
  (NoDup l ->
   Pkg.string_list_strip_duplicates l = l /\
   Pkg.string_list_strip_duplicates_from_back l = l) /\
  Pkg.string_list_strip_duplicates (Pkg.string_list_strip_duplicates l) =
  Pkg.string_list_strip_duplicates l /\
  Pkg.string_list_strip_duplicates_from_back
    (Pkg.string_list_strip_duplicates_from_back l) =
  Pkg.string_list_strip_duplicates_from_back l.
Proof.
  rewrite !string_list_strip_duplicates_spec,
    !string_list_strip_duplicates_from_back_spec.
  repeat split.
  - apply keep_first_NoDup.
  - apply keep_last_NoDup.
  - apply keep_first_elem.
  - apply keep_first_elem.
  - apply keep_last_elem.
  - apply keep_last_elem.
  - now apply keep_first_id.
  - now apply keep_last_id.
  - apply keep_first_id, keep_first_NoDup.
  - apply keep_last_id, keep_last_NoDup.
Qed.

(** ** The transitive walk *)

Section WalkFacts.
Import Pkg.

Lemma Package_requires_ind (P : Package -> Prop) :
  (forall pkg, Forall P (requires pkg) -> P pkg) -> forall pkg, P pkg.
Proof.
  intros H. fix IH 1. intros pkg. apply H.
  destruct pkg as [? ? ? ? reqs ? ? ? ? ? ? ? ? ? ? ? ? ?]. simpl.
  induction reqs as [|r reqs IHr]; constructor; [apply IH|exact IHr].
Qed.

Lemma recursive_fill_list_unfold {A} (pkg : Package)
    (func : Package -> list A) (listp : list A) :
  recursive_fill_list pkg func listp =
  fold_left (fun listp req => recursive_fill_list req func listp)
            (requires pkg) (listp ++ func pkg).
Proof. destruct pkg. reflexivity. Qed.

Lemma fold_walk {A} (func : Package -> list A) (reqs : list Package) :
  Forall (fun req => forall listp,
            recursive_fill_list req func listp =
            listp ++ recursive_fill_list req func []) reqs ->
  forall listp,
    fold_left (fun listp req => recursive_fill_list req func listp) reqs listp
    = listp ++ concat (map (fun req => recursive_fill_list req func []) reqs).
Proof.
  induction 1 as [|r reqs Hr _ IH]; intros listp; simpl.
  - now rewrite app_nil_r.
  - rewrite IH, Hr, <- app_assoc. reflexivity.
Qed.

Lemma recursive_fill_list_appends {A} (func : Package -> list A) pkg :
  forall listp,
    recursive_fill_list pkg func listp =
    listp ++ recursive_fill_list pkg func [].
Proof.
  induction pkg as [pkg IH] using Package_requires_ind. intros listp.
  rewrite (recursive_fill_list_unfold pkg func listp),
    (recursive_fill_list_unfold pkg func []).
  rewrite !(fold_walk func _ IH). simpl. now rewrite <- app_assoc.
Qed.

End WalkFacts.

(** X4: the walk is depth first and in pre-order: it appends to the list
    it is given the entries of the package itself, then the whole walk of
    each requirement, in the order of [requires]. *)
Theorem recursive_fill_list_preorder {A : Type} (pkg : Pkg.Package)
    (func : Pkg.Package -> list A) (listp : list A) :
  Pkg.recursive_fill_list pkg func listp =
  listp ++ func pkg ++
  concat (map (fun req => Pkg.recursive_fill_list req func [])
              (Pkg.requires pkg)).
Proof.
  rewrite recursive_fill_list_unfold, fold_walk.
  - now rewrite <- app_assoc.
  - apply Forall_forall. intros req _ l.
    apply recursive_fill_list_appends.
Qed.

(** ** What a verified package is *)

Section VerifyMore.
Import Version Pkg Notions.

Lemma terse_bind {A B} (m : Exec Diag A) (f : A -> Exec Diag B) :
  terse m -> (forall a, terse (f a)) -> terse (m ≫= f).
Proof.
  destruct m as [log [a| |]]; unfold mbind, exec_bind; simpl; auto.
  intros -> H. specialize (H a). destruct (f a) as [l r]. exact H.
Qed.

Lemma terse_report {A} (d : Diag) :
  terse (verbose_error d ;; (exit1 : Exec Diag A)).
Proof. simpl. eauto. Qed.

Lemma terse_version_test_ptr c a b : terse (version_test_ptr c a b).
Proof.
  destruct (version_test_ptr_cases c a b) as [-> | [-> | ->]]; reflexivity.
Qed.

Lemma terse_verify_requires pkg iter : terse (verify_requires pkg iter).
Proof.
  induction iter as [|req iter IH]; [reflexivity|].
  cbn [verify_requires]. apply terse_bind.
  - destruct (required_versions pkg), (key req); reflexivity.
  - intros [ver|]; [|exact IH]. apply terse_bind.
    + apply terse_version_test_ptr.
    + intros [|]; [exact IH|apply terse_report].
Qed.

Lemma terse_verify_conflicts_inner req conflicts :
  terse (verify_conflicts_inner req conflicts).
Proof.
  induction conflicts as [|ver conflicts IH]; [reflexivity|].
  cbn [verify_conflicts_inner]. apply terse_bind.
  - apply terse_version_test_ptr.
  - intros [|]; [apply terse_report|exact IH].
Qed.

Lemma terse_verify_conflicts requires conflicts :
  terse (verify_conflicts requires conflicts).
Proof.
  induction requires as [|req requires IH]; [reflexivity|].
  cbn [verify_conflicts]. apply terse_bind.
  - apply terse_verify_conflicts_inner.
  - intros _. exact IH.
Qed.

Lemma terse_verify_package pkg : terse (verify_package pkg).
Proof.
  unfold verify_package.
  repeat match goal with
         | |- terse (if ?c then _ else _) =>
             destruct c; [apply terse_report|]
         end.
  apply terse_bind; [apply terse_verify_requires|].
  intros _. apply terse_verify_conflicts.
Qed.

Lemma verify_requires_done pkg iter log :
  verify_requires pkg iter = (log, Done tt) ->
  forall req tbl k ver,
    req ∈ iter -> required_versions pkg = Some tbl -> key req = Some k ->
    tbl !! k = Some ver ->
    version_test_ptr (comparison ver) (version req) (rv_version ver) =
    mret true.
Proof.
  revert log. induction iter as [|r iter IH]; intros log H req tbl k ver Hin;
    [inversion Hin|].
  cbn [verify_requires] in H.
  apply exec_bind_done in H as (l1 & ov & l2 & H1 & H2 & _).
  intros Ht Hk Hv.
  assert (Hov : r = req -> ov = Some ver).
  { intros ->. rewrite Ht, Hk in H1. unfold mret, exec_ret in H1.
    congruence. }
  assert (Tail : exists l, verify_requires pkg iter = (l, Done tt) /\
            (r = req -> version_test_ptr (comparison ver) (version req)
                          (rv_version ver) = mret true)).
  { destruct ov as [v|].
    - apply exec_bind_done in H2 as (l3 & ok & l4 & H3 & H4 & _).
      destruct ok; simpl in H4; [|discriminate H4].
      eexists. split; [exact H4|]. intros E.
      specialize (Hov E). injection Hov as ->. subst r.
      destruct (version_test_ptr_cases (comparison ver) (version req)
                  (rv_version ver)) as [E|[E|E]];
        rewrite E in H3; [exact E|discriminate H3|discriminate H3].
    - eexists. split; [exact H2|]. intros E.
      specialize (Hov E). discriminate Hov. }
  destruct Tail as (l & T & Hd).
  apply elem_of_cons in Hin as [->|Hin]; [now apply Hd|].
  eapply IH; eauto.
Qed.

End VerifyMore.

(** X5: [verify_package] is silent when it succeeds, exits on exactly one
    diagnostic when it fails, and says nothing when it crashes. *)
Theorem verify_package_one_diagnostic (pkg : Pkg.Package) :
  match Pkg.verify_package pkg with
  | (log, Done _) => log = []
  | (log, Exited) => exists d, log = [d]
  | (log, Aborted) => log = []
  end.
Proof. apply terse_verify_package. Qed.

(** X6: a package that [verify_package] accepts has a key, a name, a
    version and a description; every requirement that has an entry in
    [required_versions] under its key meets it; and the version predicate of
    no transitive conflict accepts the version of a transitive
    requirement. *)
Theorem verify_package_accepts (pkg : Pkg.Package) (log : list Pkg.Diag) :
  Pkg.verify_package pkg = (log, Done tt) ->
  (is_Some (Pkg.key pkg) /\ is_Some (Pkg.name pkg) /\
   is_Some (Pkg.version pkg) /\ is_Some (Pkg.description pkg)) /\
  (forall req tbl k ver,
     req ∈ Pkg.requires pkg ->
     Pkg.required_versions pkg = Some tbl ->
     Pkg.key req = Some k ->
     tbl !! k = Some ver ->
     Pkg.version_test_ptr (comparison ver) (Pkg.version req)
       (rv_version ver) = mret true) /\
  (forall req ver,
     req ∈ Pkg.recursive_fill_list pkg Pkg.get_requires [] ->
     ver ∈ Pkg.recursive_fill_list pkg Pkg.get_conflicts [] ->
     Pkg.version_test_ptr (comparison ver) (Pkg.version req)
       (rv_version ver) = mret false).
Proof.
  intros H. split; [|split].
  - unfold Pkg.verify_package in H.
    destruct (Pkg.key pkg), (Pkg.name pkg), (Pkg.version pkg),
      (Pkg.description pkg); try discriminate H.
    repeat split; eauto.
  - unfold Pkg.verify_package in H.
    repeat match type of H with
           | (if ?c then _ else _) = _ => destruct c; [discriminate H|]
           end.
    apply exec_bind_done in H as (l1 & [] & l2 & H1 & _ & _).
    intros req tbl k ver. eapply verify_requires_done. exact H1.
  - eapply verify_package_done_no_conflict. exact H.
Qed.

Lemma verify_package_accepts_witness :
  (is_Some (Pkg.key MoreFixtures.pkg_c) /\
   is_Some (Pkg.name MoreFixtures.pkg_c) /\
   is_Some (Pkg.version MoreFixtures.pkg_c) /\
   is_Some (Pkg.description MoreFixtures.pkg_c)) /\
  (forall req tbl k ver,
     req ∈ Pkg.requires MoreFixtures.pkg_c ->
     Pkg.required_versions MoreFixtures.pkg_c = Some tbl ->
     Pkg.key req = Some k ->
     tbl !! k = Some ver ->
     Pkg.version_test_ptr (comparison ver) (Pkg.version req)
       (rv_version ver) = mret true) /\
  (forall req ver,
     req ∈ Pkg.recursive_fill_list MoreFixtures.pkg_c Pkg.get_requires [] ->
     ver ∈ Pkg.recursive_fill_list MoreFixtures.pkg_c Pkg.get_conflicts [] ->
     Pkg.version_test_ptr (comparison ver) (Pkg.version req)
       (rv_version ver) = mret false).
Proof.
  apply (verify_package_accepts MoreFixtures.pkg_c []).
  vm_compute. reflexivity.
Defined.

(** ** Resolution of a name *)

Section ResolveMore.
Import Pkg.
Variable disable_uninstalled : bool.
Variable parse_package_file :
  Registry -> string -> Exec Diag (option Package * Registry).
Variable get_compat_package : string -> option Package.

Lemma uninstalled_variant_absent st name :
  packages st !! (name +:+ "-uninstalled") = None ->
  locations st !! (name +:+ "-uninstalled") = None ->
  internal_get_package disable_uninstalled parse_package_file
    get_compat_package 1 st (name +:+ "-uninstalled") false false =
  ([], Done (None, st)).
Proof.
  intros Hp Hl. simpl. rewrite Hp, ends_in_dotpc_variant,
    name_ends_in_uninstalled_variant, andb_false_r.
  unfold mbind, exec_bind, mret, exec_ret. simpl.
  unfold load_package. rewrite Hl. reflexivity.
Qed.

Lemma internal_get_package_S depth st name warn check_compat :
  internal_get_package disable_uninstalled parse_package_file
    get_compat_package (S depth) st name warn check_compat =
  match packages st !! name with
  | Some pkg => mret (Some pkg, st)
  | None =>
      if ends_in_dotpc name then
        load_package parse_package_file get_compat_package st name
          (Some name) true warn check_compat
      else
        '(pkg, st) ←
          (if negb disable_uninstalled &&
              negb (name_ends_in_uninstalled name)
           then internal_get_package disable_uninstalled
                  parse_package_file get_compat_package depth st
                  (name +:+ "-uninstalled") false false
           else mret (None, st));
        match pkg with
        | Some pkg => mret (Some pkg, st)
        | None =>
            load_package parse_package_file get_compat_package st name
              (locations st !! name) false warn check_compat
        end
  end.
Proof. reflexivity. Qed.

End ResolveMore.

(** X7: a name that is not a path, that neither [packages] nor [locations]
    knows, with or without the suffix -uninstalled, and that the fallback
    does not know either, is reported not found once, under the name asked
    for; the parser is not called and the registry is unchanged. *)
Theorem get_package_not_found
    (disable_uninstalled : bool)
    (parse_package_file :
       Pkg.Registry -> string ->
       Exec Pkg.Diag (option Pkg.Package * Pkg.Registry))
    (get_compat_package : string -> option Pkg.Package)
    (st : Pkg.Registry) (name : string) :
  Pkg.ends_in_dotpc name = false ->
  Pkg.packages st !! name = None ->
  Pkg.packages st !! (name +:+ "-uninstalled") = None ->
  Pkg.locations st !! name = None ->
  Pkg.locations st !! (name +:+ "-uninstalled") = None ->
  get_compat_package name = None ->
  Pkg.get_package disable_uninstalled parse_package_file get_compat_package
    st name =
  ([Pkg.PackageNotFound name], Done (None, st)).
Proof.
  intros Hd Hp Hpu Hl Hlu Hc. unfold Pkg.get_package.
  rewrite internal_get_package_S, Hp, Hd.
  destruct (negb disable_uninstalled &&
            negb (Pkg.name_ends_in_uninstalled name)).
  - rewrite (uninstalled_variant_absent _ _ _ st name Hpu Hlu).
    unfold mbind, exec_bind. unfold Pkg.load_package. rewrite Hl, Hc.
    reflexivity.
  - unfold mbind, exec_bind, mret, exec_ret. unfold Pkg.load_package.
    rewrite Hl, Hc. reflexivity.
Qed.

Lemma get_package_not_found_witness :
  Pkg.get_package false Fixtures.parse_only_x (fun _ => None)
    Fixtures.registry_with_x "glib-2.0" =
  ([Pkg.PackageNotFound "glib-2.0"], Done (None, Fixtures.registry_with_x)).
Proof.
  apply (get_package_not_found false Fixtures.parse_only_x (fun _ => None)
           Fixtures.registry_with_x "glib-2.0"); vm_compute; reflexivity.
Defined.

(** ** The key of a package given by its path *)

Section DirectKey.
Import Pkg Notions.

Lemma get_app_skip (a b : string) (k : nat) :
  String.get (String.length a + k) (a +:+ b) = String.get k b.
Proof. induction a as [|c a IH]; [reflexivity|exact IH]. Qed.

Lemma get_stem stem (t : string) (j : nat) :
  all_chars not_slash stem = true ->
  String.get 0 t <> Some "/"%char ->
  (j <= String.length stem)%nat ->
  String.get j (stem +:+ t) <> Some "/"%char.
Proof.
  revert j. induction stem as [|c stem IH]; intros j Hs Ht Hj; simpl in Hj.
  - replace j with 0%nat by lia. exact Ht.
  - simpl in Hs. apply andb_true_iff in Hs as [Hc Hs].
    destruct j as [|j]; simpl.
    + unfold not_slash in Hc. apply negb_true_iff in Hc.
      intros E. injection E as ->. discriminate Hc.
    + apply IH; [exact Hs|exact Ht|lia].
Qed.

(** Walking back over a stem without slash: down to the slash before it. *)
Lemma key_start_after_dir dir stem (t : string) (j : nat) :
  all_chars not_slash stem = true ->
  String.get 0 t <> Some "/"%char ->
  (j <= String.length stem)%nat ->
  key_start (dir +:+ "/" +:+ stem +:+ t) (String.length dir + S j) =
  String.length dir.
Proof.
  intros Hs Ht. induction j as [|j IH]; intros Hj.
  - rewrite Nat.add_1_r. simpl key_start.
    rewrite bool_decide_eq_false_2.
    + destruct (String.length dir) as [|n] eqn:E; [reflexivity|].
      simpl key_start. rewrite bool_decide_eq_true_2; [reflexivity|].
      rewrite <- E. rewrite <- (Nat.add_0_r (String.length dir)).
      rewrite get_app_skip. reflexivity.
    + replace (S (String.length dir)) with (String.length dir + 1)%nat
        by lia.
      rewrite get_app_skip. simpl. apply (get_stem stem t 0 Hs Ht). lia.
  - replace (String.length dir + S (S j))%nat
      with (S (String.length dir + S j)) by lia.
    simpl key_start. rewrite bool_decide_eq_false_2; [apply IH; lia|].
    replace (S (String.length dir + S j))
      with (String.length dir + S (S j))%nat by lia.
    rewrite get_app_skip. simpl. apply (get_stem stem t (S j) Hs Ht). lia.
Qed.

(** Without any slash: down to the start of the name. *)
Lemma key_start_no_dir stem (t : string) (j : nat) :
  all_chars not_slash stem = true ->
  String.get 0 t <> Some "/"%char ->
  (j <= String.length stem)%nat ->
  key_start (stem +:+ t) j = 0%nat.
Proof.
  intros Hs Ht. induction j as [|j IH]; intros Hj; [reflexivity|].
  simpl key_start. rewrite bool_decide_eq_false_2; [apply IH; lia|].
  apply (get_stem stem t (S j) Hs Ht Hj).
Qed.

Lemma length_dotpc (s : string) :
  (String.length (s +:+ ".pc") - 3)%nat = String.length s.
Proof. rewrite str_length_app. simpl. lia. Qed.

Lemma direct_key dir stem :
  all_chars not_slash stem = true ->
  let name := path_of dir stem in
  let e := (String.length name - 3)%nat in
  String.substring (key_start name e) (e - key_start name e) name =
  key_of dir stem.
Proof.
  intros Hs. destruct dir as [d|]; unfold path_of, key_of; cbv zeta.
  - assert (L : (String.length (d +:+ "/" +:+ stem +:+ ".pc") - 3)%nat =
                (String.length d + S (String.length stem))%nat).
    { rewrite (str_length_app d), (str_length_app "/"),
        (str_length_app stem). simpl. lia. }
    rewrite L.
    rewrite (key_start_after_dir d stem ".pc" (String.length stem) Hs);
      [|discriminate|lia].
    replace (String.length d + S (String.length stem) - String.length d)%nat
      with (String.length ("/" +:+ stem))
      by (rewrite (str_length_app "/"); simpl; lia).
    rewrite <- (Nat.add_0_r (String.length d)) at 1.
    rewrite substring_app_skip.
    rewrite <- (str_app_assoc "/" stem ".pc").
    apply substring_app_l.
  - rewrite length_dotpc.
    rewrite (key_start_no_dir stem ".pc" (String.length stem) Hs);
      [|discriminate|lia].
    rewrite Nat.sub_0_r. apply substring_app_l.
Qed.

End DirectKey.

(** X8: a package asked for by the path of its descriptor, dir/stem.pc,
    is registered under the key /stem, the slash before the stem included;
    asked for as stem.pc, without a directory, it is registered under
    stem. *)
Theorem get_package_path_key
    (disable_uninstalled : bool)
    (parse_package_file :
       Pkg.Registry -> string ->
       Exec Pkg.Diag (option Pkg.Package * Pkg.Registry))
    (get_compat_package : string -> option Pkg.Package)
    (st st' : Pkg.Registry) (dir : option string) (stem : string)
    (log : list Pkg.Diag) (pkg : Pkg.Package) :
  Notions.all_chars Notions.not_slash stem = true ->
  Pkg.ends_in_dotpc (Notions.path_of dir stem) = true ->
  Pkg.packages st !! Notions.path_of dir stem = None ->
  Pkg.get_package disable_uninstalled parse_package_file get_compat_package
    st (Notions.path_of dir stem) = (log, Done (Some pkg, st')) ->
  Pkg.key pkg = Some (Notions.key_of dir stem) /\
  Pkg.packages st' !! Notions.key_of dir stem = Some pkg.
Proof.
  intros Hs Hd Hp H.
  rewrite (get_package_dotpc_is_path _ _ _ _ _ Hd Hp) in H.
  unfold Pkg.load_package in H.
  apply exec_bind_done in H as (l1 & [parsed st1] & l2 & _ & H & _).
  destruct parsed as [pkg0|]; [|discriminate H].
  rewrite (direct_key dir stem Hs) in H. simpl negb in H. cbv iota in H.
  apply exec_bind_done in H as (l3 & [] & l4 & _ & H & _).
  injection H as _ <- <-. split; [reflexivity|].
  simpl. apply lookup_insert_eq.
Qed.

Lemma get_package_path_key_witness :
  exists pkg st',
    Pkg.get_package false
      (fun st path => mret (Some (Fixtures.leaf "" "1.0"), st))
      (fun _ => None) Pkg.empty_registry "/opt/lib/pkgconfig/foo.pc" =
    ([], Done (Some pkg, st')) /\
    Pkg.key pkg = Some "/foo" /\
    Pkg.packages st' !! "/foo" = Some pkg.
Proof.
  eexists _, _. split; [vm_compute; reflexivity|].
  apply (get_package_path_key false
           (fun st path => mret (Some (Fixtures.leaf "" "1.0"), st))
           (fun _ => None) Pkg.empty_registry _ (Some "/opt/lib/pkgconfig")
           "foo" []).
  - reflexivity.
  - reflexivity.
  - reflexivity.
  - vm_compute. reflexivity.
Defined.

(** ** What the scan leaves in [locations] *)

Section ScanMore.
Import Pkg Notions.
Variable readdir : string -> option (list string).

Lemma found_in_mono dirs dirs' k v :
  (forall d, d ∈ dirs -> d ∈ dirs') ->
  found_in readdir dirs k v -> found_in readdir dirs' k v.
Proof. intros H (d & es & n & Hd & R). exists d, es, n. split; auto. Qed.

Lemma scan_entries_found d entries n dirs all locations :
  readdir d = Some all -> d ∈ dirs ->
  (forall e, e ∈ entries -> e ∈ all) ->
  (forall k v, locations !! k = Some v -> found_in readdir dirs k v) ->
  forall k v,
    fold_left (scan_entry d n) entries locations !! k = Some v ->
    found_in readdir dirs k v.
Proof.
  intros Hr Hd. revert locations.
  induction entries as [|e entries IH]; intros locations Hsub Hinv k v;
    simpl; [apply Hinv|].
  apply IH.
  - intros e' He'. apply Hsub. now right.
  - intros k' v'. unfold scan_entry.
    destruct (ends_in_dotpc e) eqn:E; [|apply Hinv].
    destruct (locations !! String.substring 0 (String.length e - 3) e)
      eqn:L; [apply Hinv|].
    rewrite lookup_insert. case_decide as Hk; [|apply Hinv].
    intros [= <-]. subst k'.
    exists d, all, n. split; [exact Hd|]. split; [exact Hr|].
    rewrite <- (ends_in_dotpc_split e E). split; [|reflexivity].
    apply Hsub. left.
Qed.

Lemma scan_dir_found d dirs locations :
  d ∈ dirs ->
  (forall k v, locations !! k = Some v -> found_in readdir dirs k v) ->
  forall k v,
    scan_dir readdir d locations !! k = Some v -> found_in readdir dirs k v.
Proof.
  intros Hd Hinv. unfold scan_dir.
  destruct (readdir d) as [entries|] eqn:R; [|exact Hinv].
  eapply scan_entries_found; eauto.
Qed.

Lemma scan_dirs_found ds dirs locations :
  (forall d, d ∈ ds -> d ∈ dirs) ->
  (forall k v, locations !! k = Some v -> found_in readdir dirs k v) ->
  forall k v,
    fold_left (fun locs d => scan_dir readdir d locs) ds locations !! k
    = Some v -> found_in readdir dirs k v.
Proof.
  revert locations. induction ds as [|d ds IH]; intros locations Hsub Hinv;
    simpl; [exact Hinv|].
  apply IH.
  - intros d' Hd'. apply Hsub. now right.
  - apply scan_dir_found; [apply Hsub; left|exact Hinv].
Qed.

End ScanMore.

(** X9: after [package_init] every entry of [locations] is the path of a
    file key.pc that [readdir] listed in a directory of the search path or
    in the default directory: the directory name, a slash, the file name. *)
Theorem locations_name_scanned_files
    (readdir : string -> option (list string)) (PKGLIBDIR : string)
    (st : Pkg.Registry) (k v : string) :
  Pkg.initted st = false ->
  Pkg.locations (Pkg.package_init readdir PKGLIBDIR st) !! k = Some v ->
  exists d entries n,
    d ∈ Pkg.search_dirs st ++ [PKGLIBDIR] /\
    readdir d = Some entries /\
    (k +:+ ".pc") ∈ entries /\
    v = (String.substring 0 n d +:+ "/") +:+ (k +:+ ".pc").
Proof.
  intros Hi. unfold Pkg.package_init. rewrite Hi. simpl.
  apply (scan_dir_found readdir PKGLIBDIR
           (Pkg.search_dirs st ++ [PKGLIBDIR])).
  - apply elem_of_app. right. left.
  - apply scan_dirs_found.
    + intros d Hd. apply elem_of_app. now left.
    + intros k' v' H. rewrite lookup_empty in H. discriminate H.
Qed.

Lemma locations_name_scanned_files_witness :
  exists d entries n,
    d ∈ ["/second"; "/first"] ++ ["/usr/lib/pkgconfig"] /\
    Fixtures.two_dirs d = Some entries /\
    ("K" +:+ ".pc") ∈ entries /\
    "/second/K.pc" = (String.substring 0 n d +:+ "/") +:+ ("K" +:+ ".pc").
Proof.
  apply (locations_name_scanned_files Fixtures.two_dirs "/usr/lib/pkgconfig"
           (Pkg.add_search_dir
              (Pkg.add_search_dir Pkg.empty_registry "/first") "/second")
           "K" "/second/K.pc").
  - reflexivity.
  - vm_compute. reflexivity.
Defined.



(** ** Global variables *)

(** X11: a global variable that [define_global_variable] accepts is what
    [package_get_var] returns for its name from then on, for every package
    and whatever the package defines; the other names resolve as before;
    and a second definition of the name exits with a diagnostic. *)
Theorem define_global_variable_lookup
    (st st' : Pkg.Registry) (varname varval : string)
    (log : list Pkg.Diag) :
  Pkg.define_global_variable st varname varval = (log, Done st') ->
  log = [] /\
  (forall pkg,
     Pkg.package_get_var (Pkg.globals st') pkg varname = Some varval) /\
  (forall pkg other,
     other <> varname ->
     Pkg.package_get_var (Pkg.globals st') pkg other =
     Pkg.package_get_var (Pkg.globals st) pkg other) /\
  (forall again,
     Pkg.define_global_variable st' varname again =
     ([Pkg.DefinedTwiceGlobally varname], Exited)).
Proof.
  unfold Pkg.define_global_variable.
  destruct (default ∅ (Pkg.globals st) !! varname) eqn:E;
    [discriminate|].
  intros H. injection H as <- <-. simpl.
  split; [reflexivity|]. split; [|split].
  - intros pkg. unfold Pkg.package_get_var, lookup_var.
    now rewrite lookup_insert_eq.
  - intros pkg other Hne. unfold Pkg.package_get_var, lookup_var.
    rewrite lookup_insert_ne by congruence.
    destruct (Pkg.globals st); [reflexivity|].
    simpl. now rewrite lookup_empty.
  - intros again. now rewrite lookup_insert_eq.
Qed.

Lemma define_global_variable_lookup_witness :
  exists st',
    Pkg.define_global_variable Pkg.empty_registry "prefix" "/opt" =
    ([], Done st') /\
    Pkg.package_get_var (Pkg.globals st') MoreFixtures.pkg_c "prefix" =
    Some "/opt".
Proof.
  eexists. split; [vm_compute; reflexivity|].
  apply (define_global_variable_lookup Pkg.empty_registry _ "prefix" "/opt"
           []).
  vm_compute. reflexivity.
Defined.

(** ** The variable of several packages *)

Section VarMore.
Import Pkg MergerSpec.

Lemma packages_get_var_buffer_values globals pkgs varname str :
  fold_left (fun str pkg =>
               match package_get_var globals pkg varname with
               | Some var => (str +:+ var) +:+ " "
               | None => str
               end) pkgs str =
  str +:+ each_followed_by_space
            (omap (fun pkg => package_get_var globals pkg varname) pkgs).
Proof.
  revert str. induction pkgs as [|p pkgs IH]; intros str; simpl.
  - now rewrite str_app_nil_r.
  - rewrite IH. destruct (package_get_var globals p varname); simpl.
    + now rewrite !str_app_assoc.
    + reflexivity.
Qed.

Lemma substring_chop (s : string) :
  String.substring 0 (String.length (s +:+ " ") - 1) (s +:+ " ") = s.
Proof.
  rewrite str_length_app. simpl String.length.
  replace (String.length s + 1 - 1)%nat with (String.length s) by lia.
  apply substring_app_l.
Qed.

End VarMore.

(** X12: when at least one package of the list defines the variable,
    [packages_get_var] returns the values, in the order of the packages,
    joined by single spaces, with nothing after the last; packages that do
    not define it leave no trace. *)
Theorem packages_get_var_joined
    (globals : option (gmap string string)) (pkgs : list Pkg.Package)
    (varname : string) :
  omap (fun pkg => Pkg.package_get_var globals pkg varname) pkgs <> [] ->
  Pkg.packages_get_var globals pkgs varname =
  mret (String.concat " "
          (omap (fun pkg => Pkg.package_get_var globals pkg varname) pkgs)).
Proof.
  intros Hne. unfold Pkg.packages_get_var, Pkg.packages_get_var_buffer.
  rewrite packages_get_var_buffer_values.
  change ("" +:+ ?s) with s.
  rewrite each_followed_by_space_joined.
  destruct (omap _ pkgs) as [|v vs] eqn:E; [congruence|].
  unfold MergerSpec.joined_by_single_space.
  set (s := String.concat " " (v :: vs)).
  unfold Pkg.chop_index, Pkg.in_bounds, strlen.
  rewrite str_length_app. simpl String.length.
  replace (Z.of_nat (String.length s + 1) - 1) with (Z.of_nat (String.length s))
    by lia.
  rewrite Nat2Z.id.
  replace ((0 <=? Z.of_nat (String.length s)) &&
           (Z.of_nat (String.length s) <=? Z.of_nat (String.length s + 1)))
    with true
    by (symmetry; apply andb_true_iff; split; apply Z.leb_le; lia).
  now rewrite substring_app_l.
Qed.

Lemma packages_get_var_joined_witness :
  Pkg.packages_get_var (Some {[ "prefix" := "/opt" ]})
    [Fixtures.pkg_b; MoreFixtures.pkg_c] "prefix" = mret "/opt /opt".
Proof.
  rewrite (packages_get_var_joined (Some {[ "prefix" := "/opt" ]})
             [Fixtures.pkg_b; MoreFixtures.pkg_c] "prefix").
  - vm_compute. reflexivity.
  - vm_compute. discriminate.
Defined.

(** ** Lines *)

Section LineFacts.
Import Parse Notions.

Lemma read_loop_counted stream quoted comment n_read str :
  0 < n_read ->
  fst (fst (read_loop stream quoted comment n_read str)) = true.
Proof.
  remember (String.length stream) as k eqn:Hk.
  revert stream Hk quoted comment n_read str.
  induction k as [k IH] using lt_wf_ind.
  intros [|c stream] Hk quoted comment n_read str Hn; simpl.
  - apply Z.ltb_lt. exact Hn.
  - simpl in Hk.
    assert (R : forall s q c' t,
               (String.length s < k)%nat ->
               fst (fst (read_loop s q c' (n_read + 1) t)) = true).
    { intros s q c' t Hs. apply (IH _ Hs s eq_refl). lia. }
    destruct quoted.
    + destruct (Ascii.eqb c "#"%char); [apply R; lia|].
      destruct (Ascii.eqb c CR || Ascii.eqb c LF); [|apply R; lia].
      destruct stream as [|d stream]; [apply R; simpl; lia|].
      destruct (_ || _); apply R; simpl in *; lia.
    + destruct (Ascii.eqb c "#"%char); [apply R; lia|].
      destruct (Ascii.eqb c "\"%char); [apply R; lia|].
      destruct (Ascii.eqb c LF); [|apply R; lia].
      simpl. apply Z.ltb_lt. lia.
Qed.

Lemma read_loop_plain s t n_read str :
  all_chars plain_byte s = true ->
  read_loop (s +:+ t) false false n_read str =
  read_loop t false false (n_read + Z.of_nat (String.length s)) (str +:+ s).
Proof.
  revert n_read str. induction s as [|c s IH]; intros n_read str; simpl.
  - intros _. now rewrite Z.add_0_r, str_app_nil_r.
  - intros [Hc Hs]%andb_true_iff. unfold plain_byte in Hc.
    apply andb_true_iff in Hc as [[H1 H2]%andb_true_iff H3].
    apply negb_true_iff in H1, H2, H3.
    rewrite ?str_app_cons. cbn [read_loop]. rewrite H1, H2, H3.
    rewrite (IH _ _ Hs). unfold append_c. rewrite str_app_assoc.
    f_equal. lia.
Qed.

Lemma read_loop_comment c t n_read str :
  all_chars not_line_feed c = true ->
  read_loop (c +:+ t) false true n_read str =
  read_loop t false true (n_read + Z.of_nat (String.length c)) str.
Proof.
  revert n_read. induction c as [|x c IH]; intros n_read; simpl.
  - intros _. now rewrite Z.add_0_r.
  - intros [Hx Hc]%andb_true_iff. unfold not_line_feed in Hx.
    apply negb_true_iff in Hx.
    rewrite ?str_app_cons. cbn [read_loop]. rewrite Hx.
    destruct (Ascii.eqb x "#"%char); [|destruct (Ascii.eqb x "\"%char)];
      rewrite (IH _ Hc); f_equal; lia.
Qed.

Lemma line_counted (n : nat) : (0 <? 0 + Z.of_nat n + 1) = true.
Proof. apply Z.ltb_lt. lia. Qed.

End LineFacts.

(** X13: [read_one_line] returns FALSE exactly at the end of the stream;
    when it returns TRUE it has taken at least one byte off the stream. *)
Theorem read_one_line_progress (stream : string) :
  fst (fst (Parse.read_one_line stream)) = negb (is_nil stream) /\
  (stream <> "" ->
   (String.length (snd (Parse.read_one_line stream)) <
    String.length stream)%nat).
Proof.
  split.
  - destruct stream as [|c stream]; [reflexivity|].
    unfold Parse.read_one_line. cbn [Parse.read_loop].
    repeat match goal with
           | |- context [if ?b then _ else _] => destruct b
           end;
      try reflexivity; apply read_loop_counted; lia.
  - intros Hne.
    destruct (Parse.read_one_line stream) as [[b line] rest] eqn:E.
    assert (b = true) as ->.
    { destruct stream as [|c stream]; [congruence|].
      pose proof (f_equal (fun r => fst (fst r)) E) as F. simpl in F.
      rewrite <- F. unfold Parse.read_one_line. cbn [Parse.read_loop].
      repeat match goal with
             | |- context [if ?b then _ else _] => destruct b
             end;
        try reflexivity; apply read_loop_counted; lia. }
    simpl. eapply Parse.read_one_line_consumes. exact E.
Qed.

(** X14: a line of bytes other than the comment sign, the backslash and
    the line feed is returned as it is, without the line feed that ends it
    (nor a carriage return right after the line feed); the last line of a
    stream needs no line feed. *)
Theorem read_one_line_plain (s rest : string) :
  Notions.all_chars Notions.plain_byte s = true ->
  Parse.read_one_line (s +:+ String Parse.LF rest) =
    (true, s, Parse.after_lookahead Parse.LF rest) /\
  Parse.read_one_line s = (negb (is_nil s), s, "").
Proof.
  intros Hs. unfold Parse.read_one_line. split.
  - rewrite (read_loop_plain s _ 0 "" Hs). cbn [Parse.read_loop].
    change (Ascii.eqb Parse.LF "#"%char) with false.
    change (Ascii.eqb Parse.LF "\"%char) with false.
    rewrite Ascii.eqb_refl. cbv iota.
    now rewrite line_counted.
  - rewrite <- (str_app_nil_r s) at 1.
    rewrite (read_loop_plain s "" 0 "" Hs). simpl.
    f_equal. f_equal. destruct s; [reflexivity|].
    simpl. apply Z.ltb_lt. lia.
Qed.

Lemma read_one_line_plain_witness :
  Parse.read_one_line ("Name: foo" +:+ String Parse.LF "Version: 1") =
    (true, "Name: foo", Parse.after_lookahead Parse.LF "Version: 1") /\
  Parse.read_one_line "Name: foo" =
  (negb (is_nil "Name: foo"), "Name: foo", "").
Proof.
  apply (read_one_line_plain "Name: foo" "Version: 1"). reflexivity.
Defined.

(** X15: from a comment sign that is not escaped to the next line feed
    everything is dropped, backslashes included: a backslash at the end of
    a comment does not continue the line. *)
Theorem read_one_line_comment (s c rest : string) :
  Notions.all_chars Notions.plain_byte s = true ->
  Notions.all_chars Notions.not_line_feed c = true ->
  Parse.read_one_line (s +:+ "#" +:+ c +:+ String Parse.LF rest) =
  (true, s, Parse.after_lookahead Parse.LF rest).
Proof.
  intros Hs Hc. unfold Parse.read_one_line.
  rewrite (read_loop_plain s _ 0 "" Hs).
  change ("#" +:+ c +:+ String Parse.LF rest)
    with (String "#"%char (c +:+ String Parse.LF rest)).
  cbn [Parse.read_loop]. rewrite Ascii.eqb_refl.
  rewrite (read_loop_comment c _ _ _ Hc). cbn [Parse.read_loop].
  change (Ascii.eqb Parse.LF "#"%char) with false.
  change (Ascii.eqb Parse.LF "\"%char) with false.
  rewrite Ascii.eqb_refl. cbv iota.
  f_equal. f_equal. apply Z.ltb_lt. lia.
Qed.

Lemma read_one_line_comment_witness :
  Parse.read_one_line
    ("prefix=/usr " +:+ "#" +:+ " not \" +:+ String Parse.LF "libdir=/lib") =
  (true, "prefix=/usr ", Parse.after_lookahead Parse.LF "libdir=/lib").
Proof.
  apply (read_one_line_comment "prefix=/usr " " not \" "libdir=/lib");
    reflexivity.
Defined.

Lemma str_app_nil_l (s : string) : "" +:+ s = s.
Proof. reflexivity. Qed.

Ltac read_byte :=
  repeat (rewrite str_app_nil_l || rewrite str_app_cons);
  cbn [Parse.read_loop].

(** X16: after a backslash, a comment sign is kept as a plain byte and the
    backslash dropped; a line end (\n, \r, \r\n or \n\r) is dropped with the
    backslash and the line goes on; before any other byte the backslash is
    kept with it. *)
Theorem read_one_line_escapes (s1 s2 rest : string) (x : ascii) :
  Notions.all_chars Notions.plain_byte s1 = true ->
  Notions.all_chars Notions.plain_byte s2 = true ->
  let tail := s2 +:+ String Parse.LF rest in
  let after := Parse.after_lookahead Parse.LF rest in
  let bs := String "\"%char "" in
  Parse.read_one_line (s1 +:+ bs +:+ "#" +:+ tail) =
    (true, s1 +:+ "#" +:+ s2, after) /\
  (peek tail <> Parse.CR ->
   Parse.read_one_line (s1 +:+ bs +:+ String Parse.LF tail) =
     (true, s1 +:+ s2, after)) /\
  (peek tail <> Parse.LF ->
   Parse.read_one_line (s1 +:+ bs +:+ String Parse.CR tail) =
     (true, s1 +:+ s2, after)) /\
  Parse.read_one_line
    (s1 +:+ bs +:+ String Parse.CR (String Parse.LF tail)) =
    (true, s1 +:+ s2, after) /\
  Parse.read_one_line
    (s1 +:+ bs +:+ String Parse.LF (String Parse.CR tail)) =
    (true, s1 +:+ s2, after) /\
  (x <> "#"%char -> x <> Parse.CR -> x <> Parse.LF ->
   Parse.read_one_line (s1 +:+ bs +:+ String x tail) =
     (true, s1 +:+ bs +:+ String x s2, after)).
Proof.
  intros H1 H2 tail after bs. unfold Parse.read_one_line.
  assert (End : forall n str,
            Parse.read_loop tail false false n str =
            (0 <? n + Z.of_nat (String.length s2) + 1, str +:+ s2, after)).
  { intros n str. unfold tail. rewrite (read_loop_plain s2 _ _ _ H2).
    cbn [Parse.read_loop].
    change (Ascii.eqb Parse.LF "#"%char) with false.
    change (Ascii.eqb Parse.LF "\"%char) with false.
    rewrite Ascii.eqb_refl. reflexivity. }
  assert (Pos : forall n m k : nat,
            (0 <? 0 + Z.of_nat n + 1 + Z.of_nat k + Z.of_nat m + 1) = true).
  { intros. apply Z.ltb_lt. lia. }
  assert (Hbs : Ascii.eqb "\"%char "#"%char = false) by reflexivity.
  assert (Hbb : Ascii.eqb "\"%char "\"%char = true) by reflexivity.
  assert (Go : forall t,
            Parse.read_loop (s1 +:+ bs +:+ t) false false 0 "" =
            Parse.read_loop t true false
              (0 + Z.of_nat (String.length s1) + 1) s1).
  { intros t. rewrite (read_loop_plain s1 _ 0 "" H1). unfold bs.
    read_byte. rewrite Hbs, Hbb. reflexivity. }
  repeat split.
  - rewrite Go. read_byte. rewrite Ascii.eqb_refl, End.
    rewrite (Pos _ _ 1%nat). unfold Parse.append_c.
    now rewrite !str_app_assoc.
  - intros Hp. rewrite Go. cbn [Parse.read_loop].
    change (Ascii.eqb Parse.LF "#"%char) with false.
    change (Ascii.eqb Parse.LF Parse.CR) with false.
    rewrite Ascii.eqb_refl. simpl orb. cbv iota.
    assert (R : Parse.read_loop tail false false
                  (0 + Z.of_nat (String.length s1) + 1 + 1) s1 =
                (true, s1 +:+ s2, after))
      by (rewrite End; now rewrite (Pos _ _ 1%nat)).
    destruct tail as [|d tl] eqn:E; [exact R|].
    simpl in Hp. destruct (Ascii.eqb_spec d Parse.CR); [congruence|].
    simpl. exact R.
  - intros Hp. rewrite Go. cbn [Parse.read_loop].
    change (Ascii.eqb Parse.CR "#"%char) with false.
    rewrite Ascii.eqb_refl. simpl orb. cbv iota.
    assert (R : Parse.read_loop tail false false
                  (0 + Z.of_nat (String.length s1) + 1 + 1) s1 =
                (true, s1 +:+ s2, after))
      by (rewrite End; now rewrite (Pos _ _ 1%nat)).
    destruct tail as [|d tl] eqn:E; [exact R|].
    simpl in Hp. destruct (Ascii.eqb_spec d Parse.LF); [congruence|].
    simpl. exact R.
  - rewrite Go. cbn [Parse.read_loop].
    change (Ascii.eqb Parse.CR "#"%char) with false.
    rewrite !Ascii.eqb_refl. simpl. rewrite End.
    now rewrite (Pos _ _ 1%nat).
  - rewrite Go. cbn [Parse.read_loop].
    change (Ascii.eqb Parse.LF "#"%char) with false.
    change (Ascii.eqb Parse.LF Parse.CR) with false.
    rewrite !Ascii.eqb_refl. simpl. rewrite End.
    now rewrite (Pos _ _ 1%nat).
  - intros Hx1 Hx2 Hx3. rewrite Go. cbn [Parse.read_loop].
    destruct (Ascii.eqb_spec x "#"%char); [congruence|].
    destruct (Ascii.eqb_spec x Parse.CR); [congruence|].
    destruct (Ascii.eqb_spec x Parse.LF); [congruence|].
    simpl orb. cbv iota. rewrite End. rewrite (Pos _ _ 1%nat).
    unfold Parse.append_c, bs. rewrite !str_app_assoc. reflexivity.
Qed.

Lemma read_one_line_escapes_witness :
  Parse.read_one_line
    ("prefix=/opt/" +:+ String "\"%char "" +:+
     String Parse.LF ("    foo" +:+ String Parse.LF "rest")) =
  (true, "prefix=/opt/" +:+ "    foo", Parse.after_lookahead Parse.LF "rest").
Proof.
  destruct (read_one_line_escapes "prefix=/opt/" "    foo" "rest" "x"%char)
    as (_ & H & _); [reflexivity|reflexivity|].
  apply H. discriminate.
Defined.

(** ** Trimming *)

Section TrimFacts.
Import Parse Notions.

Lemma trimmed_len_spec str len :
  (trimmed_len str len <= len)%nat /\
  (trimmed_len str len = 0%nat \/
   isspace (char_at str (trimmed_len str len - 1)) = false).
Proof.
  induction len as [|len IH]; simpl; [auto|].
  destruct (isspace (char_at str len)) eqn:E.
  - destruct IH as [H1 H2]. split; [lia|exact H2].
  - split; [lia|]. right. simpl. now rewrite Nat.sub_0_r.
Qed.

Lemma length_substring str k :
  (k <= String.length str)%nat ->
  String.length (String.substring 0 k str) = k.
Proof.
  revert k. induction str as [|c str IH]; intros [|k] H; simpl in *;
    try reflexivity; try lia.
  rewrite IH; [reflexivity|lia].
Qed.

Lemma char_at_substring str k i :
  (i < k)%nat -> (k <= String.length str)%nat ->
  char_at (String.substring 0 k str) i = char_at str i.
Proof.
  revert k i. induction str as [|c str IH]; intros [|k] [|i] H1 H2;
    simpl in *; try reflexivity; try lia.
  apply (IH k i); lia.
Qed.

Lemma peek_char_at s : peek s = char_at s 0.
Proof. now destruct s. Qed.

Lemma peek_skip_space s : isspace (peek (skip_while isspace s)) = false.
Proof.
  induction s as [|c s IH]; simpl; [reflexivity|].
  destruct (isspace c) eqn:E; [exact IH|exact E].
Qed.

(** A string that neither starts nor ends with white space is its own
    trimming. *)
Lemma trim_string_id s :
  isspace (peek s) = false ->
  isspace (char_at s (String.length s - 1)) = false ->
  trim_string s = s.
Proof.
  intros H1 H2. unfold trim_string.
  assert (S : skip_while isspace s = s).
  { destruct s as [|c s]; [reflexivity|]. simpl in *. now rewrite H1. }
  rewrite S.
  assert (T : trimmed_len s (String.length s) = String.length s).
  { destruct (String.length s) as [|n] eqn:E; [reflexivity|].
    simpl. simpl in H2. rewrite Nat.sub_0_r in H2. now rewrite H2. }
  rewrite T. apply substring_full.
Qed.

Lemma trim_string_ends s :
  isspace (peek (trim_string s)) = false /\
  isspace (char_at (trim_string s) (String.length (trim_string s) - 1))
  = false.
Proof.
  unfold trim_string. set (t := skip_while isspace s).
  destruct (trimmed_len_spec t (String.length t)) as [L [Z|E]].
  - rewrite Z. destruct t; split; reflexivity.
  - destruct (trimmed_len t (String.length t)) as [|k].
    + destruct t; split; reflexivity.
    + rewrite length_substring by exact L. split.
      * rewrite peek_char_at, char_at_substring by lia.
        rewrite <- peek_char_at. apply peek_skip_space.
      * rewrite char_at_substring by lia. exact E.
Qed.

End TrimFacts.

(** X17: what [trim_string] returns neither starts nor ends with white
    space, and trimming it again changes nothing. *)
Theorem trim_string_trimmed (s : string) :
  isspace (peek (Parse.trim_string s)) = false /\
  isspace (Parse.char_at (Parse.trim_string s)
             (String.length (Parse.trim_string s) - 1)) = false /\
  Parse.trim_string (Parse.trim_string s) = Parse.trim_string s.
Proof.
  destruct (trim_string_ends s) as [H1 H2].
  split; [exact H1|]. split; [exact H2|].
  now apply trim_string_id.
Qed.

(** ** Substitution *)

Section SubstFacts.
Import Parse Notions.
Variable cfg : Config.
Variable globals : option (gmap string string).

Lemma all_chars_substring f s k :
  all_chars f s = true -> all_chars f (String.substring 0 k s) = true.
Proof.
  revert k. induction s as [|c s IH]; intros [|k]; simpl; auto.
  intros [Hc Hs]%andb_true_iff. rewrite Hc. simpl. now apply IH.
Qed.

Lemma all_chars_trim f s :
  all_chars f s = true -> all_chars f (trim_string s) = true.
Proof.
  intros H. unfold trim_string.
  apply all_chars_substring, all_chars_skip, H.
Qed.

Lemma trim_and_sub_loop_text pkg path p t subst :
  all_chars not_dollar p = true ->
  trim_and_sub_loop cfg globals pkg path (p +:+ t) None subst =
  trim_and_sub_loop cfg globals pkg path t None (subst +:+ p).
Proof.
  revert subst. induction p as [|c p IH]; intros subst; simpl.
  - intros _. now rewrite str_app_nil_r.
  - intros [Hc Hp]%andb_true_iff. unfold not_dollar in Hc.
    apply negb_true_iff in Hc.
    rewrite ?str_app_cons. cbn [trim_and_sub_loop]. rewrite Hc. simpl andb.
    cbv iota. rewrite (IH _ Hp). unfold append_c.
    now rewrite str_app_assoc.
Qed.

Lemma trim_and_sub_loop_name pkg path name t acc subst :
  all_chars not_closing_brace name = true ->
  trim_and_sub_loop cfg globals pkg path (name +:+ t) (Some acc) subst =
  trim_and_sub_loop cfg globals pkg path t (Some (acc +:+ name)) subst.
Proof.
  revert acc. induction name as [|c name IH]; intros acc; simpl.
  - intros _. now rewrite str_app_nil_r.
  - intros [Hc Hn]%andb_true_iff. unfold not_closing_brace in Hc.
    apply negb_true_iff in Hc.
    rewrite ?str_app_cons. cbn [trim_and_sub_loop]. rewrite Hc.
    rewrite (IH _ Hn). unfold append_c. now rewrite str_app_assoc.
Qed.

Lemma trim_and_sub_loop_end pkg path p subst :
  all_chars not_dollar p = true ->
  trim_and_sub_loop cfg globals pkg path p None subst = mret (subst +:+ p).
Proof.
  intros H. rewrite <- (str_app_nil_r p) at 1.
  now rewrite trim_and_sub_loop_text.
Qed.

End SubstFacts.

(** X18: a value without a dollar sign comes out of [trim_and_sub] as its
    trimming, byte for byte and without a diagnostic, whatever the
    variables are. *)
Theorem trim_and_sub_plain_text
    (cfg : Parse.Config) (globals : option (gmap string string))
    (pkg : Parse.Package) (str path : string) :
  Notions.all_chars Notions.not_dollar str = true ->
  Parse.trim_and_sub cfg globals pkg str path =
  mret (Parse.trim_string str).
Proof.
  intros H. unfold Parse.trim_and_sub.
  rewrite trim_and_sub_loop_end; [reflexivity|].
  now apply all_chars_trim.
Qed.

Lemma trim_and_sub_plain_text_witness :
  Parse.trim_and_sub Fixtures.strict None Fixtures.descriptor
    "  -L/usr/lib -lfoo " "/d/a.pc" =
  mret (Parse.trim_string "  -L/usr/lib -lfoo ").
Proof.
  apply (trim_and_sub_plain_text Fixtures.strict None Fixtures.descriptor
           "  -L/usr/lib -lfoo " "/d/a.pc").
  reflexivity.
Defined.

(** X19: in a trimmed value with one reference to a variable, between
    texts without a dollar sign, the reference is replaced by the value of
    the variable, which is not scanned again; a variable that is not
    defined is reported, and then the run exits under [parse_strict] and
    the reference expands to nothing otherwise. *)
Theorem trim_and_sub_one_variable
    (cfg : Parse.Config) (globals : option (gmap string string))
    (pkg : Parse.Package) (before name after path : string) :
  Notions.all_chars Notions.not_dollar before = true ->
  Notions.all_chars Notions.not_closing_brace name = true ->
  Notions.all_chars Notions.not_dollar after = true ->
  let str := before +:+ "${" +:+ name +:+ "}" +:+ after in
  Parse.trim_string str = str ->
  Parse.trim_and_sub cfg globals pkg str path =
  match Parse.package_get_var globals pkg name with
  | Some varval => mret (before +:+ varval +:+ after)
  | None =>
      ([Parse.VariableNotDefined name path],
       if Parse.parse_strict cfg then Exited
       else Done (before +:+ after))
  end.
Proof.
  intros Hb Hn Ha str Ht. unfold Parse.trim_and_sub. rewrite Ht.
  unfold str. rewrite trim_and_sub_loop_text by exact Hb.
  change ("${" +:+ name +:+ "}" +:+ after)
    with (String "$"%char (String "{"%char (name +:+ "}" +:+ after))).
  cbn [Parse.trim_and_sub_loop peek]. simpl Ascii.eqb. simpl andb.
  cbv iota.
  rewrite trim_and_sub_loop_name by exact Hn.
  change ("}" +:+ after) with (String "}"%char after).
  cbn [Parse.trim_and_sub_loop]. simpl Ascii.eqb. cbv iota.
  rewrite !str_app_nil_l.
  destruct (Parse.package_get_var globals pkg name) as [varval|].
  - rewrite trim_and_sub_loop_end by exact Ha.
    now rewrite !str_app_assoc.
  - destruct (Parse.parse_strict cfg); [reflexivity|].
    rewrite trim_and_sub_loop_end by exact Ha. reflexivity.
Qed.

Lemma trim_and_sub_one_variable_witness :
  Parse.trim_and_sub Fixtures.strict None MoreFixtures.with_nested
    ("-L" +:+ "${" +:+ "libdir" +:+ "}" +:+ " -lfoo") "/d/a.pc" =
  mret ("-L" +:+ "${prefix}/lib" +:+ " -lfoo").
Proof.
  apply (trim_and_sub_one_variable Fixtures.strict None
           MoreFixtures.with_nested "-L" "libdir" " -lfoo" "/d/a.pc");
    reflexivity.
Defined.

(** ** Module lists *)

Section SplitFacts.
Import Version Parse Notions.

Lemma split_switch_total state c rest p start :
  operator_ahead state (String c rest) ->
  exists state' start',
    split_switch state c (String c rest) p start = Some (state', start') /\
    operator_ahead state' rest.
Proof.
  unfold operator_ahead. intros H.
  destruct state; cbn [split_switch].
  - destruct (negb (MODULE_SEPARATOR c)); do 2 eexists;
      (split; [reflexivity|]); intros E; discriminate E.
  - destruct (isspace c) eqn:Hc.
    + cbn [skip_while]. rewrite Hc.
      destruct (OPERATOR_CHAR (peek (skip_while isspace rest))) eqn:Ho;
        do 2 eexists; (split; [reflexivity|]); intros E;
        [reflexivity|discriminate E].
    + destruct (MODULE_SEPARATOR c); do 2 eexists;
        (split; [reflexivity|]); intros E; discriminate E.
  - specialize (H eq_refl). cbn [skip_while] in H.
    destruct (isspace c) eqn:Hc.
    + do 2 eexists. split; [reflexivity|]. intros _. exact H.
    + cbn [peek] in H. rewrite H. do 2 eexists.
      split; [reflexivity|]. intros E. discriminate E.
  - destruct (negb (OPERATOR_CHAR c)); do 2 eexists;
      (split; [reflexivity|]); intros E; discriminate E.
  - destruct (negb (isspace c)); do 2 eexists;
      (split; [reflexivity|]); intros E; discriminate E.
  - destruct (MODULE_SEPARATOR c); do 2 eexists;
      (split; [reflexivity|]); intros E; discriminate E.
Qed.

Lemma split_loop_total str rest p start state last retval :
  operator_ahead state rest ->
  exists items,
    split_loop str rest p start state last retval = ([], Done items).
Proof.
  revert p start state last retval.
  induction rest as [|c rest IH]; intros p start state last retval H.
  - simpl. eexists. reflexivity.
  - destruct (split_switch_total state c rest p start H)
      as (state' & start' & E & H').
    cbn [split_loop]. rewrite E.
    destruct (_ && _); apply IH; exact H'.
Qed.

Lemma all_chars_impl (f g : ascii -> bool) s :
  (forall c, f c = true -> g c = true) ->
  all_chars f s = true -> all_chars g s = true.
Proof.
  intros Hfg. induction s as [|c s IH]; simpl; [auto|].
  intros [Hc Hs]%andb_true_iff. rewrite (Hfg _ Hc). simpl. auto.
Qed.

Lemma span_while_app f a c b :
  all_chars f a = true -> f c = false ->
  span_while f (a +:+ String c b) = a /\
  skip_while f (a +:+ String c b) = String c b.
Proof.
  intros Ha Hc. induction a as [|x a IH]; simpl in *.
  - rewrite ?str_app_nil_l. simpl. rewrite Hc. auto.
  - apply andb_true_iff in Ha as [Hx Ha]. rewrite ?str_app_cons. simpl.
    rewrite Hx. destruct (IH Ha) as [-> ->]. auto.
Qed.

Lemma split_loop_in_name str s t p start retval :
  all_chars not_separator s = true ->
  split_loop str (s +:+ t) p start IN_MODULE_NAME IN_MODULE_NAME retval =
  split_loop str t (p + String.length s) start
    IN_MODULE_NAME IN_MODULE_NAME retval.
Proof.
  revert p. induction s as [|c s IH]; intros p; simpl.
  - intros _. rewrite ?str_app_nil_l. f_equal. lia.
  - intros [Hc Hs]%andb_true_iff. rewrite ?str_app_cons.
    cbn [split_loop split_switch].
    unfold not_separator in Hc. apply negb_true_iff in Hc.
    rewrite (not_separator_not_space _ Hc), Hc.
    simpl. rewrite (IH _ Hs). f_equal. lia.
Qed.

Lemma split_loop_in_version str s t p start retval :
  all_chars not_separator s = true ->
  split_loop str (s +:+ t) p start
    IN_MODULE_VERSION IN_MODULE_VERSION retval =
  split_loop str t (p + String.length s) start
    IN_MODULE_VERSION IN_MODULE_VERSION retval.
Proof.
  revert p. induction s as [|c s IH]; intros p; simpl.
  - intros _. rewrite ?str_app_nil_l. f_equal. lia.
  - intros [Hc Hs]%andb_true_iff. rewrite ?str_app_cons.
    cbn [split_loop split_switch].
    unfold not_separator in Hc. apply negb_true_iff in Hc. rewrite Hc.
    simpl. rewrite (IH _ Hs). f_equal. lia.
Qed.

Variable cfg : Config.

(** What one entry with a name comes to. *)
Lemma parse_module_entry_outcome pkg path item :
  is_nil (module_name item) = false ->
  match parse_module_entry cfg pkg path item with
  | (_, Done ver) => rv_name ver = module_name item /\ owner ver = key pkg
  | (log, Exited) => parse_strict cfg = true /\ log <> []
  | (_, Aborted) => False
  end.
Proof.
  intros Hn. unfold parse_module_entry. rewrite Hn.
  match goal with
  | |- context [match ?k with Some _ => _ | None => _ end] => destruct k
  end.
  - match goal with
    | |- context [if ?c then _ else _] => destruct c
    end.
    + destruct (parse_strict cfg); simpl; auto; split; auto; discriminate.
    + match goal with
      | |- context [if ?c then _ else _] => destruct c
      end; simpl; auto.
  - destruct (parse_strict cfg); simpl; auto; split; auto; discriminate.
Qed.

Lemma parse_module_entries_outcome pkg path items listp :
  Forall (fun item => is_nil (module_name item) = false) items ->
  Forall (fun ver => owner ver = key pkg) listp ->
  match parse_module_entries cfg pkg path items listp with
  | (_, Done l) =>
      map rv_name l = rev (map module_name items) ++ map rv_name listp /\
      Forall (fun ver => owner ver = key pkg) l
  | (log, Exited) => parse_strict cfg = true /\ log <> []
  | (_, Aborted) => False
  end.
Proof.
  intros Hne. revert listp.
  induction Hne as [|item items Hi Hne IH]; intros listp Ho; simpl.
  - auto.
  - pose proof (parse_module_entry_outcome pkg path item Hi) as H.
    destruct (parse_module_entry cfg pkg path item) as [log1 [ver| |]];
      unfold mbind, exec_bind; [| |contradiction].
    + destruct H as [H1 H2].
      assert (Ho' : Forall (fun v => owner v = key pkg) (ver :: listp))
        by (constructor; assumption).
      specialize (IH (ver :: listp) Ho').
      destruct (parse_module_entries cfg pkg path items (ver :: listp))
        as [log2 [l| |]]; [| |contradiction].
      * destruct IH as [E F]. split; [|exact F].
        rewrite E. simpl. rewrite H1. now rewrite <- app_assoc.
      * destruct IH as [E F]. split; [exact E|].
        intros N. apply app_eq_nil in N as [_ N]. contradiction.
    + exact H.
Qed.

End SplitFacts.

(** X20: [split_module_list] returns for every string, without a
    diagnostic: the assertion of its state BEFORE_OPERATOR is never
    reached.  Every string of the list it returns starts with the name of
    a module, which is not empty. *)
Theorem split_module_list_total (str path : string) :
  exists items,
    Parse.split_module_list str path = ([], Done items) /\
    Forall (fun item => Parse.module_name item <> "") items.
Proof.
  destruct (split_loop_total str str 0 0 Parse.OUTSIDE_MODULE
              Parse.OUTSIDE_MODULE []) as [items E].
  { intros H. discriminate H. }
  exists items. split; [exact E|].
  pose proof (split_module_list_named str path [] items E) as H.
  eapply Forall_impl; [exact H|].
  intros item Hi. now apply is_nil_false_iff.
Qed.

(** X21: [parse_module_list] never aborts.  When it returns, its list has
    one entry for each string of the split list, in the order of the
    string, named as the string and owned by the package; when it does not,
    [parse_strict] is set and something has been reported. *)
Theorem parse_module_list_in_order
    (cfg : Parse.Config) (pkg : Parse.Package) (str path : string) :
  exists items,
    Parse.split_module_list str path = ([], Done items) /\
    match Parse.parse_module_list cfg pkg str path with
    | (_, Done l) =>
        map rv_name l = map Parse.module_name items /\
        Forall (fun ver => owner ver = Parse.key pkg) l
    | (log, Exited) => Parse.parse_strict cfg = true /\ log <> []
    | (_, Aborted) => False
    end.
Proof.
  destruct (split_loop_total str str 0 0 Parse.OUTSIDE_MODULE
              Parse.OUTSIDE_MODULE []) as [items E].
  { intros H. discriminate H. }
  exists items. split; [exact E|].
  pose proof (split_module_list_named str path [] items E) as Hn.
  pose proof (parse_module_entries_outcome cfg pkg path items [] Hn
                (List.Forall_nil _)) as H.
  unfold Parse.parse_module_list, Parse.do_parse_module_list.
  unfold Parse.split_module_list in *. rewrite E.
  unfold mbind, exec_bind at 2. simpl app.
  destruct (Parse.parse_module_entries cfg pkg path items [])
    as [log [l| |]]; unfold mbind, exec_bind; simpl; [| |contradiction].
  - destruct H as [H1 H2]. split.
    + rewrite map_rev, H1, app_nil_r. apply rev_involutive.
    + apply Forall_rev. exact H2.
  - exact H.
Qed.

Section EntryFacts.
Import Version Parse Notions.
Variable cfg : Config.

Lemma space_isspace : isspace " "%char = true.
Proof. reflexivity. Qed.

Lemma operator_not_space c : OPERATOR_CHAR c = true -> isspace c = false.
Proof.
  unfold OPERATOR_CHAR. intros H.
  repeat (apply orb_true_iff in H as [H|H]);
    apply Ascii.eqb_eq in H; subst c; reflexivity.
Qed.

Lemma comparison_to_str_operator c :
  c <> ALWAYS_MATCH ->
  all_chars OPERATOR_CHAR (comparison_to_str c) = true /\
  comparison_to_str c <> "" /\
  comparison_of_operator (comparison_to_str c) = Some c.
Proof.
  destruct c; intros H; try congruence;
    (split; [reflexivity|split; [discriminate|reflexivity]]).
Qed.

Lemma split_loop_in_operator str s t p start retval :
  all_chars OPERATOR_CHAR s = true ->
  split_loop str (s +:+ t) p start IN_OPERATOR IN_OPERATOR retval =
  split_loop str t (p + String.length s) start IN_OPERATOR IN_OPERATOR
    retval.
Proof.
  revert p. induction s as [|c s IH]; intros p; simpl.
  - intros _. rewrite ?str_app_nil_l. f_equal. lia.
  - intros [Hc Hs]%andb_true_iff. rewrite ?str_app_cons.
    cbn [split_loop split_switch]. rewrite Hc. simpl.
    rewrite (IH _ Hs). f_equal. lia.
Qed.

Lemma split_loop_operator str op v0 t p start retval :
  op <> "" ->
  all_chars OPERATOR_CHAR op = true ->
  isspace v0 = false ->
  split_loop str (String " "%char (op +:+ String " "%char (String v0 t)))
    p start IN_MODULE_NAME IN_MODULE_NAME retval =
  split_loop str t (p + String.length op + 3) start
    IN_MODULE_VERSION IN_MODULE_VERSION retval.
Proof.
  intros Ho Hos Hv. destruct op as [|o0 op]; [congruence|].
  simpl in Hos. apply andb_true_iff in Hos as [Ho0 Hos].
  rewrite ?str_app_cons.
  cbn [split_loop split_switch skip_while].
  rewrite space_isspace, (operator_not_space _ Ho0). cbn [peek].
  rewrite Ho0. cbn [is_outside andb negb split_loop split_switch].
  rewrite (operator_not_space _ Ho0), Ho0.
  cbn [is_outside andb negb].
  rewrite split_loop_in_operator by exact Hos.
  cbn [split_loop split_switch].
  change (OPERATOR_CHAR " "%char) with false.
  cbn [is_outside andb negb split_loop split_switch].
  rewrite Hv. cbn [is_outside andb negb].
  f_equal. simpl. lia.
Qed.

Lemma skip_while_head f c s :
  f c = false -> skip_while f (String c s) = String c s.
Proof. intros H. simpl. now rewrite H. Qed.

Lemma split_entry_text name c version path :
  name <> "" ->
  all_chars not_separator name = true ->
  c <> ALWAYS_MATCH ->
  version <> "" ->
  all_chars not_separator version = true ->
  split_module_list (entry_text name c version) path =
  ([], Done [entry_text name c version]).
Proof.
  intros Hn Hns Hc Hv Hvs.
  destruct (comparison_to_str_operator c Hc) as (Hop & Hne & _).
  destruct name as [|n0 name]; [congruence|].
  destruct version as [|v0 version]; [congruence|].
  simpl in Hns, Hvs.
  apply andb_true_iff in Hns as [Hn0 Hns].
  apply andb_true_iff in Hvs as [Hv0 Hvs].
  unfold split_module_list.
  remember (entry_text (String n0 name) c (String v0 version)) as str
    eqn:Estr.
  assert (Hlen : String.length str =
                 (1 + String.length name + String.length (comparison_to_str c)
                  + 3 + String.length version)%nat).
  { rewrite Estr. unfold entry_text. rewrite !str_length_app. simpl. lia. }
  rewrite Estr at 2. unfold entry_text.
  change (" " +:+ comparison_to_str c +:+ " " +:+ String v0 version)
    with (String " "%char
            (comparison_to_str c +:+ String " "%char (String v0 version))).
  rewrite ?str_app_cons.
  cbn [split_loop split_switch]. fold (not_separator n0). rewrite Hn0.
  cbn [is_outside andb negb].
  rewrite split_loop_in_name by exact Hns.
  rewrite split_loop_operator;
    [|exact Hne|exact Hop|
     apply not_separator_not_space;
     unfold not_separator in Hv0; now apply negb_true_iff in Hv0].
  rewrite <- (str_app_nil_r version) at 1.
  rewrite split_loop_in_version by exact Hvs.
  cbn [split_loop is_outside negb]. unfold mret, exec_ret. simpl rev.
  do 3 f_equal.
  match goal with
  | |- String.substring 0 ?n str = str =>
      replace n with (String.length str) by lia
  end.
  apply substring_full.
Qed.

Lemma parse_entry_text pkg name c version path :
  name <> "" ->
  all_chars not_separator name = true ->
  c <> ALWAYS_MATCH ->
  version <> "" ->
  all_chars not_separator version = true ->
  parse_module_entry cfg pkg path (entry_text name c version) =
  mret (mkRequiredVersion name c (Some version) (key pkg)).
Proof.
  intros Hn Hns Hc Hv Hvs.
  destruct (comparison_to_str_operator c Hc) as (Hop & Hne & Hco).
  assert (Hsp : forall x, not_separator x = true -> not_space x = true).
  { intros x Hx. unfold not_separator in Hx. apply negb_true_iff in Hx.
    unfold not_space. now rewrite (not_separator_not_space _ Hx). }
  assert (Hos : forall x, OPERATOR_CHAR x = true -> not_space x = true).
  { intros x Hx. unfold not_space. now rewrite (operator_not_space _ Hx). }
  assert (Hnsp : not_space " "%char = false) by reflexivity.
  destruct version as [|v0 version]; [congruence|].
  assert (Hv0 : isspace v0 = false).
  { simpl in Hvs. apply andb_true_iff in Hvs as [Hv0 _].
    unfold not_separator in Hv0. apply negb_true_iff in Hv0.
    now apply not_separator_not_space. }
  set (tail := comparison_to_str c +:+ String " "%char (String v0 version)).
  assert (Etext : entry_text name c (String v0 version) =
                  name +:+ String " "%char tail) by reflexivity.
  destruct (span_while_app not_space name " "%char tail
              (all_chars_impl _ _ _ Hsp Hns) Hnsp) as [E1 E2].
  destruct (span_while_app not_space (comparison_to_str c) " "%char
              (String v0 version) (all_chars_impl _ _ _ Hos Hop) Hnsp)
    as [E3 E4].
  assert (E5 : skip_while isspace (String " "%char tail) = tail).
  { cbn [skip_while]. rewrite space_isspace. unfold tail.
    destruct (comparison_to_str c) as [|o0 op] eqn:Eo; [congruence|].
    rewrite ?str_app_cons. apply skip_while_head, operator_not_space.
    simpl in Hop. now apply andb_true_iff in Hop as [Hop _]. }
  assert (E6 : skip_while isspace (String " "%char (String v0 version)) =
               String v0 version).
  { cbn [skip_while]. rewrite space_isspace, Hv0. reflexivity. }
  assert (Emod : module_name (entry_text name c (String v0 version)) = name).
  { unfold module_name. now rewrite Etext, E1. }
  assert (Eop : operator_token (entry_text name c (String v0 version)) =
                comparison_to_str c).
  { unfold operator_token. rewrite Etext, E2, E5. exact E3. }
  assert (Ever : version_token (entry_text name c (String v0 version)) =
                 String v0 version).
  { unfold version_token. rewrite Etext, E2, E5. fold tail.
    unfold tail at 1. rewrite E4, E6.
    now destruct (all_chars_span _ _ Hvs) as [-> _]. }
  unfold parse_module_entry. rewrite Emod, Eop, Ever.
  destruct name as [|n0 name]; [congruence|].
  destruct (comparison_to_str c) as [|o0 op] eqn:Eo; [congruence|].
  cbn [is_nil negb]. rewrite Hco. simpl.
  destruct c; try congruence; reflexivity.
Qed.

End EntryFacts.

(** X22: a module list that is one entry, a name, one of the operators
    =, !=, <, <=, > and >=, and a version, each set off by one blank and
    the name and the version free of separators, is parsed to that very
    constraint, owned by the package, without a diagnostic. *)
Theorem parse_module_list_constraint
    (cfg : Parse.Config) (pkg : Parse.Package)
    (name : string) (c : Version.ComparisonType) (version path : string) :
  name <> "" ->
  Notions.all_chars Parse.not_separator name = true ->
  c <> Version.ALWAYS_MATCH ->
  version <> "" ->
  Notions.all_chars Parse.not_separator version = true ->
  Parse.parse_module_list cfg pkg (Notions.entry_text name c version) path =
  mret [mkRequiredVersion name c (Some version) (Parse.key pkg)].
Proof.
  intros Hn Hns Hc Hv Hvs.
  unfold Parse.parse_module_list, Parse.do_parse_module_list.
  rewrite (split_entry_text name c version path Hn Hns Hc Hv Hvs).
  unfold mbind, exec_bind at 2. cbn [Parse.parse_module_entries].
  rewrite (parse_entry_text cfg pkg name c version path Hn Hns Hc Hv Hvs).
  reflexivity.
Qed.

Lemma parse_module_list_constraint_witness :
  Parse.parse_module_list Fixtures.strict Fixtures.descriptor
    (Notions.entry_text "glib-2.0" Version.GREATER_THAN_EQUAL "2.40")
    "/d/a.pc" =
  mret [mkRequiredVersion "glib-2.0" Version.GREATER_THAN_EQUAL
          (Some "2.40") (Parse.key Fixtures.descriptor)].
Proof.
  apply (parse_module_list_constraint Fixtures.strict Fixtures.descriptor
           "glib-2.0" Version.GREATER_THAN_EQUAL "2.40" "/d/a.pc");
    (reflexivity || discriminate).
Defined.

(** ** Shell escapes and flags *)

Lemma backslash_needs_escape : Parse.needs_escape "\"%char = true.
Proof. reflexivity. Qed.

Lemma safe_not_backslash c :
  Parse.needs_escape c = false -> Ascii.eqb c "\"%char = false.
Proof.
  intros H. destruct (Ascii.eqb c "\"%char) eqn:E; [|reflexivity].
  apply Ascii.eqb_eq in E. subst c. rewrite backslash_needs_escape in H.
  discriminate H.
Qed.

(** X23: [strdup_escape_shell] loses nothing: reading its result with the
    backslash as a quote gives the string back, so that two strings with
    the same escape are equal; and a string made of bytes that need no
    escape is returned as it is. *)
Theorem strdup_escape_shell_round_trip (s t : string) :
  Notions.unescape (Parse.strdup_escape_shell s) = s /\
  (Parse.strdup_escape_shell s = Parse.strdup_escape_shell t -> s = t) /\
  (Notions.all_chars Notions.safe_byte s = true ->
   Parse.strdup_escape_shell s = s).
Proof.
  assert (R : forall u, Notions.unescape (Parse.strdup_escape_shell u) = u).
  { induction u as [|c u IH]; [reflexivity|].
    cbn [Parse.strdup_escape_shell].
    destruct (Parse.needs_escape c) eqn:E.
    - cbn [Notions.unescape]. simpl Ascii.eqb. cbv iota. now rewrite IH.
    - cbn [Notions.unescape]. rewrite (safe_not_backslash c E).
      now rewrite IH. }
  split; [apply R|]. split.
  - intros H. rewrite <- (R s), <- (R t). now rewrite H.
  - induction s as [|c s IH]; [reflexivity|]. simpl.
    intros [Hc Hs]%andb_true_iff. unfold Notions.safe_byte in Hc.
    apply negb_true_iff in Hc. rewrite Hc. now rewrite (IH Hs).
Qed.

Section FlagFacts.
Import Parse Notions.
Variable cfg : Config.

Lemma length_not_nil s : (0 < String.length s)%nat -> s <> "".
Proof. destruct s; simpl; [lia|discriminate]. Qed.

Lemma is_nil_length s : is_nil s = false -> (0 < String.length s)%nat.
Proof. destruct s; simpl; [discriminate|lia]. Qed.

Lemma l_flag_ok p :
  libs_flag_ok (mkFlag LIBS_l ((l_flag cfg +:+ p) +:+ lib_suffix cfg)).
Proof.
  split; [reflexivity|]. apply length_not_nil. cbn [arg].
  rewrite !str_length_app. unfold l_flag, lib_suffix.
  destruct (msvc_syntax cfg); simpl; lia.
Qed.

Lemma L_flag_ok p : libs_flag_ok (mkFlag LIBS_L (L_flag cfg +:+ p)).
Proof.
  split; [reflexivity|]. apply length_not_nil. cbn [arg].
  rewrite !str_length_app. unfold L_flag.
  destruct (msvc_syntax cfg); simpl; lia.
Qed.

Lemma joined_not_nil a b : (a +:+ " ") +:+ b <> "".
Proof. apply length_not_nil. rewrite !str_length_app. simpl. lia. Qed.

Lemma do_parse_libs_grows n : forall argv listp,
  (length argv <= n)%nat ->
  exists new,
    do_parse_libs cfg listp argv = new ++ listp /\
    (length new <= length argv)%nat /\
    Forall libs_flag_ok new.
Proof.
  induction n as [|n IH]; intros argv listp Hn.
  - destruct argv; [|simpl in Hn; lia]. exists []. simpl. auto.
  - destruct argv as [|a argv]; [exists []; simpl; auto|].
    simpl in Hn. cbn [do_parse_libs].
    assert (Step : forall f argv',
              (length argv' <= n)%nat ->
              (length argv' <= length argv)%nat ->
              libs_flag_ok f ->
              exists new,
                do_parse_libs cfg (f :: listp) argv' = new ++ listp /\
                (length new <= length (a :: argv))%nat /\
                Forall libs_flag_ok new).
    { intros f argv' H1 H2 Hf.
      destruct (IH argv' (f :: listp) H1) as (new & E & L & F).
      exists (new ++ [f]). rewrite E, <- app_assoc. split; [reflexivity|].
      split; [rewrite length_app; simpl; lia|].
      apply Forall_app. split; [exact F|].
      constructor; [exact Hf|constructor]. }
    assert (Skip : forall argv',
              (length argv' <= n)%nat ->
              (length argv' <= length argv)%nat ->
              exists new,
                do_parse_libs cfg listp argv' = new ++ listp /\
                (length new <= length (a :: argv))%nat /\
                Forall libs_flag_ok new).
    { intros argv' H1 H2.
      destruct (IH argv' listp H1) as (new & E & L & F).
      exists new. split; [exact E|]. split; [simpl; lia|exact F]. }
    destruct (_ && _ && _).
    { apply Step; [lia|lia|apply l_flag_ok]. }
    destruct (_ && _).
    { apply Step; [lia|lia|apply L_flag_ok]. }
    destruct argv as [|b argv].
    + destruct (is_nil (strdup_escape_shell (trim_string a))) eqn:E;
        cbn [negb].
      * apply Skip; simpl; lia.
      * apply Step; [simpl; lia|simpl; lia|].
        split; [reflexivity|]. cbn [arg].
        now apply length_not_nil, is_nil_length.
    + destruct (_ || _).
      { apply Step; [simpl in *; lia|simpl; lia|].
        split; [reflexivity|apply joined_not_nil]. }
      destruct (is_nil (strdup_escape_shell (trim_string a))) eqn:E;
        cbn [negb].
      * apply Skip; simpl in *; lia.
      * apply Step; [simpl in *; lia|simpl; lia|].
        split; [reflexivity|]. cbn [arg].
        now apply length_not_nil, is_nil_length.
Qed.

Lemma do_parse_cflags_grows n : forall argv listp,
  (length argv <= n)%nat ->
  exists new,
    do_parse_cflags listp argv = new ++ listp /\
    (length new <= length argv)%nat /\
    Forall cflags_flag_ok new.
Proof.
  induction n as [|n IH]; intros argv listp Hn.
  - destruct argv; [|simpl in Hn; lia]. exists []. simpl. auto.
  - destruct argv as [|a argv]; [exists []; simpl; auto|].
    simpl in Hn. cbn [do_parse_cflags].
    assert (Step : forall f argv',
              (length argv' <= n)%nat ->
              (length argv' <= length argv)%nat ->
              cflags_flag_ok f ->
              exists new,
                do_parse_cflags (f :: listp) argv' = new ++ listp /\
                (length new <= length (a :: argv))%nat /\
                Forall cflags_flag_ok new).
    { intros f argv' H1 H2 Hf.
      destruct (IH argv' (f :: listp) H1) as (new & E & L & F).
      exists (new ++ [f]). rewrite E, <- app_assoc. split; [reflexivity|].
      split; [rewrite length_app; simpl; lia|].
      apply Forall_app. split; [exact F|].
      constructor; [exact Hf|constructor]. }
    assert (Skip : forall argv',
              (length argv' <= n)%nat ->
              (length argv' <= length argv)%nat ->
              exists new,
                do_parse_cflags listp argv' = new ++ listp /\
                (length new <= length (a :: argv))%nat /\
                Forall cflags_flag_ok new).
    { intros argv' H1 H2.
      destruct (IH argv' listp H1) as (new & E & L & F).
      exists new. split; [exact E|]. split; [simpl; lia|exact F]. }
    destruct (_ && _).
    { apply Step; [lia|lia|].
      split; [reflexivity|]. apply length_not_nil. cbn [arg].
      rewrite str_length_app. simpl. lia. }
    destruct argv as [|b argv].
    + destruct (is_nil (strdup_escape_shell (trim_string a))) eqn:E;
        cbn [negb].
      * apply Skip; simpl; lia.
      * apply Step; [simpl; lia|simpl; lia|].
        split; [reflexivity|]. cbn [arg].
        now apply length_not_nil, is_nil_length.
    + destruct (_ || _).
      { apply Step; [simpl in *; lia|simpl; lia|].
        split; [reflexivity|apply joined_not_nil]. }
      destruct (is_nil (strdup_escape_shell (trim_string a))) eqn:E;
        cbn [negb].
      * apply Skip; simpl in *; lia.
      * apply Step; [simpl in *; lia|simpl; lia|].
        split; [reflexivity|]. cbn [arg].
        now apply length_not_nil, is_nil_length.
Qed.

End FlagFacts.

(** X24: [do_parse_libs] and the loop of [parse_cflags] put their flags in
    front of the list they are given and leave that list as it is; they
    make at most one flag for each argument; the flags of the first are
    all of the kinds -l, -L and other libs, those of the second of the
    kinds -I and other cflags; and no flag has an empty text. *)
Theorem do_parse_flags_grow
    (cfg : Parse.Config) (listp : list Parse.Flag) (argv : list string) :
  (exists new,
     Parse.do_parse_libs cfg listp argv = new ++ listp /\
     (length new <= length argv)%nat /\
     Forall (fun f => Notions.is_libs_flag f = true /\ Parse.arg f <> "")
       new) /\
  (exists new,
     Parse.do_parse_cflags listp argv = new ++ listp /\
     (length new <= length argv)%nat /\
     Forall (fun f => Notions.is_cflags_flag f = true /\ Parse.arg f <> "")
       new).
Proof.
  split.
  - apply (do_parse_libs_grows cfg (length argv)). lia.
  - apply (do_parse_cflags_grows (length argv)). lia.
Qed.

(** ** Lines *)

Section DefinitionLineFacts.
Import Parse Notions.
Variable cfg : Config.
Variable globals : option (gmap string string).
Variable g_shell_parse_argv : string -> option (list string).
Variable g_path_get_basename g_path_get_dirname : string -> string.

Lemma tag_char_not_space c : is_tag_char c = true -> isspace c = false.
Proof.
  unfold is_tag_char, isupper, islower, isdigit, isspace. intros H.
  repeat (apply orb_true_iff in H as [H|H]).
  1-3: apply andb_true_iff in H as [H1 H2];
       apply Z.leb_le in H1; apply Z.leb_le in H2;
       apply orb_false_iff; split;
       [apply Z.eqb_neq; lia|];
       apply andb_false_iff; right; apply Z.leb_gt; lia.
  all: apply Ascii.eqb_eq in H; subst c; reflexivity.
Qed.

Lemma space_not_tag_char c : isspace c = true -> is_tag_char c = false.
Proof.
  intros H. destruct (is_tag_char c) eqn:E; [|reflexivity].
  apply tag_char_not_space in E. congruence.
Qed.

Lemma char_at_app_r a b i :
  char_at (a +:+ b) (String.length a + i) = char_at b i.
Proof.
  induction a as [|c a IH]; [now rewrite ?str_app_nil_l|].
  rewrite ?str_app_cons. exact IH.
Qed.

Lemma skip_spaces ws c r :
  all_chars isspace ws = true -> isspace c = false ->
  skip_while isspace (ws +:+ String c r) = String c r.
Proof. intros H1 H2. now destruct (span_while_app isspace ws c r H1 H2). Qed.

Lemma definition_text_trimmed tag ws1 ws2 value :
  tag <> "" ->
  all_chars is_tag_char tag = true ->
  value <> "" ->
  isspace (char_at value (String.length value - 1)) = false ->
  trim_string (definition_text tag ws1 ws2 value) =
  definition_text tag ws1 ws2 value.
Proof.
  intros Ht Hts Hv Hend. apply trim_string_id.
  - destruct tag as [|t0 tag]; [congruence|]. unfold definition_text.
    rewrite ?str_app_cons. cbn [peek]. simpl in Hts.
    apply andb_true_iff in Hts as [Ht0 _]. now apply tag_char_not_space.
  - unfold definition_text.
    change (String "="%char (ws2 +:+ value))
      with ("=" +:+ (ws2 +:+ value)).
    rewrite <- !str_app_assoc.
    set (pre := ((tag +:+ ws1) +:+ "=") +:+ ws2).
    rewrite str_length_app.
    replace (String.length pre + String.length value - 1)%nat
      with (String.length pre + (String.length value - 1))%nat.
    + now rewrite char_at_app_r.
    + destruct value; [congruence|]. simpl. lia.
Qed.

Lemma definition_text_tokens tag ws1 ws2 value :
  all_chars is_tag_char tag = true ->
  all_chars isspace ws1 = true ->
  all_chars isspace ws2 = true ->
  isspace (peek value) = false ->
  value <> "" ->
  let line := definition_text tag ws1 ws2 value in
  span_while is_tag_char line = tag /\
  skip_while isspace (skip_while is_tag_char line) =
  String "="%char (ws2 +:+ value) /\
  skip_while isspace (ws2 +:+ value) = value.
Proof.
  intros Hts Hw1 Hw2 Hv0 Hv line. unfold line, definition_text.
  assert (Heq : is_tag_char "="%char = false) by reflexivity.
  assert (Hes : isspace "="%char = false) by reflexivity.
  split; [|split].
  - destruct ws1 as [|w ws1].
    + rewrite ?str_app_nil_l.
      now destruct (span_while_app is_tag_char tag _ (ws2 +:+ value)
                      Hts Heq).
    + rewrite ?str_app_cons. simpl in Hw1.
      apply andb_true_iff in Hw1 as [Hw _].
      now destruct (span_while_app is_tag_char tag w
                      (ws1 +:+ String "="%char (ws2 +:+ value))
                      Hts (space_not_tag_char _ Hw)).
  - destruct ws1 as [|w ws1].
    + rewrite ?str_app_nil_l.
      destruct (span_while_app is_tag_char tag _ (ws2 +:+ value)
                  Hts Heq) as [_ ->].
      now apply skip_while_head.
    + pose proof Hw1 as Hw1'. rewrite ?str_app_cons. simpl in Hw1.
      apply andb_true_iff in Hw1 as [Hw _].
      destruct (span_while_app is_tag_char tag w
                  (ws1 +:+ String "="%char (ws2 +:+ value))
                  Hts (space_not_tag_char _ Hw)) as [_ ->].
      rewrite <- str_app_cons. now apply skip_spaces.
  - destruct value as [|v0 value]; [congruence|]. now apply skip_spaces.
Qed.

Lemma define_variable_plain pkg tag value path :
  all_chars not_dollar value = true ->
  trim_string value = value ->
  define_variable cfg globals pkg tag (Some value) path =
  match vars pkg !! tag with
  | Some _ =>
      ([DuplicateVariable tag path],
       if parse_strict cfg then Exited else Done pkg)
  | None => mret (set_vars pkg (<[tag := value]> (vars pkg)))
  end.
Proof.
  intros Hd Ht. unfold define_variable.
  destruct (vars pkg !! tag).
  - destruct (parse_strict cfg); reflexivity.
  - unfold trim_and_sub. rewrite Ht.
    rewrite trim_and_sub_loop_end by exact Hd. reflexivity.
Qed.

End DefinitionLineFacts.

(** X25: a line that is a tag, an equals sign with any white space around
    it, and a value that has no dollar sign and no white space at its ends,
    defines the variable of that name with that value when prefix
    overriding is off; when the package already has the variable, the line
    is reported as a duplicate and changes nothing, and under
    [parse_strict] the run exits.  A variable so defined is what
    [package_get_var] returns for the name unless a global of the name
    overrides it. *)
Theorem parse_line_defines_variable
    (cfg : Parse.Config) (globals : option (gmap string string))
    (g_shell_parse_argv : string -> option (list string))
    (g_path_get_basename g_path_get_dirname : string -> string)
    (pkg : Parse.Package) (tag ws1 ws2 value path : string) :
  tag <> "" ->
  Notions.all_chars Parse.is_tag_char tag = true ->
  Notions.all_chars isspace ws1 = true ->
  Notions.all_chars isspace ws2 = true ->
  value <> "" ->
  Notions.all_chars Notions.not_dollar value = true ->
  isspace (peek value) = false ->
  isspace (Parse.char_at value (String.length value - 1)) = false ->
  Parse.define_prefix cfg = false ->
  Parse.parse_line cfg globals g_shell_parse_argv g_path_get_basename
    g_path_get_dirname pkg (Notions.definition_text tag ws1 ws2 value) path =
  match Parse.vars pkg !! tag with
  | Some _ =>
      ([Parse.DuplicateVariable tag path],
       if Parse.parse_strict cfg then Exited else Done pkg)
  | None => mret (Parse.set_vars pkg (<[tag := value]> (Parse.vars pkg)))
  end /\
  Parse.package_get_var globals
    (Parse.set_vars pkg (<[tag := value]> (Parse.vars pkg))) tag =
  match globals ≫= (fun g => g !! tag) with
  | Some v => Some v
  | None => Some value
  end.
Proof.
  intros Ht Hts Hw1 Hw2 Hv Hd Hv0 Hend Hp. split.
  - unfold Parse.parse_line.
    rewrite (definition_text_trimmed tag ws1 ws2 value Ht Hts Hv Hend).
    destruct (definition_text_tokens tag ws1 ws2 value Hts Hw1 Hw2 Hv0 Hv)
      as (E1 & E2 & E3).
    rewrite E1, E2. cbn [peek Parse.advance]. rewrite E3.
    assert (N : is_nil (Notions.definition_text tag ws1 ws2 value) = false).
    { destruct tag; [congruence|]. unfold Notions.definition_text.
      now rewrite ?str_app_cons. }
    rewrite N.
    change (Ascii.eqb "="%char ":"%char) with false.
    change (Ascii.eqb "="%char "="%char) with true. cbv iota.
    unfold Parse.parse_variable. rewrite Hp. cbn [andb].
    assert (T : Parse.trim_string value = value)
      by (now apply trim_string_id).
    destruct (Parse.orig_prefix pkg);
      apply define_variable_plain; assumption.
  - unfold Parse.package_get_var, lookup_var. cbn [Parse.vars Parse.set_vars].
    rewrite lookup_insert_eq.
    destruct globals as [g|]; simpl; [|reflexivity].
    destruct (g !! tag); reflexivity.
Qed.

Lemma parse_line_defines_variable_witness :
  Parse.parse_line Fixtures.strict None Fixtures.one_word id id
    Fixtures.descriptor (Notions.definition_text "libdir" " " " " "/usr/lib")
    "/d/a.pc" =
  mret (Parse.set_vars Fixtures.descriptor
          (<[ "libdir" := "/usr/lib" ]> (Parse.vars Fixtures.descriptor))) /\
  Parse.package_get_var None
    (Parse.set_vars Fixtures.descriptor
       (<[ "libdir" := "/usr/lib" ]> (Parse.vars Fixtures.descriptor)))
    "libdir" = Some "/usr/lib".
Proof.
  apply (parse_line_defines_variable Fixtures.strict None Fixtures.one_word
           id id Fixtures.descriptor "libdir" " " " " "/usr/lib" "/d/a.pc");
    (reflexivity || discriminate).
Defined.

(** ** Dollar signs *)

(** X26: in a trimmed value, two dollar signs in a row between texts
    without a dollar sign come out as one dollar sign, and no variable is
    looked up. *)
Theorem trim_and_sub_escaped_dollar
    (cfg : Parse.Config) (globals : option (gmap string string))
    (pkg : Parse.Package) (before after path : string) :
  Notions.all_chars Notions.not_dollar before = true ->
  Notions.all_chars Notions.not_dollar after = true ->
  let str := before +:+ "$$" +:+ after in
  Parse.trim_string str = str ->
  Parse.trim_and_sub cfg globals pkg str path =
  mret (before +:+ "$" +:+ after).
Proof.
  intros Hb Ha str Ht. unfold Parse.trim_and_sub. rewrite Ht.
  unfold str. rewrite trim_and_sub_loop_text by exact Hb.
  change ("$$" +:+ after) with (String "$"%char (String "$"%char after)).
  cbn [Parse.trim_and_sub_loop peek]. simpl Ascii.eqb. simpl andb.
  cbv iota. rewrite trim_and_sub_loop_end by exact Ha.
  unfold Parse.append_c. rewrite !str_app_nil_l, !str_app_assoc.
  reflexivity.
Qed.

Lemma trim_and_sub_escaped_dollar_witness :
  Parse.trim_and_sub Fixtures.strict None Fixtures.descriptor
    ("-DCOST=" +:+ "$$" +:+ "5") "/d/a.pc" =
  mret ("-DCOST=" +:+ "$" +:+ "5").
Proof.
  apply (trim_and_sub_escaped_dollar Fixtures.strict None
           Fixtures.descriptor "-DCOST=" "5" "/d/a.pc");
    reflexivity.
Defined.

(** X27: in a trimmed value whose last reference to a variable has no
    closing brace, the rest of the value is taken as the name of the
    variable, and the scan then moves past the end of the string: with the
    variable defined, and without [parse_strict] also when it is not, the
    loop goes on reading beyond the terminator. *)
Theorem trim_and_sub_unclosed_reference
    (cfg : Parse.Config) (globals : option (gmap string string))
    (pkg : Parse.Package) (before name path : string) :
  Notions.all_chars Notions.not_dollar before = true ->
  Notions.all_chars Notions.not_closing_brace name = true ->
  let str := before +:+ "${" +:+ name in
  Parse.trim_string str = str ->
  Parse.trim_and_sub cfg globals pkg str path =
  match Parse.package_get_var globals pkg name with
  | Some _ => ([], Aborted)
  | None =>
      ([Parse.VariableNotDefined name path],
       if Parse.parse_strict cfg then Exited else Aborted)
  end.
Proof.
  intros Hb Hn str Ht. unfold Parse.trim_and_sub. rewrite Ht.
  unfold str. rewrite trim_and_sub_loop_text by exact Hb.
  change ("${" +:+ name) with (String "$"%char (String "{"%char name)).
  cbn [Parse.trim_and_sub_loop peek]. simpl Ascii.eqb. simpl andb.
  cbv iota. rewrite <- (str_app_nil_r name) at 1.
  rewrite trim_and_sub_loop_name by exact Hn.
  cbn [Parse.trim_and_sub_loop]. rewrite str_app_nil_l.
  destruct (Parse.package_get_var globals pkg name); [reflexivity|].
  destruct (Parse.parse_strict cfg); reflexivity.
Qed.

Lemma trim_and_sub_unclosed_reference_witness :
  Parse.trim_and_sub Fixtures.strict None MoreFixtures.with_nested
    ("-L" +:+ "${" +:+ "libdir") "/d/a.pc" = ([], Aborted).
Proof.
  apply (trim_and_sub_unclosed_reference Fixtures.strict None
           MoreFixtures.with_nested "-L" "libdir" "/d/a.pc");
    reflexivity.
Defined.

(** ** Module lists of a descriptor *)

(** X28: on a value without a dollar sign, [parse_deps] never aborts; when
    it returns, the list is the one it was given with the new entries in
    front of it, last entry first, so that reversing the list, as
    [parse_package_file] does in the end, puts the entries of the lines of
    one field in the order of the file; when it exits, [parse_strict] is
    set and something has been reported. *)
Theorem parse_deps_accumulates
    (cfg : Parse.Config) (globals : option (gmap string string))
    (pkg : Parse.Package) (listp : list RequiredVersion)
    (str path : string) :
  Notions.all_chars Notions.not_dollar str = true ->
  exists items,
    Parse.split_module_list (Parse.trim_string str) path =
    ([], Done items) /\
    match Parse.parse_deps cfg globals pkg listp str path with
    | (_, Done l) =>
        exists new,
          l = new ++ listp /\
          map rv_name (rev new) = map Parse.module_name items
    | (log, Exited) => Parse.parse_strict cfg = true /\ log <> []
    | (_, Aborted) => False
    end.
Proof.
  intros Hd.
  destruct (split_loop_total (Parse.trim_string str) (Parse.trim_string str)
              0 0 Parse.OUTSIDE_MODULE Parse.OUTSIDE_MODULE [])
    as [items E].
  { intros H. discriminate H. }
  exists items. split; [exact E|].
  pose proof (split_module_list_named _ path [] items E) as Hn.
  pose proof (parse_module_entries_outcome cfg pkg path items [] Hn
                (List.Forall_nil _)) as H.
  unfold Parse.parse_deps, Parse.trim_and_sub.
  rewrite trim_and_sub_loop_end by (now apply all_chars_trim).
  rewrite str_app_nil_l.
  unfold mbind, exec_bind at 1. cbn [mret exec_ret].
  unfold Parse.do_parse_module_list.
  unfold Parse.split_module_list in *. rewrite E.
  unfold mbind, exec_bind. simpl app.
  rewrite (parse_module_entries_prepends cfg pkg path items listp).
  destruct (Parse.parse_module_entries cfg pkg path items [])
    as [log [l| |]]; simpl; [| |contradiction].
  - destruct H as [H1 _]. exists l. split; [reflexivity|].
    rewrite map_rev, H1, app_nil_r. apply rev_involutive.
  - exact H.
Qed.

Lemma parse_deps_accumulates_witness :
  exists items,
    Parse.split_module_list (Parse.trim_string " c >= 2, d ") "/d/a.pc" =
    ([], Done items) /\
    match Parse.parse_deps Fixtures.strict None Fixtures.descriptor
            [mkRequiredVersion "b" Version.ALWAYS_MATCH None (Some "a")]
            " c >= 2, d " "/d/a.pc" with
    | (_, Done l) =>
        exists new,
          l = new ++
              [mkRequiredVersion "b" Version.ALWAYS_MATCH None (Some "a")] /\
          map rv_name (rev new) = map Parse.module_name items
    | (log, Exited) => Parse.parse_strict Fixtures.strict = true /\ log <> []
    | (_, Aborted) => False
    end.
Proof.
  apply (parse_deps_accumulates Fixtures.strict None Fixtures.descriptor
           [mkRequiredVersion "b" Version.ALWAYS_MATCH None (Some "a")]
           " c >= 2, d " "/d/a.pc").
  reflexivity.
Defined.
